(** * Leaderboard script: a shallow embedding of [leaderscript.js]

    The script fetches a published spreadsheet export (Fetcher, [fetchCSV]),
    splits it into rows (Parser, [parseCSV]), maps and sorts the rows
    (Transformer, [transformData]), rewrites a table body (Renderer,
    [renderLeaderboard]) and chains the four in [refreshLeaderboard].

    The first part of the file embeds the built-ins the script calls and the
    five functions of the script.  The second part states and proves the
    properties. *)

From Stdlib Require Import ZArith NArith List String Ascii Lia Sorted Permutation.
From Stdlib Require Import DecimalString.
From Stdlib Require Import Floats.SpecFloat.
From stdpp Require Import gmap list.
Import ListNotations.

Local Open Scope string_scope.
Local Open Scope list_scope.
Local Open Scope Z_scope.

(* ================================================================= *)
(** * Part I: the embedding *)
(* ================================================================= *)

(* ----------------------------------------------------------------- *)
(** ** Strings

    A JavaScript string is a sequence of UTF-16 code units. *)

Abbreviation jsstring := (list N).

(** Code units of an ASCII literal of the source. *)
Definition lit (s : string) : jsstring :=
  map N_of_ascii (list_ascii_of_string s).

Definition LF : N := 10%N.
Definition CR : N := 13%N.
Definition COMMA : N := 44%N.

(** [WhiteSpace] and [LineTerminator] code units, the ones [trim] strips:
    TAB, LF, VT, FF, CR, SP, NBSP, U+1680, U+2000..U+200A, LS, PS, U+202F,
    U+205F, U+3000 and the byte order mark. *)
Definition is_ws (c : N) : bool :=
  ((9 <=? c) && (c <=? 13) || (c =? 32) || (c =? 160) || (c =? 5760)
   || (8192 <=? c) && (c <=? 8202) || (c =? 8232) || (c =? 8233)
   || (c =? 8239) || (c =? 8287) || (c =? 12288) || (c =? 65279))%N.

Definition all_ws (s : jsstring) : bool := forallb is_ws s.

(** [String.prototype.trimStart]. *)
Fixpoint trim_start (s : jsstring) : jsstring :=
  match s with
  | [] => []
  | c :: s' => if is_ws c then trim_start s' else s
  end.

(** [String.prototype.trimEnd]: the longest suffix of white space goes. *)
Fixpoint trim_end (s : jsstring) : jsstring :=
  match s with
  | [] => []
  | c :: s' =>
      match trim_end s' with
      | [] => if is_ws c then [] else [c]
      | r => c :: r
      end
  end.

(** [String.prototype.trim]. *)
Definition trim (s : jsstring) : jsstring := trim_end (trim_start s).

(** [s.split(sep)] for a separator [sep] of one code unit.  The result is
    never empty: the empty string splits to one empty piece. *)
Fixpoint split_on (sep : N) (s : jsstring) : list jsstring :=
  match s with
  | [] => [[]]
  | c :: s' =>
      if (c =? sep)%N then [] :: split_on sep s'
      else match split_on sep s' with
           | l :: ls => (c :: l) :: ls
           | [] => [[c]]
           end
  end.

Definition starts_with_LF (s : jsstring) : bool :=
  match s with
  | c :: _ => (c =? LF)%N
  | [] => false
  end.

(** [s.split(/\r?\n/)]: every LF ends a piece, and a CR that stands directly
    before an LF belongs to the separator. *)
Fixpoint split_lines (s : jsstring) : list jsstring :=
  match s with
  | [] => [[]]
  | c :: s' =>
      if (c =? LF)%N then [] :: split_lines s'
      else if (c =? CR)%N && starts_with_LF s' then split_lines s'
      else match split_lines s' with
           | l :: ls => (c :: l) :: ls
           | [] => [[c]]
           end
  end.

(** [Array.prototype.forEach] with a callback that reads the element and
    its index and updates the state [S] it closes over. *)
Fixpoint forEach_from {A S : Type} (f : S -> A -> nat -> S)
    (idx : nat) (l : list A) (st : S) : S :=
  match l with
  | [] => st
  | x :: l' => forEach_from f (Datatypes.S idx) l' (f st x idx)
  end.

Definition forEach {A S : Type} (f : S -> A -> nat -> S) (l : list A) (st : S) : S :=
  forEach_from f 0%nat l st.

(* ----------------------------------------------------------------- *)
(** ** Values and plain objects *)

(** The values the script reads out of a row: a string, or [undefined]. *)
Inductive value : Type :=
  | Undefined
  | Str (s : jsstring).

(** [ToBoolean]: [undefined] and the empty string are falsy. *)
Definition truthy (v : value) : bool :=
  match v with
  | Undefined => false
  | Str [] => false
  | Str (_ :: _) => true
  end.

(** [a || b]. *)
Definition js_or (a b : value) : value := if truthy a then a else b.

(** [ToString] on these values. *)
Definition to_string (v : value) : jsstring :=
  match v with
  | Undefined => lit "undefined"
  | Str s => s
  end.

(** A row is an object literal [{}] that only ever receives string-valued
    own properties: a finite map from property name to string. *)
Abbreviation record := (gmap (list N) (list N)).

Definition PROTO : jsstring := lit "__proto__".

(** [row[k] = v] on an object whose prototype is [Object.prototype].  The
    one inherited setter is [__proto__], and it ignores a string: that
    assignment creates no own property. *)
Definition obj_set (row : record) (k v : jsstring) : record :=
  if decide (k = PROTO) then row else <[k := v]> row.

(** [row[k]] for a name that [Object.prototype] does not define (all the
    names [transformData] reads are such). *)
Definition obj_get (row : record) (k : jsstring) : value :=
  match row !! k with
  | Some s => Str s
  | None => Undefined
  end.

(* ----------------------------------------------------------------- *)
(** ** Numbers

    A JavaScript number is an IEEE 754 binary64 value; [spec_float] with
    precision 53 and maximal exponent 1024 is that format. *)

Abbreviation num := spec_float.

Definition prec : Z := 53.
Definition emax : Z := 1024.

Definition num_zero : num := S754_zero false.

(** [x - y]. *)
Definition num_sub (x y : num) : num := SFsub prec emax x y.

(** [x < y], false as soon as one side is NaN. *)
Definition num_ltb (x y : num) : bool := SFltb x y.

(** [isNaN] on a number. *)
Definition isNaN (x : num) : bool :=
  match x with
  | S754_nan => true
  | _ => false
  end.

Definition digit_of (c : N) : option Z :=
  if ((48 <=? c) && (c <=? 57))%N then Some (Z.of_N c - 48) else None.

(** The longest run of decimal digits at the head of [s]: the value read
    (on top of [acc]), the number of digits read (on top of [n]), the rest. *)
Fixpoint read_digits (acc n : Z) (s : jsstring) : Z * Z * jsstring :=
  match s with
  | [] => (acc, n, s)
  | c :: s' =>
      match digit_of c with
      | Some d => read_digits (10 * acc + d) (n + 1) s'
      | None => (acc, n, s)
      end
  end.

(** [ExponentPart], when one stands at the head of [s]; 0 otherwise (an
    [e] without digits after it is not part of the literal). *)
Definition read_exponent (s : jsstring) : Z :=
  match s with
  | [] => 0
  | c :: s' =>
      if ((c =? 101) || (c =? 69))%N then
        let '(neg, s'') :=
          match s' with
          | d :: t =>
              if (d =? 43)%N then (false, t)
              else if (d =? 45)%N then (true, t)
              else (false, s')
          | [] => (false, s')
          end in
        let '(v, n, _) := read_digits 0 0 s'' in
        if n =? 0 then 0 else if neg then - v else v
      else 0
  end.

Fixpoint is_prefix (p s : jsstring) : bool :=
  match p, s with
  | [], _ => true
  | _ :: _, [] => false
  | a :: p', b :: s' => (a =? b)%N && is_prefix p' s'
  end.

(** What the longest prefix that is a [StrUnsignedDecimalLiteral] denotes:
    nothing, [Infinity], or the decimal [m * 10 ^ e]. *)
Inductive literal : Type :=
  | LitNone
  | LitInfinity
  | LitDecimal (m e : Z).

Definition read_unsigned (s : jsstring) : literal :=
  if is_prefix (lit "Infinity") s then LitInfinity
  else
    let '(i, ni, s1) := read_digits 0 0 s in
    match s1 with
    | [] => if ni =? 0 then LitNone else LitDecimal i 0
    | c :: s2 =>
        if (c =? 46)%N then
          let '(m, nf, s3) := read_digits i 0 s2 in
          if (ni =? 0) && (nf =? 0) then LitNone
          else LitDecimal m (read_exponent s3 - nf)
        else if ni =? 0 then LitNone
        else LitDecimal i (read_exponent s1)
    end.

(** The binary64 value nearest to [(-1)^neg * m * 10 ^ e] (ties to even),
    for [0 <= m]. *)
Definition of_decimal (neg : bool) (m e : Z) : num :=
  match m with
  | Z0 => S754_zero neg
  | Zpos _ =>
      if 0 <=? e then
        binary_normalize prec emax (cond_Zopp neg (m * 10 ^ e)) 0 neg
      else
        let '(q, e', l) := SFdiv_core_binary prec emax m 0 (10 ^ (- e)) 0 in
        binary_round_aux prec emax neg q e' l
  | Zneg _ => S754_nan
  end.

(** [parseFloat]: [ToString], skip leading white space, read the longest
    prefix that is a [StrDecimalLiteral]; NaN when there is none. *)
Definition parseFloat (v : value) : num :=
  let s := trim_start (to_string v) in
  let '(neg, s') :=
    match s with
    | c :: t =>
        if (c =? 45)%N then (true, t)
        else if (c =? 43)%N then (false, t)
        else (false, s)
    | [] => (false, s)
    end in
  match read_unsigned s' with
  | LitNone => S754_nan
  | LitInfinity => S754_infinity neg
  | LitDecimal m e => of_decimal neg m e
  end.

(* ----------------------------------------------------------------- *)
(** ** Arrays *)

(** What [Array.prototype.join] writes for one element: nothing for
    [undefined], the string itself otherwise. *)
Definition join_item (v : value) : jsstring :=
  match v with
  | Undefined => []
  | Str s => s
  end.

(** [Array.prototype.join] on an array of these values. *)
Fixpoint join (sep : jsstring) (l : list value) : jsstring :=
  match l with
  | [] => []
  | [v] => join_item v
  | v :: l' => join_item v ++ sep ++ join sep l'
  end.

(** The comparator's answer [v] asks for a swap when [v > 0]; a NaN answer
    counts as [+0] and asks for nothing. *)
Definition is_positive (v : num) : bool := num_ltb num_zero v.

Section Sort.
Context {A : Type}.
Variable cmp : A -> A -> num.

(** [x] came before every element of [l]; it goes behind the elements the
    comparator puts strictly before it, and no further. *)
Fixpoint sort_insert (x : A) (l : list A) : list A :=
  match l with
  | [] => [x]
  | y :: l' => if is_positive (cmp x y) then y :: sort_insert x l' else x :: l
  end.

(** [Array.prototype.sort(cmp)].  The language requires the sort to be
    stable; for a comparator that is a consistent ordering every stable
    sort returns the same array, the one computed here by insertion from
    the right. *)
Fixpoint js_sort (l : list A) : list A :=
  match l with
  | [] => []
  | x :: l' => sort_insert x (js_sort l')
  end.
End Sort.

(* ----------------------------------------------------------------- *)
(** ** Fetcher *)

(** What a rejected promise or a [throw] carries. *)
Inductive error : Type :=
  | HttpError (status : N)        (* new Error(`HTTP ${resp.status}`) *)
  | FetchFailure (reason : N)     (* fetch(target) rejected *)
  | BodyFailure (reason : N)      (* resp.text() rejected *)
  | UnableToFetch                 (* new Error('Unable to fetch CSV') *)
  | URIError.                     (* encodeURIComponent on a lone surrogate *)

(** What [resp.text()] settles to. *)
Inductive body : Type :=
  | BodyText (text : jsstring)
  | BodyRejected (reason : N).

(** What [fetch(target)] settles to. *)
Inductive response : Type :=
  | Rejected (reason : N)
  | Response (status : N) (b : body).

(** [resp.ok]: the status is in the range 200..299. *)
Definition ok (status : N) : bool := ((200 <=? status) && (status <=? 299))%N.

(** [uriUnreserved]: letters, digits and [- _ . ! ~ * ' ( )]. *)
Definition uri_unreserved (c : N) : bool :=
  ((65 <=? c) && (c <=? 90) || (97 <=? c) && (c <=? 122)
   || (48 <=? c) && (c <=? 57)
   || (c =? 45) || (c =? 95) || (c =? 46) || (c =? 33) || (c =? 126)
   || (c =? 42) || (c =? 39) || (c =? 40) || (c =? 41))%N.

Definition hex_digit (n : N) : N := (if n <? 10 then 48 + n else 55 + n)%N.

(** One octet as [%XX], upper-case. *)
Definition percent (o : N) : jsstring :=
  [37%N; hex_digit (o / 16); hex_digit (o mod 16)].

(** The UTF-8 octets of a code point. *)
Definition utf8 (cp : N) : list N :=
  (if cp <? 128 then [cp]
   else if cp <? 2048 then [192 + cp / 64; 128 + cp mod 64]
   else if cp <? 65536 then
     [224 + cp / 4096; 128 + (cp / 64) mod 64; 128 + cp mod 64]
   else
     [240 + cp / 262144; 128 + (cp / 4096) mod 64; 128 + (cp / 64) mod 64;
      128 + cp mod 64])%N.

Definition is_lead (c : N) : bool := ((55296 <=? c) && (c <=? 56319))%N.
Definition is_trail (c : N) : bool := ((56320 <=? c) && (c <=? 57343))%N.

(** [encodeURIComponent]; [None] is the [URIError] of an unpaired surrogate. *)
Fixpoint encodeURIComponent (s : jsstring) : option jsstring :=
  match s with
  | [] => Some []
  | c :: s' =>
      if uri_unreserved c then (c ::.) <$> encodeURIComponent s'
      else if is_trail c then None
      else if is_lead c then
        match s' with
        | d :: s'' =>
            if is_trail d then
              let cp := ((c - 55296) * 1024 + (d - 56320) + 65536)%N in
              (concat (map percent (utf8 cp)) ++.) <$> encodeURIComponent s''
            else None
        | [] => None
        end
      else (concat (map percent (utf8 c)) ++.) <$> encodeURIComponent s'
  end.

(** The prefix strategies, in the order of the source. *)
Definition proxies : list jsstring :=
  [ lit ""; lit "https://corsproxy.io/?"; lit "https://api.allorigins.win/raw?url=" ].

(** [prefix ? prefix + encodeURIComponent(url) : url]. *)
Definition target_of (prefix url : jsstring) : option jsstring :=
  match prefix with
  | [] => Some url
  | _ :: _ => (prefix ++.) <$> encodeURIComponent url
  end.

(** [text && text.trim().length > 0]. *)
Definition usable (text : jsstring) : bool :=
  truthy (Str text) && (0 <? length (trim text))%nat.

Section Fetcher.
(** The network: what a GET of each target settles to. *)
Variable fetch : jsstring -> response.

(** The [for] loop of [fetchCSV] over the strategies left, with the
    variable [lastError] and the targets requested so far.  A [URIError]
    is raised outside the [try] and leaves the function at once. *)
Fixpoint fetch_loop (url : jsstring) (strategies : list jsstring)
    (lastError : option error) (requested : list jsstring)
    : list jsstring * (error + jsstring) :=
  match strategies with
  | [] =>
      (requested, inl (match lastError with Some e => e | None => UnableToFetch end))
  | prefix :: rest =>
      match target_of prefix url with
      | None => (requested, inl URIError)
      | Some target =>
          let requested' := requested ++ [target] in
          match fetch target with
          | Rejected r => fetch_loop url rest (Some (FetchFailure r)) requested'
          | Response status b =>
              if negb (ok status) then
                fetch_loop url rest (Some (HttpError status)) requested'
              else
                match b with
                | BodyRejected r =>
                    fetch_loop url rest (Some (BodyFailure r)) requested'
                | BodyText text =>
                    if usable text then (requested', inr text)
                    else fetch_loop url rest lastError requested'
                end
          end
      end
  end.

(** [fetchCSV(url)]: the targets requested, in order, and the outcome. *)
Definition fetchCSV (url : jsstring) : list jsstring * (error + jsstring) :=
  fetch_loop url proxies None [].
End Fetcher.

(* ----------------------------------------------------------------- *)
(** ** Parser *)

(** [cells[idx] || '']. *)
Definition cell_or_empty (cells : list jsstring) (idx : nat) : jsstring :=
  match cells !! idx with
  | Some (c :: s) => c :: s
  | Some [] => []
  | None => []
  end.

(** The [headers.forEach] that fills one row. *)
Definition make_row (headers cells : list jsstring) : record :=
  forEach (fun row header idx => obj_set row header (trim (cell_or_empty cells idx)))
          headers ∅.

(** The body of the [for] loop over the data lines: [rows] after one line. *)
Definition parse_line (headers : list jsstring) (rows : list record) (line : jsstring)
    : list record :=
  let cells := split_on COMMA line in
  match cells with
  | [ [] ] => rows
  | _ => rows ++ [make_row headers cells]
  end.

Definition parseCSV (csv : jsstring) : list record :=
  let lines := split_lines (trim csv) in
  match lines with
  | [] => []
  | first :: rest =>
      let headers := map trim (split_on COMMA first) in
      fold_left (parse_line headers) rest []
  end.

(* ----------------------------------------------------------------- *)
(** ** Transformer *)

Record entry : Type := Entry {
  name : jsstring;
  dealership : value;
  score : num
}.

Definition firstName (row : record) : value :=
  js_or (js_or (obj_get row (lit "First Name")) (obj_get row (lit "First name")))
        (obj_get row (lit "First")).

Definition lastName (row : record) : value :=
  js_or (js_or (obj_get row (lit "Last Name")) (obj_get row (lit "Last name")))
        (obj_get row (lit "Last")).

Definition dealershipOf (row : record) : value :=
  js_or (js_or (obj_get row (lit "Dealership")) (obj_get row (lit "Dealer")))
        (obj_get row (lit "Company")).

Definition scoreStr (row : record) : value :=
  js_or (js_or (obj_get row (lit "Total Score")) (obj_get row (lit "Score")))
        (obj_get row (lit "Total")).

(** The callback of [rows.map]. *)
Definition to_entry (row : record) : entry :=
  let score := parseFloat (scoreStr row) in
  let name := join (lit " ") (List.filter truthy [firstName row; lastName row]) in
  {| name := name;
     dealership := dealershipOf row;
     score := if isNaN score then num_zero else score |}.

(** The comparator [(a, b) => b.score - a.score]. *)
Definition by_score (a b : entry) : num := num_sub (score b) (score a).

Definition transformData (rows : list record) : list entry :=
  js_sort by_score (map to_entry rows).

(* ----------------------------------------------------------------- *)
(** ** Renderer *)

(** The part of the document the script builds: text nodes, and elements
    with a tag, a [class] attribute, inline style declarations in the order
    they are set, and child nodes. *)
#[warnings="-register-all"]
Inductive node : Type :=
  | Text (s : jsstring)
  | Element (tag class_attr : string) (style : list (string * string)) (kids : list node).

(** [el.textContent = v] on a fresh element: one text node, none for the
    empty string and for [undefined]. *)
Definition text_kids (v : value) : list node :=
  match v with
  | Str (c :: s) => [Text (c :: s)]
  | Str [] => []
  | Undefined => []
  end.

(** The decimal digits of a rank. *)
Definition rank_text (rank : nat) : jsstring :=
  lit (NilZero.string_of_uint (Nat.to_uint rank)).

Definition rank_class (rank : nat) : string :=
  match rank with
  | 1%nat => "rank-1"
  | 2%nat => "rank-2"
  | 3%nat => "rank-3"
  | _ => "rank-default"
  end.

(** [badgeBg], [badgeBorder], [badgeColor]. *)
Definition badge_colours (rank : nat) : string * string * string :=
  match rank with
  | 1%nat => ("#3893B7", "#21A4D2", "#FCF7EF")
  | 2%nat => ("#E8F4F8", "#3893B7", "#3893B7")
  | 3%nat => ("#FCF7EF", "#21A4D2", "#21A4D2")
  | _ => ("#3893B7", "#21A4D2", "#FCF7EF")
  end.

Section Renderer.
(** [Number::toString], which the template literal of the score cell
    applies to the score. *)
Variable number_to_string : num -> jsstring.

(** The [tr] built for one entry at one index. *)
Definition row_of (e : entry) (index : nat) : node :=
  let rank := (index + 1)%nat in
  let '(badgeBg, badgeBorder, badgeColor) := badge_colours rank in
  let badge :=
    Element "span" "rank-badge"
      [("backgroundColor", badgeBg); ("borderColor", badgeBorder); ("color", badgeColor)]
      (text_kids (Str (lit "#" ++ rank_text rank))) in
  let tdRank := Element "td" "text-center py-2 px-2" [] [badge] in
  let spanName := Element "span" "" [] (text_kids (Str (name e))) in
  let spanDealershipSmall :=
    Element "span" "sm:hidden text-xs text-gray-500 font-normal" []
      (text_kids (dealership e)) in
  let nameDiv := Element "div" "flex flex-col" [] [spanName; spanDealershipSmall] in
  let tdName :=
    Element "td" "font-semibold text-gray-800 py-2 px-2 sm:px-4" [] [nameDiv] in
  let tdDealer :=
    Element "td" "font-medium text-gray-600 py-2 px-4 hidden sm:table-cell" []
      (text_kids (dealership e)) in
  let scoreSpan :=
    Element "span" "font-bold px-2 sm:px-3 py-1 rounded-full border-2"
      [("color", "#21A4D2"); ("backgroundColor", "#E8F4F8"); ("borderColor", "#21A4D2")]
      (text_kids (Str (number_to_string (score e) ++ lit "%"))) in
  let tdScore := Element "td" "text-center py-2 px-4" [] [scoreSpan] in
  Element "tr" (rank_class rank) [] [tdRank; tdName; tdDealer; tdScore].

(** [renderLeaderboard(data)] on the display surface: the child nodes of
    the element with id [leaderboard-body], [None] when the page has no
    such element.  The children are cleared, then one row is appended per
    entry. *)
Definition renderLeaderboard (data : list entry) (tbody : option (list node))
    : option (list node) :=
  match tbody with
  | None => None
  | Some _ =>
      let cleared := [] in
      Some (forEach (fun kids e index => kids ++ [row_of e index]) data cleared)
  end.
End Renderer.

(* ----------------------------------------------------------------- *)
(** ** Orchestration *)

Definition SHEET_CSV_URL : jsstring :=
  lit "https://docs.google.com/spreadsheets/d/e/2PACX-1vSLR7bXsB-PSdKArkvh4vrTP3QCXg9SkvXL7wYD49VFomRw0UqmQiXeRxkJJ0Ei7Fpo8rz5UgT25gCw/pub?gid=1152586903&single=true&output=csv".

(** The period of the timer that calls [refreshLeaderboard] again, in
    milliseconds. *)
Definition REFRESH_INTERVAL_MS : Z := 3600000.

(** What a refresh cycle can change: the display surface and the console,
    which collects the errors passed to [console.error]. *)
Record page : Type := Page {
  display : option (list node);
  console : list error
}.

Section Orchestration.
Variable fetch : jsstring -> response.
Variable number_to_string : num -> jsstring.

(** The [try] block: the four stages in sequence.  Only the Fetcher has a
    [throw] or an awaited promise that can reject. *)
Definition cycle (tbody : option (list node)) : error + option (list node) :=
  match snd (fetchCSV fetch SHEET_CSV_URL) with
  | inl e => inl e
  | inr csv =>
      let parsed := parseCSV csv in
      let transformed := transformData parsed in
      inr (renderLeaderboard number_to_string transformed tbody)
  end.

Definition refreshLeaderboard (p : page) : page :=
  match cycle (display p) with
  | inr tbody' => {| display := tbody'; console := console p |}
  | inl e => {| display := display p; console := console p ++ [e] |}
  end.
End Orchestration.

(** The top level: one call at load, then [setInterval] calls
    [refreshLeaderboard] again at every period.  A cycle lasts far less
    than the period, so the cycles run one after the other; [nets] gives
    the network each cycle finds, in order. *)
Definition refreshes (number_to_string : num -> jsstring)
    (nets : list (jsstring -> response)) (p : page) : page :=
  fold_left (fun p fetch => refreshLeaderboard fetch number_to_string p) nets p.

(* ================================================================= *)
(** * Part II: the vocabulary of the properties *)
(* ================================================================= *)

(* ----------------------------------------------------------------- *)
(** ** Lines and cells *)

Definition is_empty (s : jsstring) : bool :=
  match s with
  | [] => true
  | _ :: _ => false
  end.

(** [c] put in front of the first piece. *)
Definition cons_first (c : N) (ls : list jsstring) : list jsstring :=
  match ls with
  | l :: rest => (c :: l) :: rest
  | [] => [[c]]
  end.

(** The last cell without its trailing white space. *)
Fixpoint trim_last (cells : list jsstring) : list jsstring :=
  match cells with
  | [] => []
  | [c] => [trim_end c]
  | c :: rest => c :: trim_last rest
  end.

(** The lines without the white-space lines at the end. *)
Fixpoint drop_trailing_ws (ls : list jsstring) : list jsstring :=
  match ls with
  | [] => []
  | l :: rest =>
      match drop_trailing_ws rest with
      | [] => if all_ws l then [] else [l]
      | r => l :: r
      end
  end.

(** The same, the last line left also trimmed at its end: the lines of a
    text whose trailing white space was removed. *)
Fixpoint lines_trim_end (ls : list jsstring) : list jsstring :=
  match ls with
  | [] => []
  | l :: rest =>
      match lines_trim_end rest with
      | [] => if all_ws l then [] else [trim_end l]
      | r => l :: r
      end
  end.

Definition or_one_empty (ls : list jsstring) : list jsstring :=
  match ls with
  | [] => [[]]
  | _ :: _ => ls
  end.

(** The header names of a header line. *)
Definition header_names (h : jsstring) : list jsstring := map trim (split_on COMMA h).

(** The row of a data line. *)
Definition row_of_line (headers : list jsstring) (l : jsstring) : record :=
  make_row headers (split_on COMMA l).

(** The callback of the [headers.forEach] of a line with cells [cells]. *)
Definition fill (cells : list jsstring) (row : record) (header : jsstring) (idx : nat)
    : record :=
  obj_set row header (trim (cell_or_empty cells idx)).

(** A header line is well formed when it has a character that is not white
    space and no column is named [__proto__]. *)
Definition well_formed_header (h : jsstring) : Prop :=
  all_ws h = false /\ ~ In PROTO (header_names h).

(* ----------------------------------------------------------------- *)
(** ** The order of the numbers *)

(** The least exponent of the format: every finite binary64 value is a
    whole number of units of [2 ^ EMIN]. *)
Definition EMIN : Z := emin prec emax.

(** A number that is not NaN and whose exponent is in the format's range. *)
Definition num_ok (x : num) : Prop :=
  match x with
  | S754_nan => False
  | S754_finite _ _ e => EMIN <= e
  | _ => True
  end.

(** A finite value, counted in units of [2 ^ EMIN]. *)
Definition units (x : num) : Z :=
  match x with
  | S754_finite s m e => cond_Zopp s (Zpos m * 2 ^ (e - EMIN))
  | _ => 0
  end.

(** [x <= y] on the real numbers the two values denote, the infinities at
    the two ends; false as soon as one side is NaN.  On the values of the
    format this is the comparison [SFleb] of the standard. *)
Definition num_leb (x y : num) : bool :=
  match x, y with
  | S754_nan, _ | _, S754_nan => false
  | S754_infinity sx, S754_infinity sy => sx || negb sy
  | S754_infinity sx, _ => sx
  | _, S754_infinity sy => negb sy
  | _, _ => units x <=? units y
  end.

(** A value of sign [s] that is not zero. *)
Definition signed (s : bool) (x : num) : Prop :=
  match x with
  | S754_finite s' _ e => s' = s /\ EMIN <= e
  | S754_infinity s' => s' = s
  | _ => False
  end.

(** What a mantissa and an exponent are after the shift to the format's
    exponent: a canonical pair, or a zero mantissa at the least exponent. *)
Definition settled (m e : Z) : Prop :=
  0 <= m /\ (m = 0 -> e = EMIN) /\ (0 < m -> fexp prec emax (Zdigits2 m + e) = e).

(** What the shift asks of its input: the exponent is not above the one of
    the format. *)
Definition shiftable (m e : Z) : Prop :=
  0 <= m /\ e <= fexp prec emax (Zdigits2 m + e) /\ (m = 0 -> e <= EMIN).

(** [x] is in the class of [v] for the order [geb]. *)
Definition same_class {A : Type} (geb : A -> A -> bool) (v x : A) : bool :=
  geb v x && geb x v.

(** A value of the format that is not NaN. *)
Definition is_number (x : num) : Prop :=
  isNaN x = false /\ valid_binary prec emax x = true.

(** [a.score >= b.score], the comparison of the language: [a] may stand
    before [b] in the ranked list. *)
Definition score_geb (a b : entry) : bool := SFleb (score b) (score a).

(* ----------------------------------------------------------------- *)
(** ** Texts that start with a number *)

Definition is_digit (c : N) : bool := ((48 <=? c) && (c <=? 57))%N.

(** The text starts with a digit, with a point and a digit, or with
    [Infinity]. *)
Definition numeric_head (s : jsstring) : bool :=
  is_prefix (lit "Infinity") s
  || match s with
     | c :: s' =>
         is_digit c
         || (c =? 46)%N && match s' with d :: _ => is_digit d | [] => false end
     | [] => false
     end.

(** The text without one leading sign. *)
Definition strip_sign (s : jsstring) : jsstring :=
  match s with
  | c :: t => if ((c =? 45) || (c =? 43))%N then t else s
  | [] => s
  end.

(** A [StrDecimalLiteral] stands at the head of the value's text, after the
    leading white space. *)
Definition starts_with_number (v : value) : bool :=
  numeric_head (strip_sign (trim_start (to_string v))).

(** A literal that was read, with a mantissa that is not negative. *)
Inductive literal_ok : literal -> Prop :=
  | ok_infinity : literal_ok LitInfinity
  | ok_decimal (m e : Z) : 0 <= m -> literal_ok (LitDecimal m e).

(* ----------------------------------------------------------------- *)
(** ** Which header a field is read from *)

Definition FIRST_NAMES : list jsstring := [lit "First Name"; lit "First name"; lit "First"].
Definition LAST_NAMES : list jsstring := [lit "Last Name"; lit "Last name"; lit "Last"].
Definition GROUPS : list jsstring := [lit "Dealership"; lit "Dealer"; lit "Company"].
Definition SCORES : list jsstring := [lit "Total Score"; lit "Score"; lit "Total"].

(** "First present wins": the value under the first alternative that is a
    key of the record, whatever that value is. *)
Fixpoint first_present (row : record) (alts : list jsstring) : value :=
  match alts with
  | [] => Undefined
  | k :: rest =>
      match row !! k with
      | Some v => Str v
      | None => first_present row rest
      end
  end.

(** "First non-empty wins": the value under the first alternative that holds
    a non-empty string; when there is none, whatever the last alternative
    holds, [undefined] if it is not a key. *)
Fixpoint first_nonempty (row : record) (alts : list jsstring) : value :=
  match alts with
  | [] => Undefined
  | [k] => obj_get row k
  | k :: rest =>
      match row !! k with
      | Some (c :: s) => Str (c :: s)
      | _ => first_nonempty row rest
      end
  end.

(** The text a resolved field contributes: nothing when it is [undefined]. *)
Definition text_of (v : value) : jsstring :=
  match v with
  | Str s => s
  | Undefined => []
  end.

(* ----------------------------------------------------------------- *)
(** ** What a strategy delivers *)

(** The body a response delivers: the status is a success, the body was
    read, and the text has a character that is not white space. *)
Definition delivers (r : response) : option jsstring :=
  match r with
  | Response status (BodyText text) =>
      if ok status && usable text then Some text else None
  | _ => None
  end.

(** A strategy that was tried and delivered nothing. *)
Definition passed_over (fetch : jsstring -> response) (url prefix : jsstring) : Prop :=
  exists t, target_of prefix url = Some t /\ delivers (fetch t) = None.

(** The targets of a run of strategies. *)
Fixpoint targets_of (url : jsstring) (prefixes : list jsstring) : list jsstring :=
  match prefixes with
  | [] => []
  | p :: rest =>
      match target_of p url with
      | Some t => t :: targets_of url rest
      | None => []
      end
  end.

(* ----------------------------------------------------------------- *)
(** ** Example data *)

Definition row_bad_score : record := {[ lit "Total Score" := lit "n/a" ]}.

Definition row_empty_group : record :=
  {[ lit "Dealership" := lit "" ]} ∪ {[ lit "Dealer" := lit "Acme" ]}.

Definition row_last_only : record := {[ lit "Last Name" := lit "Lee" ]}.

Definition url_example : jsstring := lit "https://example.org/sheet.csv".


(** A network on which the direct request answers 500 and the first proxy
    answers 200 with a small sheet. *)
Definition fetch_second_ok (target : jsstring) : response :=
  if decide (target = url_example) then Response 500 (BodyText (lit "error"))
  else Response 200 (BodyText (lit "Score,First" ++ [LF] ++ lit "7,Ann")).

(** A network on which every request is rejected. *)
Definition fetch_offline (target : jsstring) : response := Rejected 0%N.

Definition entry_example (n : N) : entry :=
  {| name := lit "P" ++ [n]; dealership := Str (lit "Acme"); score := num_zero |}.

Definition show_nothing (x : num) : jsstring := [].

Definition page_example : page :=
  {| display := Some [row_of show_nothing (entry_example 49%N) 0]; console := [] |}.

(** The sheet of the end-to-end example. *)
Definition csv_two_rows : jsstring :=
  lit "First Name,Last Name,Dealership,Total Score" ++ [LF]
  ++ lit "Ann,Lee,Acme,88" ++ [LF] ++ lit "Bo,Ray,Acme,95".

(** A sheet of one column, one data line, and a last line of two spaces. *)
Definition csv_blank_tail : jsstring :=
  lit "a" ++ [LF] ++ lit "1" ++ [LF] ++ lit "  ".

(** The same sheet with the line of two spaces in the middle. *)
Definition csv_blank_inside : jsstring :=
  lit "a" ++ [LF] ++ lit "  " ++ [LF] ++ lit "1".

(** A sheet with a blank line, a line of spaces and a short line. *)
Definition csv_example : jsstring :=
  lit "Name, Score" ++ [CR; LF] ++ lit "Ann,7" ++ [CR; LF] ++ [CR; LF]
  ++ lit "   " ++ [LF] ++ lit "Bo" ++ [LF].
(* ----------------------------------------------------------------- *)
(** ** Further vocabulary

    The definitions below serve the properties of the last sections of the
    file, which go beyond single calls: error precedence in the Fetcher,
    the shape of the encoded targets, the Parser on whole texts, scores that
    are whole numbers, and runs of cycles. *)

(* ----------------------------------------------------------------- *)
(** ** What a strategy raises *)

(** The error the [try] block of one strategy throws for a response, when
    it throws: a rejected request, a status outside 2xx, a body that could
    not be read.  A blank body throws nothing. *)
Definition raises (r : response) : option error :=
  match r with
  | Rejected reason => Some (FetchFailure reason)
  | Response status b =>
      if ok status then
        match b with
        | BodyRejected reason => Some (BodyFailure reason)
        | BodyText _ => None
        end
      else Some (HttpError status)
  end.

(** The error the last response that threw has thrown, [start] when none
    did. *)
Definition last_raised (start : option error) (rs : list response) : option error :=
  fold_left (fun acc r => match raises r with Some e => Some e | None => acc end) rs start.

(** A network on which the direct request answers 503 and the two proxies
    answer 200 with a body of line ends only. *)
Definition fetch_blank_after_error (target : jsstring) : response :=
  if decide (target = url_example) then Response 503 (BodyText (lit "busy"))
  else Response 200 (BodyText [LF; LF]).

(** A text with a lead surrogate that no trail surrogate follows. *)
Definition url_lone_surrogate : jsstring := lit "https://example.org/?q=" ++ [55357%N].

(** A text without surrogate code units. *)
Definition no_surrogates (s : jsstring) : bool :=
  forallb (fun c => negb (is_lead c || is_trail c)) s.

(* ----------------------------------------------------------------- *)
(** ** Escaped texts *)

(** A string of the language: every code unit is below [2 ^ 16]. *)
Definition code_units (s : jsstring) : bool := forallb (fun c => (c <? 65536)%N) s.

(** An upper-case hexadecimal digit. *)
Definition is_hex (c : N) : bool :=
  ((48 <=? c) && (c <=? 57) || (65 <=? c) && (c <=? 70))%N.

(** A text made of unreserved characters and of escapes, a [%] followed by
    two hexadecimal digits, and of nothing else. *)
Fixpoint escaped (s : jsstring) : bool :=
  match s with
  | [] => true
  | c :: r =>
      if (c =? 37)%N then
        match r with
        | a :: b :: r' => is_hex a && is_hex b && escaped r'
        | _ => false
        end
      else uri_unreserved c && escaped r
  end.

(** What [encodeURIComponent] writes for one code point. *)
Definition emit (cp : N) : jsstring :=
  if uri_unreserved cp then [cp] else concat (map percent (utf8 cp)).

(** The code point at the head of a text and the text after it; nothing
    for the empty text and for a surrogate that is not paired. *)
Definition next_code_point (s : jsstring) : option (N * jsstring) :=
  match s with
  | [] => None
  | c :: s' =>
      if uri_unreserved c then Some (c, s')
      else if is_trail c then None
      else if is_lead c then
        match s' with
        | d :: s'' =>
            if is_trail d
            then Some (((c - 55296) * 1024 + (d - 56320) + 65536)%N, s'')
            else None
        | [] => None
        end
      else Some (c, s')
  end.

(* ----------------------------------------------------------------- *)
(** ** Texts and their line ends *)

(** The lines of a text as [parseCSV] splits it. *)
Definition lines_of (csv : jsstring) : list jsstring := split_lines (trim csv).

(** The header names [parseCSV] reads from a text. *)
Definition headers_of (csv : jsstring) : list jsstring :=
  header_names (hd [] (lines_of csv)).

(** The text with every line feed written as carriage return, line feed. *)
Definition crlf (s : jsstring) : jsstring :=
  flat_map (fun c => if (c =? LF)%N then [CR; LF] else [c]) s.

(** A sheet behind a byte order mark, with a line end after the last line. *)
Definition csv_padded : jsstring := [65279%N] ++ csv_two_rows ++ [CR; LF].

(* ----------------------------------------------------------------- *)
(** ** Rows in another order *)

(** No two different entries have the same score. *)
Definition no_ties (es : list entry) : Prop :=
  forall x y, In x es -> In y es -> same_class score_geb x y = true -> x = y.

Definition row_ann : record := {[ lit "First" := lit "Ann" ]} ∪ {[ lit "Score" := lit "7" ]}.
Definition row_bo : record := {[ lit "First" := lit "Bo" ]} ∪ {[ lit "Score" := lit "9" ]}.

(* ----------------------------------------------------------------- *)
(** ** Whole numbers in decimal *)

(** The number a run of decimal digits denotes, on top of [acc]. *)
Definition decimal_from (acc : Z) (digits : jsstring) : Z :=
  fold_left (fun a c => 10 * a + (Z.of_N c - 48)) digits acc.

Definition decimal_value (digits : jsstring) : Z := decimal_from 0 digits.

(** A text of decimal digits, at least one. *)
Definition is_numeral (s : jsstring) : bool := negb (is_empty s) && forallb is_digit s.

(** A character that can continue a numeral: a digit, the point, an
    exponent mark. *)
Definition continues_number (c : N) : bool :=
  is_digit c || (c =? 46)%N || (c =? 101)%N || (c =? 69)%N.

(** A text a numeral can stand before without being changed by it. *)
Definition ends_number (rest : jsstring) : bool :=
  match rest with
  | [] => true
  | c :: _ => negb (continues_number c)
  end.

Definition row_percent : record := {[ lit "Score" := lit "95%" ]}.
Definition row_plain : record := {[ lit "Score" := lit "95" ]}.
Definition row_hundred : record := {[ lit "Total" := lit "100" ]}.

(* ----------------------------------------------------------------- *)
(** ** The elements of a tree, and runs of cycles *)

(** A node without its text: the elements, with their classes and styles. *)
Fixpoint skeleton (n : node) : list node :=
  match n with
  | Text _ => []
  | Element tag class_attr style kids =>
      [Element tag class_attr style (flat_map skeleton kids)]
  end.

(** The sheet a cycle fetches on a network, when it fetches one. *)
Definition sheet_of (fetch : jsstring -> response) : option jsstring :=
  match snd (fetchCSV fetch SHEET_CSV_URL) with
  | inr csv => Some csv
  | inl _ => None
  end.

(** The sheet of the last cycle that fetched one. *)
Fixpoint last_delivered (nets : list (jsstring -> response)) : option jsstring :=
  match nets with
  | [] => None
  | fetch :: rest =>
      match last_delivered rest with
      | Some csv => Some csv
      | None => sheet_of fetch
      end
  end.

(** The number of cycles whose fetch failed. *)
Definition failures (nets : list (jsstring -> response)) : nat :=
  length (List.filter
            (fun fetch => match sheet_of fetch with Some _ => false | None => true end)
            nets).

(** A network that serves the sheet of the example to every request. *)
Definition fetch_sheet (target : jsstring) : response :=
  Response 200 (BodyText csv_two_rows).

(* ----------------------------------------------------------------- *)
(** ** Values without white space around them *)

(** A value without white space at either end; [undefined] counts. *)
Definition trimmed (v : value) : Prop :=
  match v with
  | Str s => trim s = s
  | Undefined => True
  end.

(* ----------------------------------------------------------------- *)
(** ** The texts of a tree, and whole numbers in print *)

(** The text nodes of a tree, in document order. *)
Fixpoint texts (n : node) : list jsstring :=
  match n with
  | Text s => [s]
  | Element _ _ _ kids => flat_map texts kids
  end.

(** The decimal digits of a whole number that is not negative. *)
Definition decimal (n : Z) : jsstring :=
  lit (NilZero.string_of_uint (N.to_uint (Z.to_N n))).

(** What [Number::toString] does on the positive whole numbers below
    [2 ^ 53]: it writes their decimal digits. *)
Definition prints_whole_numbers (number_to_string : num -> jsstring) : Prop :=
  forall (n : Z) (m : positive) (e : Z),
    0 < n < 2 ^ 53 -> e <= 0 -> Zpos m = n * 2 ^ (- e) ->
    number_to_string (S754_finite false m e) = decimal n.

(** A printer that writes the whole numbers and nothing else. *)
Definition show_whole (x : num) : jsstring :=
  match x with
  | S754_finite false m e => if e <=? 0 then decimal (Zpos m / 2 ^ (- e)) else []
  | _ => []
  end.

(* ----------------------------------------------------------------- *)
(** ** Tables written as plain text *)

(** The pieces with [sep] between them. *)
Fixpoint join_with (sep : N) (pieces : list jsstring) : jsstring :=
  match pieces with
  | [] => []
  | [p] => p
  | p :: rest => p ++ sep :: join_with sep rest
  end.

(** A table as text: a line per row, the header row first, the cells of a
    line separated by commas, the lines by line feeds. *)
Definition write_csv (headers : list jsstring) (rows : list (list jsstring)) : jsstring :=
  join_with LF (map (join_with COMMA) (headers :: rows)).

(** A cell that needs no quoting: no white space at either end, no comma
    and no line feed. *)
Definition plain (cell : jsstring) : Prop :=
  trim cell = cell /\ ~ In COMMA cell /\ ~ In LF cell.

(** A row of a table with the given headers: a plain cell for each header,
    and a line that is not empty. *)
Definition table_row (headers cells : list jsstring) : Prop :=
  length cells = length headers /\ Forall plain cells /\ join_with COMMA cells <> [].

(** The record that holds each cell under its header. *)
Definition record_of (headers cells : list jsstring) : record :=
  list_to_map (zip headers cells).


(* ================================================================= *)
(** * Part III: proofs *)
(* ================================================================= *)

(* ----------------------------------------------------------------- *)
(** ** The built-ins on examples *)

Example trim_example :
  trim ([160; 9]%N ++ lit " a b " ++ [65279; 10]%N) = lit "a b".
Proof. reflexivity. Qed.

Example split_on_example :
  split_on COMMA (lit "a,,b,") = [lit "a"; lit ""; lit "b"; lit ""].
Proof. reflexivity. Qed.

Example split_on_empty : split_on COMMA (lit "") = [lit ""].
Proof. reflexivity. Qed.

Example split_lines_example :
  split_lines (lit "a" ++ [CR; LF] ++ lit "b" ++ [LF; CR] ++ lit "c" ++ [CR; CR; LF])
  = [lit "a"; lit "b"; [CR] ++ lit "c" ++ [CR]; lit ""].
Proof. reflexivity. Qed.

Example encodeURIComponent_example :
  encodeURIComponent (lit "a b&c=" ++ [233; 55357; 56832]%N)
  = Some (lit "a%20b%26c%3D%C3%A9%F0%9F%98%80").
Proof. reflexivity. Qed.

Example encodeURIComponent_lone_surrogate :
  encodeURIComponent (lit "a" ++ [55357]%N) = None.
Proof. reflexivity. Qed.

(* ----------------------------------------------------------------- *)
(** ** White space and trimming *)

Lemma not_ws_not_LF c : is_ws c = false -> (c =? LF)%N = false.
Proof. intros H. destruct (N.eqb_spec c LF) as [-> |]; [discriminate | reflexivity]. Qed.

Lemma not_ws_not_CR c : is_ws c = false -> (c =? CR)%N = false.
Proof. intros H. destruct (N.eqb_spec c CR) as [-> |]; [discriminate | reflexivity]. Qed.

Lemma ws_not_COMMA c : is_ws c = true -> (c =? COMMA)%N = false.
Proof. intros H. destruct (N.eqb_spec c COMMA) as [-> |]; [discriminate | reflexivity]. Qed.

Lemma trim_end_nil_iff s : trim_end s = [] <-> all_ws s = true.
Proof.
  induction s as [| c s IH]; simpl; [tauto |].
  destruct (trim_end s) as [| d r].
  - destruct (is_ws c); simpl; [| split; discriminate].
    split; [intros _; now apply IH | reflexivity].
  - split; [discriminate |].
    intros H. apply andb_true_iff in H as [_ H]. apply IH in H. discriminate.
Qed.

Lemma trim_end_all_ws s : all_ws s = true -> trim_end s = [].
Proof. apply trim_end_nil_iff. Qed.

Lemma trim_end_cons c s :
  trim_end (c :: s) = if all_ws (c :: s) then [] else c :: trim_end s.
Proof.
  simpl. destruct (trim_end s) as [| d r] eqn:E.
  - apply trim_end_nil_iff in E. rewrite E, andb_true_r. now destruct (is_ws c).
  - assert (all_ws s = false) as ->.
    { destruct (all_ws s) eqn:E'; [| reflexivity].
      apply trim_end_nil_iff in E'. congruence. }
    now rewrite andb_false_r.
Qed.

Lemma trim_start_all_ws s : all_ws s = true -> trim_start s = [].
Proof.
  induction s as [| c s IH]; simpl; [reflexivity |].
  intros H. apply andb_true_iff in H as [-> H]. now apply IH.
Qed.

Lemma all_ws_trim_start s : all_ws (trim_start s) = all_ws s.
Proof.
  induction s as [| c s IH]; simpl; [reflexivity |].
  destruct (is_ws c) eqn:E; simpl; [exact IH | now rewrite E].
Qed.

Lemma trim_all_ws s : all_ws s = true -> trim s = [].
Proof. intros H. unfold trim. now rewrite trim_start_all_ws. Qed.

Lemma trim_start_head c s : is_ws c = false -> trim_start (c :: s) = c :: s.
Proof. intros H. simpl. now rewrite H. Qed.

Lemma trim_end_head c s : is_ws c = false -> trim_end (c :: s) = c :: trim_end s.
Proof. intros H. rewrite trim_end_cons. simpl. now rewrite H. Qed.

Lemma trim_end_idem s : trim_end (trim_end s) = trim_end s.
Proof.
  induction s as [| c s IH]; [reflexivity |].
  rewrite trim_end_cons. destruct (all_ws (c :: s)) eqn:E; [reflexivity |].
  rewrite trim_end_cons, IH.
  assert (all_ws (c :: trim_end s) = false) as ->; [| reflexivity].
  simpl in *. destruct (is_ws c); [| reflexivity]. simpl in *.
  destruct (all_ws (trim_end s)) eqn:E'; [| reflexivity].
  apply trim_end_nil_iff in E'. rewrite IH in E'. apply trim_end_nil_iff in E'. congruence.
Qed.

Lemma trim_start_idem s : trim_start (trim_start s) = trim_start s.
Proof.
  induction s as [| c s IH]; simpl; [reflexivity |].
  destruct (is_ws c) eqn:E; [exact IH |]. simpl. now rewrite E.
Qed.

Lemma trim_start_trim_end s : trim_start (trim_end s) = trim_end (trim_start s).
Proof.
  induction s as [| c s IH]; [reflexivity |].
  destruct (is_ws c) eqn:E.
  - cbn [trim_start]. rewrite E, <- IH, trim_end_cons.
    destruct (all_ws (c :: s)) eqn:Ea.
    + simpl in Ea. rewrite E in Ea. simpl in Ea.
      now rewrite (trim_end_all_ws s Ea).
    + simpl. now rewrite E.
  - rewrite (trim_start_head c s E), (trim_end_head c s E). now apply trim_start_head.
Qed.

Lemma trim_trim_end s : trim (trim_end s) = trim s.
Proof. unfold trim. now rewrite trim_start_trim_end, trim_end_idem. Qed.

Lemma trim_trim_start s : trim (trim_start s) = trim s.
Proof. unfold trim. now rewrite trim_start_idem. Qed.

Lemma trim_idem s : trim (trim s) = trim s.
Proof. unfold trim at 2. now rewrite trim_trim_end, trim_trim_start. Qed.

Lemma trim_ws_cons c s : is_ws c = true -> trim (c :: s) = trim s.
Proof. intros H. unfold trim. simpl. now rewrite H. Qed.

(* ----------------------------------------------------------------- *)
(** ** Splitting into lines *)
Lemma split_on_cons sep c s :
  split_on sep (c :: s)
  = if (c =? sep)%N then [] :: split_on sep s else cons_first c (split_on sep s).
Proof. reflexivity. Qed.

Lemma split_lines_cons c s :
  split_lines (c :: s)
  = if (c =? LF)%N then [] :: split_lines s
    else if (c =? CR)%N && starts_with_LF s then split_lines s
    else cons_first c (split_lines s).
Proof. reflexivity. Qed.

Lemma cons_first_not_nil c ls : cons_first c ls <> [].
Proof. destruct ls; discriminate. Qed.

Lemma split_on_not_nil sep s : split_on sep s <> [].
Proof.
  destruct s as [| c s]; [discriminate |].
  rewrite split_on_cons. destruct (c =? sep)%N; [discriminate | apply cons_first_not_nil].
Qed.

Lemma split_lines_not_nil s : split_lines s <> [].
Proof.
  induction s as [| c s IH]; [discriminate |].
  rewrite split_lines_cons. destruct (c =? LF)%N; [discriminate |].
  destruct ((c =? CR)%N && starts_with_LF s); [exact IH | apply cons_first_not_nil].
Qed.

(** Only the empty string splits to one empty cell. *)
Lemma split_on_empty_cell sep s : split_on sep s = [[]] <-> s = [].
Proof.
  split; [| intros ->; reflexivity].
  destruct s as [| c s]; [reflexivity |].
  rewrite split_on_cons. destruct (c =? sep)%N.
  - intros H. inversion H as [H']. now apply split_on_not_nil in H'.
  - destruct (split_on sep s); discriminate.
Qed.

Lemma forallb_cons_first c ls :
  ls <> [] -> forallb all_ws (cons_first c ls) = is_ws c && forallb all_ws ls.
Proof.
  destruct ls as [| l rest]; [congruence |]. intros _. simpl. now rewrite andb_assoc.
Qed.

(** A string is white space exactly when all its lines are. *)
Lemma all_ws_split_lines s : forallb all_ws (split_lines s) = all_ws s.
Proof.
  induction s as [| c s IH]; [reflexivity |].
  rewrite split_lines_cons. cbn [all_ws forallb].
  destruct (N.eqb_spec c LF) as [-> | Hlf]; [exact IH |].
  destruct (N.eqb_spec c CR) as [-> | Hcr]; cbn [andb].
  - destruct (starts_with_LF s); [exact IH |].
    rewrite forallb_cons_first by apply split_lines_not_nil. now rewrite IH.
  - rewrite forallb_cons_first by apply split_lines_not_nil. now rewrite IH.
Qed.

Lemma lines_trim_end_nil_iff ls : lines_trim_end ls = [] <-> forallb all_ws ls = true.
Proof.
  induction ls as [| l rest IH]; simpl; [tauto |].
  destruct (lines_trim_end rest) as [| x r].
  - destruct (all_ws l); simpl; [| split; discriminate].
    split; [intros _; now apply IH | reflexivity].
  - split; [discriminate |].
    intros H. apply andb_true_iff in H as [_ H]. apply IH in H. discriminate.
Qed.

Lemma lines_trim_end_cons l rest :
  lines_trim_end (l :: rest)
  = if forallb all_ws rest
    then (if all_ws l then [] else [trim_end l])
    else l :: lines_trim_end rest.
Proof.
  simpl. destruct (lines_trim_end rest) as [| x r] eqn:E.
  - apply lines_trim_end_nil_iff in E. now rewrite E.
  - destruct (forallb all_ws rest) eqn:E'; [| reflexivity].
    apply lines_trim_end_nil_iff in E'. congruence.
Qed.

Lemma starts_with_LF_trim_end s :
  all_ws s = false -> starts_with_LF (trim_end s) = starts_with_LF s.
Proof.
  destruct s as [| c s]; [reflexivity |]. intros H.
  rewrite trim_end_cons, H. reflexivity.
Qed.


Lemma lines_trim_end_cons_first c ls :
  ls <> [] ->
  is_ws c && forallb all_ws ls = false ->
  or_one_empty (lines_trim_end (cons_first c ls))
  = cons_first c (or_one_empty (lines_trim_end ls)).
Proof.
  destruct ls as [| l rest]; [congruence |]. intros _ H.
  cbn [cons_first forallb] in *. rewrite !lines_trim_end_cons.
  destruct (forallb all_ws rest) eqn:Er.
  - rewrite andb_true_r in H. rewrite trim_end_cons.
    change (all_ws (c :: l)) with (is_ws c && all_ws l). rewrite H.
    destruct (all_ws l) eqn:El; [| reflexivity].
    cbn. now rewrite (trim_end_all_ws l El).
  - reflexivity.
Qed.

Lemma split_lines_trim_end s :
  split_lines (trim_end s) = or_one_empty (lines_trim_end (split_lines s)).
Proof.
  induction s as [| c s IH]; [reflexivity |].
  rewrite trim_end_cons.
  destruct (all_ws (c :: s)) eqn:Ea.
  - rewrite <- all_ws_split_lines in Ea. apply lines_trim_end_nil_iff in Ea.
    now rewrite Ea.
  - rewrite !split_lines_cons.
    cbn [all_ws forallb] in Ea.
    destruct (N.eqb_spec c LF) as [-> | Hlf].
    + cbn in Ea. rewrite IH, lines_trim_end_cons, all_ws_split_lines. unfold all_ws. rewrite Ea.
      destruct (lines_trim_end (split_lines s)) eqn:E; [| reflexivity].
      apply lines_trim_end_nil_iff in E. rewrite all_ws_split_lines in E. unfold all_ws in E. congruence.
    + destruct (N.eqb_spec c CR) as [-> | Hcr]; cbn [andb].
      * cbn in Ea. rewrite (starts_with_LF_trim_end s Ea).
        destruct (starts_with_LF s); [exact IH |].
        rewrite IH. symmetry. apply lines_trim_end_cons_first; [apply split_lines_not_nil |].
        now rewrite all_ws_split_lines.
      * rewrite IH. symmetry. apply lines_trim_end_cons_first; [apply split_lines_not_nil |].
        now rewrite all_ws_split_lines.
Qed.

(** The lines of a string without its leading white space, when the first
    line has a character that is not white space. *)
Lemma split_lines_trim_start s :
  forall h ls,
    split_lines s = h :: ls -> all_ws h = false ->
    split_lines (trim_start s) = trim_start h :: ls.
Proof.
  induction s as [| c s IH]; intros h ls Hs Hh.
  - inversion Hs; subst. discriminate.
  - destruct (is_ws c) eqn:Ec.
    + cbn [trim_start]. rewrite Ec.
      rewrite split_lines_cons in Hs.
      destruct (N.eqb_spec c LF) as [-> | Hlf]; [inversion Hs; subst; discriminate |].
      assert (Hgo : cons_first c (split_lines s) = h :: ls ->
                    split_lines (trim_start s) = trim_start h :: ls).
      { destruct (split_lines s) as [| l rest] eqn:E; cbn [cons_first]; intros H; inversion H; subst.
        - cbn in Hh. rewrite Ec in Hh. discriminate.
        - cbn [trim_start]. rewrite Ec. apply IH; [reflexivity |].
          cbn in Hh. now rewrite Ec in Hh. }
      destruct (N.eqb_spec c CR) as [-> | Hcr]; cbn [andb] in Hs; [| now apply Hgo].
      destruct (starts_with_LF s) eqn:El; [| now apply Hgo].
      destruct s as [| d s']; [discriminate |]. cbn in El.
      apply N.eqb_eq in El. subst d. rewrite split_lines_cons in Hs. cbn in Hs.
      inversion Hs; subst. discriminate.
    + rewrite (trim_start_head c s Ec).
      rewrite split_lines_cons in Hs. rewrite (not_ws_not_LF c Ec), (not_ws_not_CR c Ec) in Hs.
      cbn [andb] in Hs. rewrite split_lines_cons, (not_ws_not_LF c Ec), (not_ws_not_CR c Ec).
      cbn [andb]. rewrite Hs.
      destruct (split_lines s); cbn [cons_first] in Hs; inversion Hs; subst;
        now rewrite (trim_start_head c _ Ec).
Qed.

(* ----------------------------------------------------------------- *)
(** ** Splitting into cells *)
Lemma split_on_single sep s l : split_on sep s = [l] -> l = s.
Proof.
  revert l. induction s as [| c s IH]; intros l H.
  - now inversion H.
  - rewrite split_on_cons in H. destruct (c =? sep)%N.
    + inversion H as [[H1 H2]]. now apply split_on_not_nil in H2.
    + destruct (split_on sep s) as [| x [| y r]] eqn:E; cbn [cons_first] in H;
        inversion H; subst.
      * exfalso. now apply (split_on_not_nil sep s).
      * f_equal. now apply IH.
Qed.

Lemma split_on_all_ws s : all_ws s = true -> split_on COMMA s = [s].
Proof.
  induction s as [| c s IH]; [reflexivity |].
  intros H. apply andb_true_iff in H as [Hc Hs].
  rewrite split_on_cons, (ws_not_COMMA c Hc), (IH Hs). reflexivity.
Qed.

Lemma trim_last_cons c rest :
  rest <> [] -> trim_last (c :: rest) = c :: trim_last rest.
Proof. destruct rest; [congruence | reflexivity]. Qed.

Lemma split_on_trim_end s :
  split_on COMMA (trim_end s) = trim_last (split_on COMMA s).
Proof.
  induction s as [| c s IH]; [reflexivity |].
  rewrite trim_end_cons.
  destruct (all_ws (c :: s)) eqn:Ea.
  - rewrite (split_on_all_ws _ Ea). cbn [trim_last].
    now rewrite (trim_end_all_ws _ Ea).
  - rewrite !split_on_cons. destruct (N.eqb_spec c COMMA) as [-> | Hc].
    + rewrite IH. symmetry. apply trim_last_cons, split_on_not_nil.
    + rewrite IH.
      destruct (split_on COMMA s) as [| l [| l' rest]] eqn:E; cbn [cons_first trim_last].
      * now apply split_on_not_nil in E.
      * apply split_on_single in E. subst l. now rewrite trim_end_cons, Ea.
      * reflexivity.
Qed.

Lemma map_trim_cons_first c ls :
  ls <> [] -> is_ws c = true -> map trim (cons_first c ls) = map trim ls.
Proof.
  destruct ls as [| l rest]; [congruence |]. intros _ Hc.
  cbn [cons_first map]. now rewrite (trim_ws_cons c l Hc).
Qed.

Lemma map_trim_split_trim_start s :
  map trim (split_on COMMA (trim_start s)) = map trim (split_on COMMA s).
Proof.
  induction s as [| c s IH]; [reflexivity |].
  cbn [trim_start]. destruct (is_ws c) eqn:Ec; [| reflexivity].
  rewrite split_on_cons, (ws_not_COMMA c Ec), IH.
  symmetry. apply map_trim_cons_first; [apply split_on_not_nil | exact Ec].
Qed.

Lemma map_trim_trim_last cells : map trim (trim_last cells) = map trim cells.
Proof.
  induction cells as [| c [| d rest] IH]; [reflexivity | |].
  - cbn. now rewrite trim_trim_end.
  - rewrite trim_last_cons by discriminate. cbn [map]. now rewrite IH.
Qed.

Lemma map_trim_split_trim_end s :
  map trim (split_on COMMA (trim_end s)) = map trim (split_on COMMA s).
Proof. now rewrite split_on_trim_end, map_trim_trim_last. Qed.

Lemma cell_or_empty_default cells idx :
  cell_or_empty cells idx = default [] (cells !! idx).
Proof. unfold cell_or_empty. now destruct (cells !! idx) as [[| c s] |]. Qed.

(** A row depends on the cells only through their trimmed values. *)
Lemma trim_cell_or_empty cells idx :
  trim (cell_or_empty cells idx) = default [] (map trim cells !! idx).
Proof.
  rewrite cell_or_empty_default, list_lookup_fmap.
  now destruct (cells !! idx).
Qed.

Lemma forEach_from_ext {A S : Type} (f g : S -> A -> nat -> S) (l : list A) :
  (forall st x idx, f st x idx = g st x idx) ->
  forall idx st, forEach_from f idx l st = forEach_from g idx l st.
Proof.
  intros H. induction l as [| x l IH]; intros idx st; simpl; [reflexivity |].
  now rewrite H, IH.
Qed.

Lemma make_row_trimmed headers cells cells' :
  map trim cells = map trim cells' -> make_row headers cells = make_row headers cells'.
Proof.
  intros H. unfold make_row, forEach. apply forEach_from_ext.
  intros st x idx. now rewrite !trim_cell_or_empty, H.
Qed.

Lemma make_row_trim_end headers l :
  make_row headers (split_on COMMA (trim_end l)) = make_row headers (split_on COMMA l).
Proof. apply make_row_trimmed, map_trim_split_trim_end. Qed.

(* ----------------------------------------------------------------- *)
(** ** The loop over the data lines *)

Lemma parse_lines_fold headers (ls : list jsstring) :
  forall acc,
    fold_left (parse_line headers) ls acc
    = acc ++ map (row_of_line headers) (List.filter (fun l => negb (is_empty l)) ls).
Proof.
  induction ls as [| l ls IH]; intros acc; cbn [fold_left List.filter map].
  - now rewrite app_nil_r.
  - rewrite IH. unfold parse_line.
    destruct l as [| c s].
    + reflexivity.
    + cbn [is_empty negb map].
      destruct (split_on COMMA (c :: s)) as [| [| d x] [| y r]] eqn:E;
        try (rewrite <- app_assoc; unfold row_of_line; now rewrite E).
      apply split_on_empty_cell in E. discriminate.
Qed.

Lemma drop_trailing_ws_cons l rest :
  drop_trailing_ws (l :: rest)
  = if forallb all_ws rest
    then (if all_ws l then [] else [l])
    else l :: drop_trailing_ws rest.
Proof.
  assert (Hnil : forall ls, drop_trailing_ws ls = [] <-> forallb all_ws ls = true).
  { induction ls as [| x ls IH]; simpl; [tauto |].
    destruct (drop_trailing_ws ls) as [| y r].
    - destruct (all_ws x); simpl; [| split; discriminate].
      split; [intros _; now apply IH | reflexivity].
    - split; [discriminate |].
      intros H. apply andb_true_iff in H as [_ H]. apply IH in H. discriminate. }
  simpl. destruct (drop_trailing_ws rest) as [| x r] eqn:E.
  - apply Hnil in E. now rewrite E.
  - destruct (forallb all_ws rest) eqn:E'; [| reflexivity].
    apply Hnil in E'. congruence.
Qed.

Lemma rows_of_trimmed_lines headers ls :
  map (row_of_line headers) (List.filter (fun l => negb (is_empty l)) (lines_trim_end ls))
  = map (row_of_line headers) (List.filter (fun l => negb (is_empty l)) (drop_trailing_ws ls)).
Proof.
  induction ls as [| l rest IH]; [reflexivity |].
  rewrite lines_trim_end_cons, drop_trailing_ws_cons.
  destruct (forallb all_ws rest).
  - destruct (all_ws l) eqn:El; [reflexivity |].
    assert (Ht : trim_end l <> []).
    { intros H. apply trim_end_nil_iff in H. congruence. }
    destruct l as [| c s]; [discriminate |].
    destruct (trim_end (c :: s)) as [| d t] eqn:E; [congruence |].
    cbn. rewrite <- E. unfold row_of_line. now rewrite make_row_trim_end.
  - cbn [List.filter]. destruct (negb (is_empty l)); cbn [map]; now rewrite IH.
Qed.


(** What [parseCSV] returns, in terms of the lines of the raw text: when the
    first line has a character that is not white space, one row per line
    that is not empty, the white-space lines that end the text left out. *)
Lemma parseCSV_lines (csv h : jsstring) (ls : list jsstring) :
  split_lines csv = h :: ls ->
  all_ws h = false ->
  parseCSV csv
  = map (row_of_line (header_names h))
        (List.filter (fun l => negb (is_empty l)) (drop_trailing_ws ls)).
Proof.
  intros Hs Hh. unfold parseCSV, trim.
  rewrite split_lines_trim_end, (split_lines_trim_start csv h ls Hs Hh).
  rewrite lines_trim_end_cons, all_ws_trim_start, Hh.
  assert (Hrows : forall first,
    map trim (split_on COMMA first) = header_names h ->
    (let headers := map trim (split_on COMMA first) in
     fold_left (parse_line headers) (lines_trim_end ls) [])
    = map (row_of_line (header_names h))
          (List.filter (fun l => negb (is_empty l)) (drop_trailing_ws ls))).
  { intros first Hf. cbn zeta. rewrite Hf, parse_lines_fold. cbn [app].
    apply rows_of_trimmed_lines. }
  destruct (forallb all_ws ls) eqn:El.
  - cbn [or_one_empty].
    assert (lines_trim_end ls = []) as Hnil by now apply lines_trim_end_nil_iff.
    rewrite <- (Hrows (trim_end (trim_start h))).
    + now rewrite Hnil.
    + unfold header_names. now rewrite map_trim_split_trim_end, map_trim_split_trim_start.
  - cbn [or_one_empty]. apply Hrows.
    unfold header_names. apply map_trim_split_trim_start.
Qed.

(* ----------------------------------------------------------------- *)
(** ** What a row holds *)
Lemma obj_set_lookup_ne (row : record) (k v k' : jsstring) :
  k' <> k -> obj_set row k v !! k' = row !! k'.
Proof.
  intros H. unfold obj_set. destruct (decide (k = PROTO)); [reflexivity |].
  apply lookup_insert_ne. congruence.
Qed.

Lemma obj_set_lookup_eq (row : record) (k v : jsstring) :
  k <> PROTO -> obj_set row k v !! k = Some v.
Proof.
  intros H. unfold obj_set. destruct (decide (k = PROTO)); [contradiction |].
  apply lookup_insert_eq.
Qed.

Section RowFacts.
Variable cells : list jsstring.


Lemma fill_other (headers : list jsstring) (k : jsstring) :
  ~ In k headers ->
  forall idx st, forEach_from (fill cells) idx headers st !! k = st !! k.
Proof.
  induction headers as [| x headers IH]; intros Hk idx st; cbn [forEach_from]; [reflexivity |].
  rewrite IH by (intros H; apply Hk; now right).
  apply obj_set_lookup_ne. intros ->. apply Hk. now left.
Qed.

Lemma fill_last (before after : list jsstring) (k : jsstring) :
  k <> PROTO -> ~ In k after ->
  forall idx st,
    forEach_from (fill cells) idx (before ++ k :: after) st !! k
    = Some (trim (cell_or_empty cells (idx + length before))).
Proof.
  intros Hp Hk. induction before as [| x before IH]; intros idx st.
  - cbn [app forEach_from length]. rewrite fill_other by assumption.
    rewrite Nat.add_0_r. now apply obj_set_lookup_eq.
  - cbn [app forEach_from length]. rewrite IH. do 3 f_equal. lia.
Qed.
End RowFacts.

Lemma make_row_lookup (before after cells : list jsstring) (k : jsstring) :
  k <> PROTO -> ~ In k after ->
  make_row (before ++ k :: after) cells !! k
  = Some (trim (cell_or_empty cells (length before))).
Proof.
  intros Hp Hk. unfold make_row, forEach.
  now rewrite (fill_last cells before after k Hp Hk 0%nat ∅).
Qed.

(** The last place a name stands at. *)
Lemma in_split_last (k : jsstring) (l : list jsstring) :
  In k l -> exists before after, l = before ++ k :: after /\ ~ In k after.
Proof.
  induction l as [| x l IH]; [intros [] |].
  intros Hin. destruct (decide (k ∈ l)) as [Hl | Hl]; rewrite list_elem_of_In in Hl.
  - destruct (IH Hl) as (before & after & -> & Ha).
    now exists (x :: before), after.
  - destruct Hin as [-> | Hin]; [| contradiction].
    now exists [], l.
Qed.

Lemma lookup_before_last (k : jsstring) (before after : list jsstring) (idx : nat) :
  (before ++ k :: after) !! idx = Some k -> ~ In k after -> (idx <= length before)%nat.
Proof.
  intros Hl Ha. destruct (Nat.le_gt_cases idx (length before)) as [H | H]; [exact H |].
  exfalso. apply Ha.
  rewrite lookup_app_r in Hl by lia.
  destruct (idx - length before)%nat as [| j] eqn:E; [lia |].
  cbn in Hl. apply list_elem_of_In. eapply list_elem_of_lookup_2. exact Hl.
Qed.

Lemma cell_or_empty_beyond cells idx :
  (length cells <= idx)%nat -> cell_or_empty cells idx = [].
Proof.
  intros H. rewrite cell_or_empty_default.
  now rewrite (lookup_ge_None_2 cells idx H).
Qed.

(** What a row holds under each header name. *)
Lemma make_row_spec (headers cells : list jsstring) :
  let r := make_row headers cells in
  (forall k, In k headers -> k <> PROTO -> exists v, r !! k = Some v /\ trim v = v)
  /\ (forall idx k, headers !! idx = Some k -> k <> PROTO ->
        (length cells <= idx)%nat -> r !! k = Some [])
  /\ (forall idx k c, headers !! idx = Some k -> k <> PROTO ->
        ~ In k (drop (Datatypes.S idx) headers) ->
        cells !! idx = Some c -> r !! k = Some (trim c)).
Proof.
  cbn zeta. split; [| split].
  - intros k Hin Hp. destruct (in_split_last k headers Hin) as (before & after & -> & Ha).
    rewrite make_row_lookup by assumption.
    eexists. split; [reflexivity | apply trim_idem].
  - intros idx k Hl Hp Hlen.
    assert (Hin : In k headers).
    { apply list_elem_of_In. eapply list_elem_of_lookup_2. exact Hl. }
    destruct (in_split_last k headers Hin) as (before & after & -> & Ha).
    rewrite make_row_lookup by assumption.
    pose proof (lookup_before_last k before after idx Hl Ha).
    rewrite cell_or_empty_beyond by lia. reflexivity.
  - intros idx k c Hl Hp Hlast Hc.
    rewrite <- (take_drop_middle headers idx k Hl).
    rewrite make_row_lookup by assumption.
    rewrite length_take_le by (apply lookup_lt_Some in Hl; lia).
    rewrite cell_or_empty_default, Hc. reflexivity.
Qed.

Lemma make_row_all_ws (headers : list jsstring) (l k : jsstring) :
  all_ws l = true -> In k headers -> k <> PROTO ->
  row_of_line headers l !! k = Some [].
Proof.
  intros Hl Hin Hp. unfold row_of_line. rewrite (split_on_all_ws l Hl).
  destruct (in_split_last k headers Hin) as (before & after & -> & Ha).
  rewrite make_row_lookup by assumption. f_equal.
  destruct (length before) as [| n].
  - rewrite cell_or_empty_default. change (default [] ([l] !! 0%nat)) with l.
    now apply trim_all_ws.
  - rewrite cell_or_empty_beyond by (cbn; lia). reflexivity.
Qed.

Lemma drop_trailing_ws_all_ws tail :
  forallb all_ws tail = true -> drop_trailing_ws tail = [].
Proof.
  induction tail as [| l tail IH]; [reflexivity |].
  intros H. cbn [forallb] in H. apply andb_true_iff in H as [Hl Ht].
  rewrite drop_trailing_ws_cons, Ht, Hl. reflexivity.
Qed.

(** Every list of lines is a body that is empty or ends with a line that
    has something other than white space, followed by white-space lines. *)
Lemma lines_body_tail (ls : list jsstring) :
  exists body tail,
    ls = body ++ tail
    /\ match last body with Some l => all_ws l = false | None => True end
    /\ forallb all_ws tail = true.
Proof.
  induction ls as [| l ls IH].
  - exists [], []. repeat split.
  - destruct IH as (body & tail & -> & Hlast & Htail).
    destruct body as [| b body'].
    + destruct (all_ws l) eqn:El.
      * exists [], (l :: tail). cbn [app last forallb]. rewrite El, Htail. repeat split.
      * exists [l], tail. cbn [app last]. repeat split; assumption.
    + exists (l :: b :: body'), tail. repeat split; assumption.
Qed.

(** The white-space lines after the last line that has something else are
    the ones left out. *)
Lemma drop_trailing_ws_app (body tail : list jsstring) :
  match last body with Some l => all_ws l = false | None => True end ->
  forallb all_ws tail = true ->
  drop_trailing_ws (body ++ tail) = body.
Proof.
  intros Hlast Htail. induction body as [| l body IH].
  - now apply drop_trailing_ws_all_ws.
  - cbn [app]. rewrite drop_trailing_ws_cons.
    destruct body as [| l' body'].
    + cbn in Hlast. cbn [app]. now rewrite Htail, Hlast.
    + assert (Hl : match last (l' :: body') with Some x => all_ws x = false | None => True end).
      { exact Hlast. }
      rewrite (IH Hl).
      assert (forallb all_ws ((l' :: body') ++ tail) = false) as ->; [| reflexivity].
      destruct (forallb all_ws ((l' :: body') ++ tail)) eqn:E; [| reflexivity].
      apply drop_trailing_ws_all_ws in E. rewrite (IH Hl) in E. discriminate.
Qed.


(* ----------------------------------------------------------------- *)
(** ** Rounding to binary64 keeps the sign *)

Lemma digits2_pos_lower (p : positive) : 2 ^ (Zpos (digits2_pos p) - 1) <= Zpos p.
Proof.
  induction p as [p IH | p IH |]; cbn [digits2_pos].
  - rewrite Pos2Z.inj_succ. replace (Z.succ (Z.pos (digits2_pos p)) - 1) with (Z.succ (Z.pos (digits2_pos p) - 1)) by lia.
    rewrite Z.pow_succ_r by lia. lia.
  - rewrite Pos2Z.inj_succ. replace (Z.succ (Z.pos (digits2_pos p)) - 1) with (Z.succ (Z.pos (digits2_pos p) - 1)) by lia.
    rewrite Z.pow_succ_r by lia. lia.
  - simpl. lia.
Qed.

Lemma digits2_pos_upper (p : positive) : Zpos p < 2 ^ Zpos (digits2_pos p).
Proof.
  induction p as [p IH | p IH |]; cbn [digits2_pos].
  - rewrite Pos2Z.inj_succ, Z.pow_succ_r by lia. lia.
  - rewrite Pos2Z.inj_succ, Z.pow_succ_r by lia. lia.
  - simpl. lia.
Qed.

Lemma shr_m_shr_1 (mrs : shr_record) :
  0 <= shr_m mrs -> shr_m (shr_1 mrs) = Z.div2 (shr_m mrs).
Proof.
  destruct mrs as [m r s]. simpl. intros Hm.
  destruct m as [| [p | p |] | p]; try reflexivity; lia.
Qed.

Lemma shr_m_iter (p : positive) :
  forall mrs, 0 <= shr_m mrs ->
    shr_m (SpecFloat.iter_pos shr_1 p mrs) = Z.shiftr (shr_m mrs) (Zpos p).
Proof.
  induction p as [p IH | p IH |]; intros mrs Hm; cbn [SpecFloat.iter_pos].
  - assert (H1 : 0 <= shr_m (shr_1 mrs)).
    { rewrite shr_m_shr_1 by assumption. rewrite Z.div2_spec. now apply Z.shiftr_nonneg. }
    assert (H2 : 0 <= shr_m (SpecFloat.iter_pos shr_1 p (shr_1 mrs))).
    { rewrite IH by assumption. now apply Z.shiftr_nonneg. }
    rewrite IH, IH, shr_m_shr_1 by assumption.
    rewrite Z.div2_spec, !Z.shiftr_shiftr by lia. f_equal. lia.
  - assert (H2 : 0 <= shr_m (SpecFloat.iter_pos shr_1 p mrs)).
    { rewrite IH by assumption. now apply Z.shiftr_nonneg. }
    rewrite IH, IH by assumption.
    rewrite !Z.shiftr_shiftr by lia. f_equal. lia.
  - rewrite shr_m_shr_1 by assumption. now rewrite Z.div2_spec.
Qed.

Lemma fexp_ge_emin (e : Z) : EMIN <= fexp prec emax e.
Proof. unfold fexp, EMIN. lia. Qed.

Lemma shr_record_of_loc_m m l : shr_m (shr_record_of_loc m l) = m.
Proof. destruct l as [| []]; reflexivity. Qed.

(** A right shift to the format's exponent keeps a non-negative mantissa
    non-negative and never leaves an exponent under the least one. *)
Lemma shr_fexp_nonneg (m e : Z) (l : location) :
  0 <= m ->
  0 <= shr_m (fst (shr_fexp prec emax m e l)) /\ EMIN <= snd (shr_fexp prec emax m e l).
Proof.
  intros Hm. unfold shr_fexp, shr.
  pose proof (fexp_ge_emin (Zdigits2 m + e)) as Hf.
  destruct (fexp prec emax (Zdigits2 m + e) - e) as [| p | p] eqn:En; cbn [fst snd].
  - rewrite shr_record_of_loc_m. lia.
  - rewrite shr_m_iter by (rewrite shr_record_of_loc_m; lia).
    split; [apply Z.shiftr_nonneg; rewrite shr_record_of_loc_m; lia | lia].
  - rewrite shr_record_of_loc_m. lia.
Qed.

(** When the exponent is not under the least one, a positive mantissa stays
    positive: nothing underflows to zero. *)
Lemma shr_fexp_pos (m e : Z) (l : location) :
  0 < m -> EMIN <= e ->
  0 < shr_m (fst (shr_fexp prec emax m e l)).
Proof.
  intros Hm He. unfold shr_fexp, shr.
  destruct (fexp prec emax (Zdigits2 m + e) - e) as [| p | p] eqn:En; cbn [fst snd];
    try (rewrite shr_record_of_loc_m; lia).
  rewrite shr_m_iter by (rewrite shr_record_of_loc_m; lia).
  rewrite shr_record_of_loc_m.
  destruct m as [| q |]; try lia.
  cbn [Zdigits2] in En.
  assert (Hp : Zpos p = Zpos (digits2_pos q) - prec).
  { unfold fexp in En. fold EMIN in En. unfold EMIN in *. lia. }
  rewrite Z.shiftr_div_pow2 by lia.
  pose proof (digits2_pos_lower q) as Hq.
  apply Z.div_str_pos. split; [apply Z.pow_pos_nonneg; lia |].
  eapply Z.le_trans; [| exact Hq].
  apply Z.pow_le_mono_r; [lia |]. unfold prec in Hp. lia.
Qed.

Lemma round_nearest_even_ge (m : Z) (l : location) : m <= round_nearest_even m l.
Proof.
  destruct l as [| []]; simpl; try lia.
  destruct (Z.even m); lia.
Qed.


Lemma binary_round_aux_nonneg (s : bool) (m e : Z) (l : location) :
  0 <= m -> num_ok (binary_round_aux prec emax s m e l).
Proof.
  intros Hm. unfold binary_round_aux.
  pose proof (shr_fexp_nonneg m e l Hm) as [H1 _].
  destruct (shr_fexp prec emax m e l) as [mrs' e'] eqn:E1. cbn [fst] in H1.
  pose proof (round_nearest_even_ge (shr_m mrs') (loc_of_shr_record mrs')) as Hr.
  pose proof (shr_fexp_nonneg (round_nearest_even (shr_m mrs') (loc_of_shr_record mrs')) e' loc_Exact
                ltac:(lia)) as [H2 H3].
  destruct (shr_fexp prec emax _ e' loc_Exact) as [mrs'' e''] eqn:E2. cbn [fst snd] in H2, H3.
  destruct (shr_m mrs'') as [| q | q]; try exact I; [| lia].
  destruct (e'' <=? emax - prec); simpl; [exact H3 | exact I].
Qed.

Lemma binary_round_aux_pos (s : bool) (m e : Z) (l : location) :
  0 < m -> EMIN <= e -> signed s (binary_round_aux prec emax s m e l).
Proof.
  intros Hm He. unfold binary_round_aux.
  pose proof (shr_fexp_pos m e l Hm He) as H1.
  pose proof (shr_fexp_nonneg m e l ltac:(lia)) as [_ He'].
  destruct (shr_fexp prec emax m e l) as [mrs' e'] eqn:E1. cbn [fst snd] in H1, He'.
  pose proof (round_nearest_even_ge (shr_m mrs') (loc_of_shr_record mrs')) as Hr.
  pose proof (shr_fexp_pos (round_nearest_even (shr_m mrs') (loc_of_shr_record mrs')) e' loc_Exact
                ltac:(lia) He') as H2.
  pose proof (shr_fexp_nonneg (round_nearest_even (shr_m mrs') (loc_of_shr_record mrs')) e' loc_Exact
                ltac:(lia)) as [_ H3].
  destruct (shr_fexp prec emax _ e' loc_Exact) as [mrs'' e''] eqn:E2. cbn [fst snd] in H2, H3.
  destruct (shr_m mrs'') as [| q | q]; try lia.
  destruct (e'' <=? emax - prec); simpl; auto.
Qed.

Lemma iter_xO (m d : positive) : Zpos (Pos.iter xO m d) = Zpos m * 2 ^ Zpos d.
Proof.
  induction d as [| d IH] using Pos.peano_ind.
  - simpl. lia.
  - rewrite Pos.iter_succ, Pos2Z.inj_succ, Z.pow_succ_r by lia.
    rewrite Pos2Z.inj_xO, IH. lia.
Qed.

Lemma shl_align_fst (m : positive) (e e' : Z) :
  e' <= e -> Zpos (fst (shl_align m e e')) = Zpos m * 2 ^ (e - e').
Proof.
  intros H. unfold shl_align.
  destruct (e' - e) as [| d | d] eqn:Ed; cbn [fst]; try lia.
  - replace (e - e') with 0 by lia. simpl. lia.
  - rewrite iter_xO. f_equal. f_equal. lia.
Qed.

Lemma shl_align_snd (m : positive) (e e' : Z) :
  snd (shl_align m e e') = Z.min e e'.
Proof.
  unfold shl_align. destruct (e' - e) as [| d | d] eqn:Ed; cbn [snd]; lia.
Qed.

Lemma binary_round_signed (s : bool) (m : positive) (e : Z) :
  EMIN <= e -> signed s (binary_round prec emax s m e).
Proof.
  intros He. unfold binary_round.
  pose proof (shl_align_snd m e (fexp prec emax (Zpos (digits2_pos m) + e))) as Hs.
  pose proof (fexp_ge_emin (Zpos (digits2_pos m) + e)) as Hf.
  destruct (shl_align m e _) as [mz ez]. cbn [snd] in Hs.
  apply binary_round_aux_pos; lia.
Qed.

Lemma signed_ok s x : signed s x -> num_ok x.
Proof. destruct x; simpl; tauto. Qed.

Lemma positive_signed s x : signed s x -> is_positive x = negb s.
Proof.
  destruct x as [| s' | | s' m e]; simpl; try tauto.
  - intros ->. now destruct s.
  - intros [-> _]. now destruct s.
Qed.

Lemma binary_normalize_positive (d e : Z) :
  EMIN <= e -> is_positive (binary_normalize prec emax d e false) = (0 <? d).
Proof.
  intros He. destruct d as [| p | p]; cbn [binary_normalize].
  - reflexivity.
  - now rewrite (positive_signed false) by now apply binary_round_signed.
  - now rewrite (positive_signed true) by now apply binary_round_signed.
Qed.

Lemma binary_normalize_ok (d e : Z) (s : bool) :
  EMIN <= e -> num_ok (binary_normalize prec emax d e s).
Proof.
  intros He. destruct d as [| p | p]; cbn [binary_normalize].
  - exact I.
  - eapply signed_ok. now apply binary_round_signed.
  - eapply signed_ok. now apply binary_round_signed.
Qed.

(** The aligned mantissa of the subtraction, against the number of units. *)
Lemma aligned_units (s : bool) (m : positive) (e ez : Z) :
  EMIN <= ez -> ez <= e ->
  units (S754_finite s m e)
  = cond_Zopp s (Zpos (fst (shl_align m e ez))) * 2 ^ (ez - EMIN).
Proof.
  intros H1 H2. rewrite shl_align_fst by assumption. cbn [units].
  replace (e - EMIN) with ((e - ez) + (ez - EMIN)) by lia.
  rewrite Z.pow_add_r by lia.
  destruct s; simpl; lia.
Qed.

(** [y - x > 0] exactly when [x < y] as real numbers. *)
Lemma sub_positive (x y : num) :
  num_ok x -> num_ok y ->
  is_positive (num_sub y x) = negb (num_leb y x).
Proof.
  destruct x as [sx | sx | | sx mx ex]; destruct y as [sy | sy | | sy my ey];
    cbn [num_ok]; intros Hx Hy; try contradiction.
  - now destruct sx, sy.
  - now destruct sx, sy.
  - unfold num_sub. cbn [SFsub num_leb units cond_Zopp].
    pose proof (Z.pow_pos_nonneg 2 (ey - EMIN) ltac:(lia) ltac:(lia)).
    destruct sy; cbn [cond_Zopp];
      match goal with |- _ = negb (?a <=? ?b) => destruct (Z.leb_spec a b) end;
      try reflexivity; lia.
  - now destruct sx, sy.
  - now destruct sx, sy.
  - now destruct sx, sy.
  - unfold num_sub. cbn [SFsub num_leb units cond_Zopp].
    pose proof (Z.pow_pos_nonneg 2 (ex - EMIN) ltac:(lia) ltac:(lia)).
    destruct sx; cbn [cond_Zopp negb];
      match goal with |- _ = negb (?a <=? ?b) => destruct (Z.leb_spec a b) end;
      try reflexivity; lia.
  - now destruct sx, sy.
  - unfold num_sub. cbn [SFsub num_leb].
    rewrite binary_normalize_positive by lia.
    rewrite (aligned_units sy my ey (Z.min ey ex)) by lia.
    rewrite (aligned_units sx mx ex (Z.min ey ex)) by lia.
    pose proof (Z.pow_pos_nonneg 2 (Z.min ey ex - EMIN) ltac:(lia) ltac:(lia)) as Hp.
    set (a := cond_Zopp sy _) in *. set (b := cond_Zopp sx _) in *.
    destruct (Z.ltb_spec 0 (a - b)); destruct (Z.leb_spec (a * 2 ^ (Z.min ey ex - EMIN)) (b * 2 ^ (Z.min ey ex - EMIN)));
      try reflexivity; exfalso; nia.
Qed.

Lemma num_ok_not_nan (x : num) : num_ok x -> isNaN x = false.
Proof. destruct x; cbn; tauto. Qed.

(* ----------------------------------------------------------------- *)
(** ** Rounding to binary64 returns a value of the format *)

(** The number of binary digits. *)
Lemma Zdigits2_log2 (m : Z) : 0 < m -> Zdigits2 m = Z.log2 m + 1.
Proof.
  destruct m as [| p | p]; try lia. intros _. cbn [Zdigits2].
  pose proof (digits2_pos_lower p). pose proof (digits2_pos_upper p).
  rewrite (Z.log2_unique (Zpos p) (Zpos (digits2_pos p) - 1)); [lia | lia |].
  replace (Z.succ (Zpos (digits2_pos p) - 1)) with (Zpos (digits2_pos p)) by lia. lia.
Qed.

Lemma Zdigits2_nonneg (m : Z) : 0 <= m -> 0 <= Zdigits2 m.
Proof. destruct m; cbn; lia. Qed.

Lemma Zdigits2_pos (m : Z) : 0 < m -> 0 < Zdigits2 m.
Proof. destruct m; cbn; lia. Qed.

Lemma Zdigits2_mono (a b : Z) : 0 <= a -> a <= b -> Zdigits2 a <= Zdigits2 b.
Proof.
  intros Ha Hab. destruct (Z.eq_dec a 0) as [-> | Hne].
  - cbn. now apply Zdigits2_nonneg; lia.
  - rewrite !Zdigits2_log2 by lia. pose proof (Z.log2_le_mono a b Hab). lia.
Qed.

Lemma Zdigits2_shiftr (m n : Z) :
  0 < m -> 0 <= n -> n < Zdigits2 m ->
  0 < Z.shiftr m n /\ Zdigits2 (Z.shiftr m n) = Zdigits2 m - n.
Proof.
  intros Hm Hn Hlt. rewrite Zdigits2_log2 in Hlt by lia.
  assert (Hpos : 0 < Z.shiftr m n).
  { rewrite Z.shiftr_div_pow2 by lia. apply Z.div_str_pos.
    split; [apply Z.pow_pos_nonneg; lia |].
    eapply Z.le_trans; [| apply Z.log2_spec; lia].
    apply Z.pow_le_mono_r; lia. }
  split; [exact Hpos |].
  rewrite !Zdigits2_log2 by lia. rewrite Z.log2_shiftr by lia. lia.
Qed.

Lemma shiftr_all (m n : Z) : 0 <= m -> Zdigits2 m <= n -> Z.shiftr m n = 0.
Proof.
  intros Hm Hn. destruct (Z.eq_dec m 0) as [-> | Hne]; [apply Z.shiftr_0_l |].
  rewrite Zdigits2_log2 in Hn by lia.
  apply Z.shiftr_eq_0; lia.
Qed.

Ltac fexp_lia := unfold fexp, EMIN, emin, prec, emax in *; lia.

Lemma fexp_mono (a b : Z) : a <= b -> fexp prec emax a <= fexp prec emax b.
Proof. unfold fexp. lia. Qed.

Lemma shr_fexp_settled (m e : Z) (l : location) :
  shiftable m e ->
  settled (shr_m (fst (shr_fexp prec emax m e l))) (snd (shr_fexp prec emax m e l)).
Proof.
  intros (Hm & HP & H0). unfold shr_fexp, shr.
  destruct (fexp prec emax (Zdigits2 m + e) - e) as [| p | p] eqn:En; cbn [fst snd];
    try lia.
  - rewrite shr_record_of_loc_m. repeat split; try lia.
    intros ->. specialize (H0 eq_refl). cbn [Zdigits2] in *. fexp_lia.
  - rewrite shr_m_iter by (rewrite shr_record_of_loc_m; lia).
    rewrite shr_record_of_loc_m.
    destruct (Z.eq_dec m 0) as [-> | Hne].
    + rewrite Z.shiftr_0_l. repeat split; try lia.
      intros _. specialize (H0 eq_refl). cbn [Zdigits2] in *. fexp_lia.
    + destruct (Z.lt_ge_cases (Zpos p) (Zdigits2 m)) as [Hlt | Hge].
      * destruct (Zdigits2_shiftr m (Zpos p) ltac:(lia) ltac:(lia) Hlt) as [Hpos Hd].
        repeat split; try lia.
        intros _. rewrite Hd.
        replace (Zdigits2 m - Z.pos p + (e + Z.pos p)) with (Zdigits2 m + e) by lia. lia.
      * rewrite (shiftr_all m (Zpos p)) by lia.
        repeat split; try lia. intros _.
        pose proof (Zdigits2_pos m ltac:(lia)). fexp_lia.
Qed.

Lemma round_nearest_even_le (m : Z) (l : location) : round_nearest_even m l <= m + 1.
Proof.
  destruct l as [| []]; simpl; try lia.
  destruct (Z.even m); lia.
Qed.

Lemma round_shiftable (m e : Z) (l : location) :
  settled m e -> shiftable (round_nearest_even m l) e.
Proof.
  intros (Hm & H0 & Hc).
  pose proof (round_nearest_even_ge m l) as Hge.
  pose proof (round_nearest_even_le m l) as Hle.
  repeat split; try lia.
  destruct (Z.eq_dec m 0) as [-> | Hne].
  - rewrite (H0 eq_refl). apply fexp_ge_emin.
  - rewrite <- (Hc ltac:(lia)) at 1. apply fexp_mono.
    pose proof (Zdigits2_mono m (round_nearest_even m l) Hm Hge). lia.
Qed.

(** Rounding returns a value of the format. *)
Lemma binary_round_aux_valid (s : bool) (m e : Z) (l : location) :
  shiftable m e -> valid_binary prec emax (binary_round_aux prec emax s m e l) = true.
Proof.
  intros Hs. unfold binary_round_aux.
  pose proof (shr_fexp_settled m e l Hs) as H1.
  destruct (shr_fexp prec emax m e l) as [mrs' e'] eqn:E1. cbn [fst snd] in H1.
  pose proof (shr_fexp_settled _ _ loc_Exact
                (round_shiftable _ _ (loc_of_shr_record mrs') H1)) as H2.
  destruct (shr_fexp prec emax _ e' loc_Exact) as [mrs'' e''] eqn:E2. cbn [fst snd] in H2.
  destruct H2 as (Hm & _ & Hc).
  destruct (shr_m mrs'') as [| q | q]; [reflexivity | | lia].
  destruct (e'' <=? emax - prec) eqn:Ee; [| reflexivity].
  cbn [valid_binary]. unfold bounded, canonical_mantissa. rewrite Ee, andb_true_r.
  apply Z.eqb_eq. apply Hc. lia.
Qed.

Lemma digits2_pos_iter_xO (m d : positive) :
  Zpos (digits2_pos (Pos.iter xO m d)) = Zpos (digits2_pos m) + Zpos d.
Proof.
  induction d as [| d IH] using Pos.peano_ind.
  - cbn. lia.
  - rewrite Pos.iter_succ. cbn [digits2_pos]. rewrite Pos2Z.inj_succ, IH. lia.
Qed.

Lemma binary_round_valid (s : bool) (m : positive) (e : Z) :
  valid_binary prec emax (binary_round prec emax s m e) = true.
Proof.
  unfold binary_round, shl_align.
  destruct (fexp prec emax (Zpos (digits2_pos m) + e) - e) as [| d | d] eqn:Ed;
    apply binary_round_aux_valid; unfold shiftable; cbn [Zdigits2].
  - lia.
  - lia.
  - rewrite digits2_pos_iter_xO.
    replace (Z.pos (digits2_pos m) + Z.pos d + fexp prec emax (Z.pos (digits2_pos m) + e))
      with (Z.pos (digits2_pos m) + e) by lia.
    lia.
Qed.

Lemma binary_normalize_valid (d e : Z) (s : bool) :
  valid_binary prec emax (binary_normalize prec emax d e s) = true.
Proof.
  destruct d as [| p | p]; cbn [binary_normalize]; [reflexivity | |]; apply binary_round_valid.
Qed.

(** The quotient the division prepares can be shifted to the format. *)
Lemma div_core_shiftable (p : positive) (m2 : Z) (q e' : Z) (l : location) :
  0 < m2 ->
  SFdiv_core_binary prec emax (Zpos p) 0 m2 0 = (q, e', l) ->
  shiftable q e'.
Proof.
  intros Hm2 Hd. unfold SFdiv_core_binary in Hd.
  set (d1 := Zdigits2 (Zpos p)) in *. set (d2 := Zdigits2 m2) in *.
  set (e0 := Z.min (fexp prec emax (d1 + 0 - (d2 + 0))) (0 - 0)) in *.
  assert (He0 : e0 <= 0) by (unfold e0; lia).
  assert (He0' : e0 <= fexp prec emax (d1 - d2)).
  { unfold e0. replace (d1 + 0 - (d2 + 0)) with (d1 - d2) by lia. lia. }
  set (m' := match 0 - 0 - e0 with
             | Z0 => Zpos p
             | Zpos _ => Z.shiftl (Zpos p) (0 - 0 - e0)
             | Zneg _ => 0
             end) in *.
  assert (Hm' : m' = Zpos p * 2 ^ (- e0)).
  { unfold m'. destruct (0 - 0 - e0) as [| s | s] eqn:Es; try lia.
    - replace (- e0) with 0 by lia. lia.
    - rewrite Z.shiftl_mul_pow2 by lia. f_equal. f_equal. lia. }
  destruct (Z.div_eucl m' m2) as [q' r'] eqn:Eq. inversion Hd; subst q' e'. clear Hd.
  assert (Hq : q = m' / m2) by (unfold Z.div; now rewrite Eq).
  pose proof (Z.pow_pos_nonneg 2 (- e0) ltac:(lia) ltac:(lia)) as Hpow.
  assert (Hm'pos : 0 < m') by (rewrite Hm'; lia).
  assert (Hq0 : 0 <= q) by (rewrite Hq; apply Z.div_pos; lia).
  pose proof (digits2_pos_lower p) as Hl1. fold (Zdigits2 (Zpos p)) in Hl1. fold d1 in Hl1.
  assert (Hu2 : m2 < 2 ^ d2).
  { unfold d2. rewrite Zdigits2_log2 by lia. apply Z.log2_spec. lia. }
  assert (Hd1 : 0 < d1) by (unfold d1; cbn; lia).
  assert (Hd2 : 0 < d2) by (unfold d2; apply Zdigits2_pos; lia).
  assert (Hlow : 2 ^ (d1 - 1 - e0) <= m').
  { rewrite Hm'. replace (d1 - 1 - e0) with ((d1 - 1) + (- e0)) by lia.
    rewrite Z.pow_add_r by lia. apply Z.mul_le_mono_nonneg_r; lia. }
  repeat split; [exact Hq0 | |].
  - destruct (Z.eq_dec q 0) as [Hz | Hnz].
    + (* the quotient is zero: the exponent is the least one *)
      rewrite Hz. cbn [Zdigits2].
      assert (Hsmall : m' < m2).
      { rewrite Hq in Hz. apply Z.div_small_iff in Hz; lia. }
      assert (Hlt : d1 - 1 - e0 < d2).
      { apply (Z.pow_lt_mono_r_iff 2); lia. }
      fexp_lia.
    + eapply Z.le_trans; [exact He0' |]. apply fexp_mono.
      rewrite Zdigits2_log2 by lia.
      destruct (Z.le_gt_cases (d1 - d2 - e0) 1) as [Hs | Hs].
      * pose proof (Z.log2_nonneg q). lia.
      * assert (Hx : 2 ^ (d1 - 1 - e0 - d2) <= q).
        { rewrite Hq. apply Z.div_le_lower_bound; [lia |].
          eapply Z.le_trans; [| exact Hlow].
          assert (Hsplit : 2 ^ (d1 - 1 - e0) = 2 ^ d2 * 2 ^ (d1 - 1 - e0 - d2)).
          { rewrite <- Z.pow_add_r by lia. f_equal. lia. }
          rewrite Hsplit.
          apply Z.mul_le_mono_nonneg_r; [apply Z.pow_nonneg; lia | lia]. }
        apply Z.log2_le_pow2 in Hx; lia.
  - intros Hz.
    assert (Hsmall : m' < m2).
    { rewrite Hq in Hz. apply Z.div_small_iff in Hz; lia. }
    assert (Hlt : d1 - 1 - e0 < d2).
    { apply (Z.pow_lt_mono_r_iff 2); lia. }
    fexp_lia.
Qed.

Lemma of_decimal_valid (neg : bool) (m e : Z) :
  valid_binary prec emax (of_decimal neg m e) = true.
Proof.
  unfold of_decimal. destruct m as [| p | p]; try reflexivity.
  destruct (Z.leb_spec 0 e) as [He | He].
  - apply binary_normalize_valid.
  - destruct (SFdiv_core_binary prec emax (Z.pos p) 0 (10 ^ (- e)) 0) as [[q e'] l] eqn:Ed.
    apply binary_round_aux_valid.
    apply (div_core_shiftable p (10 ^ (- e)) q e' l); [| exact Ed].
    apply Z.pow_pos_nonneg; lia.
Qed.

(* ----------------------------------------------------------------- *)
(** ** The order of the values of the format *)

(** A canonical mantissa is normal (full precision) or subnormal (least
    exponent). *)
Lemma bounded_cases (m : positive) (e : Z) :
  bounded prec emax m e = true ->
  EMIN <= e /\ Zpos (digits2_pos m) <= prec
  /\ (EMIN < e -> Zpos (digits2_pos m) = prec).
Proof.
  unfold bounded, canonical_mantissa, fexp. fold EMIN.
  intros H. apply andb_true_iff in H as [H _]. apply Z.eqb_eq in H. lia.
Qed.

(** Of two positive values of the format, the one with the smaller exponent
    is the smaller one. *)
Lemma units_lt_exponent (m1 m2 : positive) (e1 e2 : Z) :
  bounded prec emax m1 e1 = true -> bounded prec emax m2 e2 = true ->
  e1 < e2 ->
  Zpos m1 * 2 ^ (e1 - EMIN) < Zpos m2 * 2 ^ (e2 - EMIN).
Proof.
  intros H1 H2 He.
  apply bounded_cases in H1 as (He1 & Hd1 & _).
  apply bounded_cases in H2 as (He2 & _ & Hd2). specialize (Hd2 ltac:(lia)).
  pose proof (digits2_pos_upper m1) as Hu.
  pose proof (digits2_pos_lower m2) as Hl. rewrite Hd2 in Hl.
  assert (Hp : 2 ^ Zpos (digits2_pos m1) <= 2 ^ prec) by (apply Z.pow_le_mono_r; lia).
  replace (e2 - EMIN) with ((e2 - e1 - 1) + (1 + (e1 - EMIN))) by lia.
  rewrite Z.pow_add_r, (Z.pow_add_r 2 1) by lia. change (2 ^ 1) with 2.
  pose proof (Z.pow_pos_nonneg 2 (e1 - EMIN) ltac:(lia) ltac:(lia)) as Hk.
  pose proof (Z.pow_pos_nonneg 2 (e2 - e1 - 1) ltac:(lia) ltac:(lia)) as Hj.
  assert (Hprec : 2 ^ prec = 2 * 2 ^ (prec - 1)).
  { replace prec with (1 + (prec - 1)) at 1 by lia.
    rewrite Z.pow_add_r by (unfold prec; lia). reflexivity. }
  set (A := 2 ^ (e1 - EMIN)) in *. set (J := 2 ^ (e2 - e1 - 1)) in *.
  set (P := 2 ^ (prec - 1)) in *.
  assert (H1 : Zpos m1 * A < 2 * P * A) by (apply Z.mul_lt_mono_pos_r; lia).
  assert (H2 : 2 * P * A <= 2 * Zpos m2 * A) by (apply Z.mul_le_mono_nonneg_r; lia).
  assert (H3 : 2 * Zpos m2 * A * 1 <= 2 * Zpos m2 * A * J) by (apply Z.mul_le_mono_nonneg_l; lia).
  lia.
Qed.

Lemma units_compare_same_exponent (m1 m2 : positive) (e : Z) :
  EMIN <= e ->
  (Zpos m1 * 2 ^ (e - EMIN) ?= Zpos m2 * 2 ^ (e - EMIN)) = Pos.compare_cont Eq m1 m2.
Proof.
  intros He. pose proof (Z.pow_pos_nonneg 2 (e - EMIN) ltac:(lia) ltac:(lia)) as Hk.
  change (Pos.compare_cont Eq m1 m2) with (Zpos m1 ?= Zpos m2).
  destruct (Z.compare_spec (Zpos m1) (Zpos m2)) as [H | H | H].
  - rewrite H. apply Z.compare_refl.
  - apply Z.compare_lt_iff. nia.
  - apply Z.compare_gt_iff. nia.
Qed.

(** On the positive values of the format, the IEEE comparison is the
    comparison of the numbers of units. *)
Lemma compare_units_pos (m1 m2 : positive) (e1 e2 : Z) :
  bounded prec emax m1 e1 = true -> bounded prec emax m2 e2 = true ->
  (Zpos m1 * 2 ^ (e1 - EMIN) ?= Zpos m2 * 2 ^ (e2 - EMIN))
  = match e1 ?= e2 with
    | Lt => Lt
    | Gt => Gt
    | Eq => Pos.compare_cont Eq m1 m2
    end.
Proof.
  intros H1 H2. destruct (Z.compare_spec e1 e2) as [He | He | He].
  - subst e2. apply units_compare_same_exponent. now apply bounded_cases in H1.
  - apply Z.compare_lt_iff. now apply units_lt_exponent.
  - apply Z.compare_gt_iff. now apply units_lt_exponent.
Qed.

(** On the values of the format, [num_leb] is the IEEE comparison [<=]. *)
Lemma num_leb_SFleb (x y : num) :
  valid_binary prec emax x = true -> valid_binary prec emax y = true ->
  num_leb x y = SFleb x y.
Proof.
  destruct x as [sx | sx | | sx mx ex]; destruct y as [sy | sy | | sy my ey];
    cbn [valid_binary]; intros Hx Hy; try reflexivity;
    try (destruct sx; destruct sy; reflexivity);
    try (destruct sx; reflexivity); try (destruct sy; reflexivity).
  - (* zero, finite *)
    pose proof (bounded_cases my ey Hy) as (He & _).
    pose proof (Z.pow_pos_nonneg 2 (ey - EMIN) ltac:(lia) ltac:(lia)).
    unfold SFleb. cbn [num_leb units SFcompare].
    destruct sy; cbn [cond_Zopp]; [apply Z.leb_gt | apply Z.leb_le]; lia.
  - (* finite, zero *)
    pose proof (bounded_cases mx ex Hx) as (He & _).
    pose proof (Z.pow_pos_nonneg 2 (ex - EMIN) ltac:(lia) ltac:(lia)).
    unfold SFleb. cbn [num_leb units SFcompare].
    destruct sx; cbn [cond_Zopp]; [apply Z.leb_le | apply Z.leb_gt]; lia.
  - (* finite, finite *)
    pose proof (bounded_cases mx ex Hx) as (Hex & _).
    pose proof (bounded_cases my ey Hy) as (Hey & _).
    pose proof (Z.pow_pos_nonneg 2 (ex - EMIN) ltac:(lia) ltac:(lia)).
    pose proof (Z.pow_pos_nonneg 2 (ey - EMIN) ltac:(lia) ltac:(lia)).
    unfold SFleb. cbn [num_leb units SFcompare].
    destruct sx; destruct sy; cbn [cond_Zopp].
    + (* both negative *)
      destruct (Z.compare_spec ex ey) as [He | He | He].
      * subst ey.
        change (Pos.compare_cont Eq mx my) with (Zpos mx ?= Zpos my).
        destruct (Z.compare_spec (Zpos mx) (Zpos my)) as [Hm | Hm | Hm]; cbn [CompOpp];
          [apply Z.leb_le | apply Z.leb_gt | apply Z.leb_le]; nia.
      * pose proof (units_lt_exponent mx my ex ey Hx Hy He). apply Z.leb_gt. lia.
      * pose proof (units_lt_exponent my mx ey ex Hy Hx He). apply Z.leb_le. lia.
    + apply Z.leb_le. lia.
    + apply Z.leb_gt. lia.
    + rewrite <- (compare_units_pos mx my ex ey Hx Hy).
      unfold Z.leb.
      now destruct (Z.pos mx * 2 ^ (ex - EMIN) ?= Z.pos my * 2 ^ (ey - EMIN)).
Qed.

(* ----------------------------------------------------------------- *)
(** ** What [parseFloat] returns *)

Lemma of_decimal_ok (neg : bool) (m e : Z) :
  0 <= m -> num_ok (of_decimal neg m e).
Proof.
  intros Hm. unfold of_decimal. destruct m as [| p | p]; [exact I | | lia].
  destruct (Z.leb_spec 0 e) as [He | He].
  - apply binary_normalize_ok. unfold EMIN, emin, prec, emax. lia.
  - destruct (SFdiv_core_binary prec emax (Z.pos p) 0 (10 ^ (- e)) 0) as [[q e'] l] eqn:Ed.
    apply binary_round_aux_nonneg.
    unfold SFdiv_core_binary in Ed.
    destruct (Z.div_eucl _ (10 ^ (- e))) as [q' r'] eqn:Eq. inversion Ed; subst. clear Ed.
    match type of Eq with Z.div_eucl ?a ?b = _ =>
      assert (Hq : q = a / b) by (unfold Z.div; now rewrite Eq);
      assert (Ha : 0 <= a) end.
    { destruct (_ - _ - _); try lia. apply Z.shiftl_nonneg. lia. }
    rewrite Hq. apply Z.div_pos; [exact Ha |]. apply Z.pow_pos_nonneg; lia.
Qed.

Lemma digit_of_is_digit (c : N) :
  is_digit c = match digit_of c with Some _ => true | None => false end.
Proof. unfold digit_of, is_digit. now destruct ((48 <=? c) && (c <=? 57))%N. Qed.

Lemma digit_of_nonneg (c : N) (d : Z) : digit_of c = Some d -> 0 <= d.
Proof.
  unfold digit_of. destruct ((48 <=? c) && (c <=? 57))%N eqn:E; [| discriminate].
  intros H. inversion H; subst. apply andb_true_iff in E as [E _].
  apply N.leb_le in E. lia.
Qed.

Lemma read_digits_spec (s : jsstring) :
  forall acc n a k r,
    read_digits acc n s = (a, k, r) ->
    n <= k /\ (0 <= acc -> 0 <= a).
Proof.
  induction s as [| c s IH]; intros acc n a k r H; cbn [read_digits] in H.
  - inversion H; subst. lia.
  - destruct (digit_of c) as [d |] eqn:Ed.
    + apply IH in H as [H1 H2]. pose proof (digit_of_nonneg c d Ed). lia.
    + inversion H; subst. lia.
Qed.

Lemma read_digits_head (c : N) (s : jsstring) (acc n : Z) :
  match digit_of c with
  | Some _ => n < snd (fst (read_digits acc n (c :: s)))
  | None => read_digits acc n (c :: s) = (acc, n, c :: s)
  end.
Proof.
  cbn [read_digits]. destruct (digit_of c) as [d |]; [| reflexivity].
  destruct (read_digits (10 * acc + d) (n + 1) s) as [[a k] r] eqn:E.
  apply read_digits_spec in E as [E _]. cbn. lia.
Qed.

(** A literal is read exactly when a number stands at the head. *)
Lemma read_unsigned_spec (s : jsstring) :
  if numeric_head s then literal_ok (read_unsigned s) else read_unsigned s = LitNone.
Proof.
  unfold numeric_head, read_unsigned.
  destruct (is_prefix (lit "Infinity") s); [constructor |]. cbn [orb].
  destruct s as [| c s'].
  - reflexivity.
  - rewrite digit_of_is_digit.
    pose proof (read_digits_head c s' 0 0) as Hh.
    destruct (digit_of c) as [d |] eqn:Ed; cbn [orb].
    + destruct (read_digits 0 0 (c :: s')) as [[i ni] s1] eqn:E. cbn in Hh.
      apply read_digits_spec in E as [_ Hi]. specialize (Hi ltac:(lia)).
      assert (Hni : (ni =? 0) = false) by (apply Z.eqb_neq; lia).
      destruct s1 as [| c1 s2]; rewrite ?Hni; [now constructor |].
      destruct (c1 =? 46)%N; [| now constructor].
      destruct (read_digits i 0 s2) as [[m nf] s3] eqn:E2.
      apply read_digits_spec in E2 as [_ Hm]. cbn [andb]. constructor. auto.
    + rewrite Hh. destruct (c =? 46)%N; cbn [andb]; [| reflexivity].
      destruct s' as [| d s''].
      * reflexivity.
      * rewrite digit_of_is_digit.
        pose proof (read_digits_head d s'' 0 0) as Hd.
        destruct (digit_of d) as [x |] eqn:Ex.
        -- destruct (read_digits 0 0 (d :: s'')) as [[m nf] s3] eqn:E2. cbn in Hd.
           apply read_digits_spec in E2 as [_ Hm].
           assert (Hnf : (nf =? 0) = false) by (apply Z.eqb_neq; lia).
           rewrite Hnf. cbn [andb]. constructor. apply Hm. lia.
        -- rewrite Hd. reflexivity.
Qed.

(** [parseFloat] answers NaN exactly when no number stands at the head of
    the text; otherwise it answers a number of the format. *)
Lemma parseFloat_spec (v : value) :
  if starts_with_number v then num_ok (parseFloat v) else parseFloat v = S754_nan.
Proof.
  unfold parseFloat, starts_with_number, strip_sign.
  set (s := trim_start (to_string v)).
  assert (Hgo : forall neg s',
    if numeric_head s'
    then num_ok (match read_unsigned s' with
                 | LitNone => S754_nan
                 | LitInfinity => S754_infinity neg
                 | LitDecimal m e => of_decimal neg m e
                 end)
    else match read_unsigned s' with
         | LitNone => S754_nan
         | LitInfinity => S754_infinity neg
         | LitDecimal m e => of_decimal neg m e
         end = S754_nan).
  { intros neg s'. pose proof (read_unsigned_spec s') as H.
    destruct (numeric_head s').
    - inversion H as [| m e Hm]; [exact I |]. now apply of_decimal_ok.
    - now rewrite H. }
  destruct s as [| c t]; [apply Hgo |].
  destruct (c =? 45)%N; [apply Hgo |].
  destruct (c =? 43)%N; apply Hgo.
Qed.

Lemma parseFloat_nan_iff (v : value) :
  isNaN (parseFloat v) = negb (starts_with_number v).
Proof.
  pose proof (parseFloat_spec v) as H.
  destruct (starts_with_number v); cbn [negb].
  - now apply num_ok_not_nan.
  - now rewrite H.
Qed.

Lemma parseFloat_ok (v : value) :
  isNaN (parseFloat v) = false -> num_ok (parseFloat v).
Proof.
  intros Hn. pose proof (parseFloat_spec v) as H.
  destruct (starts_with_number v); [exact H |].
  rewrite H in Hn. discriminate.
Qed.

(** [parseFloat] returns a value of the format. *)
Lemma parseFloat_valid (v : value) : valid_binary prec emax (parseFloat v) = true.
Proof.
  unfold parseFloat.
  destruct (match trim_start (to_string v) with [] => _ | _ => _ end) as [neg s'].
  destruct (read_unsigned s') as [| | m e]; try reflexivity.
  apply of_decimal_valid.
Qed.


Lemma score_ok (row : record) : num_ok (score (to_entry row)).
Proof.
  unfold to_entry. cbn [score].
  destruct (isNaN (parseFloat (scoreStr row))) eqn:E; [exact I |].
  now apply parseFloat_ok.
Qed.

Lemma num_leb_total (x y : num) :
  num_ok x -> num_ok y -> num_leb x y = false -> num_leb y x = true.
Proof.
  destruct x as [sx | sx | | sx mx ex]; destruct y as [sy | sy | | sy my ey];
    cbn [num_ok num_leb]; intros Hx Hy; try contradiction;
    try (destruct sx; destruct sy; cbn; congruence);
    try (destruct sx; cbn; congruence); try (destruct sy; cbn; congruence);
    rewrite Z.leb_gt, Z.leb_le; lia.
Qed.

Lemma num_leb_trans (x y z : num) :
  num_leb x y = true -> num_leb y z = true -> num_leb x z = true.
Proof.
  destruct x as [sx | sx | | sx mx ex]; destruct y as [sy | sy | | sy my ey];
    destruct z as [sz | sz | | sz mz ez]; cbn [num_leb];
    try discriminate; try (rewrite !Z.leb_le; lia);
    try (destruct sx; cbn; congruence); try (destruct sy; cbn; congruence);
    try (destruct sz; cbn; congruence);
    try (destruct sx; destruct sy; cbn; congruence);
    try (destruct sy; destruct sz; cbn; congruence);
    try (destruct sx; destruct sy; destruct sz; cbn; congruence).
Qed.

Lemma num_leb_refl (x : num) : num_ok x -> num_leb x x = true.
Proof.
  destruct x as [sx | sx | | sx mx ex]; cbn [num_ok num_leb]; intros H; try contradiction.
  - apply Z.leb_refl.
  - now destruct sx.
  - apply Z.leb_refl.
Qed.

Lemma score_valid (row : record) : valid_binary prec emax (score (to_entry row)) = true.
Proof.
  unfold to_entry. cbn [score].
  destruct (isNaN (parseFloat (scoreStr row))); [reflexivity | apply parseFloat_valid].
Qed.

(** A number equals itself. *)
Lemma SFleb_refl (x : num) : is_number x -> SFleb x x = true.
Proof.
  intros [Hn _]. destruct x as [s | s | | s m e]; try discriminate; unfold SFleb; cbn.
  - reflexivity.
  - now destruct s.
  - rewrite Z.compare_refl, Pos.compare_cont_refl. now destruct s.
Qed.

Lemma SFeqb_finite (s1 s2 : bool) (m1 m2 : positive) (e1 e2 : Z) :
  SFeqb (S754_finite s1 m1 e1) (S754_finite s2 m2 e2) = true ->
  s1 = s2 /\ m1 = m2 /\ e1 = e2.
Proof.
  unfold SFeqb. cbn [SFcompare].
  destruct s1; destruct s2; try discriminate;
    destruct (Z.compare_spec e1 e2) as [He | He | He]; try discriminate;
    destruct (Pos.compare_cont Eq m1 m2) eqn:Em; try discriminate;
    intros _; apply Pos.compare_eq in Em; auto.
Qed.

(** Two numbers that equal a third one are in order. *)
Lemma SFeqb_leb (x y v : num) :
  num_ok x -> num_ok y ->
  SFeqb y v = true -> SFeqb x v = true -> num_leb x y = true.
Proof.
  intros Hx Hy Hyv Hxv.
  destruct x as [sx | sx | | sx mx ex]; destruct y as [sy | sy | | sy my ey];
    destruct v as [sv | sv | | sv mv ev];
    try contradiction;
    first
      [ apply SFeqb_finite in Hxv as (-> & -> & ->);
        apply SFeqb_finite in Hyv as (-> & -> & ->);
        cbn [num_leb]; apply Z.leb_refl
      | unfold SFeqb in Hxv, Hyv; cbn [SFcompare] in Hxv, Hyv;
        repeat match goal with
               | H : context [if ?b then _ else _] |- _ => is_var b; destruct b
               end;
        try discriminate; reflexivity ].
Qed.

(* ----------------------------------------------------------------- *)
(** ** The sort: a stable rearrangement *)

Section SortFacts.
Context {A : Type}.
Variable cmp : A -> A -> num.

Lemma sort_insert_perm (x : A) (l : list A) :
  Permutation (x :: l) (sort_insert cmp x l).
Proof.
  induction l as [| y l IH]; simpl.
  - apply Permutation_refl.
  - destruct (is_positive (cmp x y)).
    + eapply perm_trans; [apply perm_swap |]. apply perm_skip, IH.
    + apply Permutation_refl.
Qed.

Lemma js_sort_perm (l : list A) : Permutation l (js_sort cmp l).
Proof.
  induction l as [| x l IH]; simpl.
  - apply perm_nil.
  - eapply perm_trans; [apply perm_skip, IH | apply sort_insert_perm].
Qed.

Lemma js_sort_length (l : list A) : length (js_sort cmp l) = length l.
Proof. symmetry. apply Permutation_length, js_sort_perm. Qed.
Lemma js_sort_In (x : A) (l : list A) : In x (js_sort cmp l) <-> In x l.
Proof.
  split; apply Permutation_in; [apply Permutation_sym |]; apply js_sort_perm.
Qed.

(** Elements the comparator never asks to swap keep their relative order. *)
Lemma sort_insert_filter (P : A -> bool) (x : A) (l : list A) :
  (forall y, In y l -> P x = true -> P y = true -> is_positive (cmp x y) = false) ->
  List.filter P (sort_insert cmp x l) = List.filter P (x :: l).
Proof.
  induction l as [| y l IH]; intros H; [reflexivity |].
  cbn [sort_insert]. destruct (is_positive (cmp x y)) eqn:E; [| reflexivity].
  assert (Hl : forall z, In z l -> P x = true -> P z = true -> is_positive (cmp x z) = false).
  { intros z Hz. apply H. now right. }
  cbn [List.filter]. rewrite (IH Hl). cbn [List.filter]. destruct (P x) eqn:Ex; destruct (P y) eqn:Ey; try reflexivity.
  assert (Hno : is_positive (cmp x y) = false) by (apply H; [now left | reflexivity | exact Ey]).
  congruence.
Qed.

Lemma js_sort_filter (P : A -> bool) (l : list A) :
  (forall x y, In x l -> In y l -> P x = true -> P y = true ->
               is_positive (cmp x y) = false) ->
  List.filter P (js_sort cmp l) = List.filter P l.
Proof.
  induction l as [| x l IH]; intros H; [reflexivity |].
  cbn [js_sort]. rewrite sort_insert_filter.
  - cbn [List.filter]. rewrite IH; [reflexivity |].
    intros a b Ha Hb Pa Pb. apply H; [right; exact Ha | right; exact Hb | exact Pa | exact Pb].
  - intros y Hy Px Py. apply H; [now left | right; exact (proj1 (js_sort_In y l) Hy) | exact Px | exact Py].
Qed.

Variable ge : A -> A -> Prop.
Hypothesis ge_trans : forall x y z, ge x y -> ge y z -> ge x z.

Lemma sort_insert_sorted (x : A) (l : list A) :
  (forall y, In y l -> is_positive (cmp x y) = false -> ge x y) ->
  (forall y, In y l -> is_positive (cmp x y) = true -> ge y x) ->
  StronglySorted ge l -> StronglySorted ge (sort_insert cmp x l).
Proof.
  induction l as [| y l IH]; intros Hkeep Hswap Hs.
  - repeat constructor.
  - inversion Hs as [| ? ? Hs' Hy]; subst.
    cbn [sort_insert]. destruct (is_positive (cmp x y)) eqn:E.
    + constructor.
      * apply IH; [| | exact Hs'].
        -- intros z Hz. apply Hkeep. now right.
        -- intros z Hz. apply Hswap. now right.
      * apply List.Forall_forall. intros z Hz.
        apply (Permutation_in z (Permutation_sym (sort_insert_perm x l))) in Hz.
        destruct Hz as [<- | Hz].
        -- apply Hswap; [now left | exact E].
        -- rewrite List.Forall_forall in Hy. now apply Hy.
    + constructor; [exact Hs |].
      assert (Hxy : ge x y) by (apply Hkeep; [now left | exact E]).
      constructor; [exact Hxy |].
      apply List.Forall_forall. intros z Hz. rewrite List.Forall_forall in Hy.
      eapply ge_trans; [exact Hxy | now apply Hy].
Qed.

Lemma js_sort_sorted (l : list A) :
  (forall x y, In x l -> In y l -> is_positive (cmp x y) = false -> ge x y) ->
  (forall x y, In x l -> In y l -> is_positive (cmp x y) = true -> ge y x) ->
  StronglySorted ge (js_sort cmp l).
Proof.
  induction l as [| x l IH]; intros Hkeep Hswap; [constructor |].
  cbn [js_sort]. apply sort_insert_sorted.
  - intros y Hy. apply Hkeep; [now left | right; exact (proj1 (js_sort_In y l) Hy)].
  - intros y Hy. apply Hswap; [now left | right; exact (proj1 (js_sort_In y l) Hy)].
  - apply IH; intros a b Ha Hb; [apply Hkeep | apply Hswap]; now right.
Qed.
End SortFacts.

Section StableUnique.
Context {A : Type}.
Variable geb : A -> A -> bool.

(** Two sorted lists that list every class of equal elements in the same
    order are the same list: a stable sort has one possible result. *)
Lemma stable_sorted_unique (l1 : list A) :
  forall l2 : list A,
    StronglySorted (fun a b => geb a b = true) l1 ->
    StronglySorted (fun a b => geb a b = true) l2 ->
    (forall x, In x l1 -> geb x x = true) ->
    (forall x, In x l2 -> geb x x = true) ->
    (forall v, In v l1 \/ In v l2 ->
       List.filter (same_class geb v) l1 = List.filter (same_class geb v) l2) ->
    l1 = l2.
Proof.
  induction l1 as [| x l1 IH]; intros l2 S1 S2 R1 R2 Hf.
  - destruct l2 as [| y l2]; [reflexivity |].
    specialize (Hf y (or_intror (or_introl eq_refl))).
    cbn [List.filter] in Hf. unfold same_class in Hf at 1.
    rewrite (R2 y (or_introl eq_refl)) in Hf. discriminate.
  - destruct l2 as [| y l2].
    + specialize (Hf x (or_introl (or_introl eq_refl))).
      cbn [List.filter] in Hf. unfold same_class in Hf at 1.
      rewrite (R1 x (or_introl eq_refl)) in Hf. discriminate.
    + inversion S1 as [| ? ? S1' F1]; subst. inversion S2 as [| ? ? S2' F2]; subst.
      rewrite List.Forall_forall in F1, F2.
      assert (Hxx : geb x x = true) by (apply R1; now left).
      assert (Hyy : geb y y = true) by (apply R2; now left).
      assert (Hyx : geb y x = true).
      { assert (Hin : In x (List.filter (same_class geb x) (y :: l2))).
        { rewrite <- Hf by (left; now left).
          cbn [List.filter]. unfold same_class at 1. rewrite Hxx. now left. }
        apply filter_In in Hin as [[-> | Hin] _]; [exact Hxx | now apply F2]. }
      assert (Hxy : geb x y = true).
      { assert (Hin : In y (List.filter (same_class geb y) (x :: l1))).
        { rewrite Hf by (right; now left).
          cbn [List.filter]. unfold same_class at 1. rewrite Hyy. now left. }
        apply filter_In in Hin as [[-> | Hin] _]; [exact Hyy | now apply F1]. }
      assert (Heq : x = y).
      { specialize (Hf x (or_introl (or_introl eq_refl))). cbn [List.filter] in Hf.
        assert (same_class geb x x = true) as Hcx by (unfold same_class; now rewrite Hxx).
        assert (same_class geb x y = true) as Hcy by (unfold same_class; now rewrite Hxy, Hyx).
        rewrite Hcx, Hcy in Hf. now inversion Hf. }
      subst y. f_equal. apply IH; try assumption.
      * intros z Hz. apply R1. now right.
      * intros z Hz. apply R2. now right.
      * intros v Hv.
        assert (Hv' : In v (x :: l1) \/ In v (x :: l2)).
        { destruct Hv as [Hv | Hv]; [left | right]; now right. }
        specialize (Hf v Hv'). cbn [List.filter] in Hf.
        destruct (same_class geb v x); [now inversion Hf | exact Hf].
Qed.

Lemma StronglySorted_weaken (R R' : A -> A -> Prop) (l : list A) :
  (forall a b, In a l -> In b l -> R a b -> R' a b) ->
  StronglySorted R l -> StronglySorted R' l.
Proof.
  induction l as [| x l IH]; intros H Hs; [constructor |].
  inversion Hs as [| ? ? Hs' Hx]; subst. constructor.
  - apply IH; [| exact Hs']. intros a b Ha Hb. apply H; now right.
  - rewrite List.Forall_forall in *. intros y Hy.
    apply H; [now left | now right | now apply Hx].
Qed.
End StableUnique.

(* ----------------------------------------------------------------- *)
(** ** Transformer: one entry per record *)


(** Every record has its entry in the output. *)
Lemma transformData_In (rows : list record) (row : record) :
  In row rows -> In (to_entry row) (transformData rows).
Proof.
  intros Hin. unfold transformData.
  eapply Permutation_in; [apply js_sort_perm |].
  now apply in_map.
Qed.

(* ----------------------------------------------------------------- *)
(** ** Transformer: scores that do not parse *)

Lemma parseFloat_undefined : parseFloat Undefined = S754_nan.
Proof. reflexivity. Qed.

Example parseFloat_empty : parseFloat (Str (lit "")) = S754_nan.
Proof. reflexivity. Qed.

Example parseFloat_words : parseFloat (Str (lit "n/a")) = S754_nan.
Proof. reflexivity. Qed.

Example parseFloat_prefix :
  parseFloat (Str (lit " 12.5 pts")) = S754_finite false 7036874417766400 (-49).
Proof. vm_compute. reflexivity. Qed.

Example parseFloat_tenth :
  parseFloat (Str (lit "0.1")) = S754_finite false 7205759403792794 (-56).
Proof. vm_compute. reflexivity. Qed.

Example parseFloat_overflow : parseFloat (Str (lit "1e400")) = S754_infinity false.
Proof. vm_compute. reflexivity. Qed.

Example parseFloat_tie_to_even :
  parseFloat (Str (lit "9007199254740993")) = S754_finite false 4503599627370496 1.
Proof. vm_compute. reflexivity. Qed.

(** C5: when the score text of a record is missing, or no number stands at
    its head so that [parseFloat] answers NaN, the entry of that record has
    score [+0]; the record still gets its entry in the output of
    [transformData]. *)
Theorem unparsable_score_is_zero (rows : list record) (row : record) :
  In row rows ->
  scoreStr row = Undefined
  \/ starts_with_number (scoreStr row) = false
  \/ isNaN (parseFloat (scoreStr row)) = true ->
  score (to_entry row) = num_zero /\ In (to_entry row) (transformData rows).
Proof.
  intros Hin Hbad. split; [| now apply transformData_In].
  assert (Hnan : isNaN (parseFloat (scoreStr row)) = true).
  { destruct Hbad as [Hmiss | [Hhead | Hnan]]; [| | exact Hnan].
    - rewrite Hmiss, parseFloat_undefined. reflexivity.
    - rewrite parseFloat_nan_iff, Hhead. reflexivity. }
  unfold to_entry. simpl. now rewrite Hnan.
Qed.

Lemma unparsable_score_is_zero_witness :
  score (to_entry row_bad_score) = num_zero
  /\ In (to_entry row_bad_score) (transformData [row_bad_score]).
Proof.
  apply (unparsable_score_is_zero [row_bad_score] row_bad_score).
  - left. reflexivity.
  - right. left. vm_compute. reflexivity.
Defined.

(* ----------------------------------------------------------------- *)
(** ** Transformer: which header a field is read from *)

Lemma js_or_chain (row : record) (a b c : jsstring) :
  js_or (js_or (obj_get row a) (obj_get row b)) (obj_get row c)
  = first_nonempty row [a; b; c].
Proof.
  unfold js_or, obj_get. simpl.
  destruct (row !! a) as [[| x s] |]; simpl;
    destruct (row !! b) as [[| y t] |]; simpl; reflexivity.
Qed.

Lemma firstName_spec row : firstName row = first_nonempty row FIRST_NAMES.
Proof. apply js_or_chain. Qed.

Lemma lastName_spec row : lastName row = first_nonempty row LAST_NAMES.
Proof. apply js_or_chain. Qed.

Lemma dealershipOf_spec row : dealershipOf row = first_nonempty row GROUPS.
Proof. apply js_or_chain. Qed.

Lemma scoreStr_spec row : scoreStr row = first_nonempty row SCORES.
Proof. apply js_or_chain. Qed.

(** The name is the two resolved parts, each left out when it is empty or
    missing, with one space between them when both are there. *)
Lemma name_spec (row : record) :
  name (to_entry row) =
    match text_of (firstName row), text_of (lastName row) with
    | [], l => l
    | f, [] => f
    | f, l => f ++ lit " " ++ l
    end.
Proof.
  unfold to_entry. simpl.
  destruct (firstName row) as [| [| c s]]; destruct (lastName row) as [| [| d t]];
    simpl; try reflexivity.
Qed.

(** C3, as stated, fails: in a record whose "Dealership" cell is empty and
    whose "Dealer" cell is "Acme", the first present alternative holds the
    empty string, yet the entry's group is "Acme". *)
Lemma first_present_counterexample :
  row_empty_group !! lit "Dealership" = Some (lit "")
  /\ first_present row_empty_group GROUPS = Str (lit "")
  /\ dealership (to_entry row_empty_group) = Str (lit "Acme")
  /\ dealership (to_entry row_empty_group) <> first_present row_empty_group GROUPS.
Proof.
  repeat split; try (vm_compute; reflexivity).
  vm_compute. discriminate.
Qed.

(** C3, amended: each field is read from the first alternative that holds a
    non-empty string, and from the last alternative when none does.  The
    group is that value; the score is the number parsed from it, [+0] when
    there is none; the name joins the non-empty ones of the first-name and
    last-name values with one space. *)
Theorem fields_from_first_nonempty (row : record) :
  dealership (to_entry row) = first_nonempty row GROUPS
  /\ score (to_entry row)
     = (let n := parseFloat (first_nonempty row SCORES) in
        if isNaN n then num_zero else n)
  /\ name (to_entry row)
     = match text_of (first_nonempty row FIRST_NAMES),
             text_of (first_nonempty row LAST_NAMES) with
       | [], l => l
       | f, [] => f
       | f, l => f ++ lit " " ++ l
       end.
Proof.
  rewrite name_spec, firstName_spec, lastName_spec.
  split; [| split]; try reflexivity.
  - unfold to_entry; simpl. apply dealershipOf_spec.
  - unfold to_entry; simpl. now rewrite scoreStr_spec.
Qed.

(** C8: a record with none of the first-name headers and at least one of the
    last-name headers gets, as its name, exactly a value it holds under a
    last-name header: the first non-empty one, with nothing before it. *)
Theorem name_of_last_name_only (row : record) :
  Forall (fun k => row !! k = None) FIRST_NAMES ->
  Exists (fun k => is_Some (row !! k)) LAST_NAMES ->
  name (to_entry row) = text_of (first_nonempty row LAST_NAMES)
  /\ exists k, In k LAST_NAMES /\ row !! k = Some (name (to_entry row)).
Proof.
  intros Hfirst Hlast.
  assert (Hf : firstName row = Undefined).
  { rewrite firstName_spec. unfold FIRST_NAMES in *.
    inversion Hfirst as [| ? ? H1 Hfirst']; subst.
    inversion Hfirst' as [| ? ? H2 Hfirst'']; subst.
    inversion Hfirst'' as [| ? ? H3 _]; subst.
    simpl. unfold obj_get. now rewrite H1, H2, H3. }
  assert (Hname : name (to_entry row) = text_of (first_nonempty row LAST_NAMES)).
  { rewrite name_spec, Hf, lastName_spec. simpl. reflexivity. }
  split; [exact Hname |].
  rewrite Hname. clear Hname Hf Hfirst.
  unfold LAST_NAMES in *. simpl. unfold obj_get.
  destruct (row !! lit "Last Name") as [[| c1 s1] |] eqn:E1;
    destruct (row !! lit "Last name") as [[| c2 s2] |] eqn:E2;
    destruct (row !! lit "Last") as [[| c3 s3] |] eqn:E3; simpl;
    try (exists (lit "Last Name"); split; [simpl; tauto | assumption]);
    try (exists (lit "Last name"); split; [simpl; tauto | assumption]);
    try (exists (lit "Last"); split; [simpl; tauto | assumption]).
  exfalso.
  apply Exists_cons in Hlast as [[? H] | Hlast]; [congruence |].
  apply Exists_cons in Hlast as [[? H] | Hlast]; [congruence |].
  apply Exists_cons in Hlast as [[? H] | Hlast]; [congruence |].
  inversion Hlast.
Qed.

Lemma name_of_last_name_only_witness :
  name (to_entry row_last_only) = text_of (first_nonempty row_last_only LAST_NAMES)
  /\ exists k, In k LAST_NAMES /\ row_last_only !! k = Some (name (to_entry row_last_only)).
Proof.
  apply (name_of_last_name_only row_last_only).
  - repeat constructor.
  - apply Exists_cons_hd. exists (lit "Lee"). reflexivity.
Defined.


(* ----------------------------------------------------------------- *)
(** ** Transformer: the ranked list *)

(** The comparator asks for a swap exactly when the first score is the
    smaller one. *)
Lemma by_score_positive (a b : entry) :
  num_ok (score a) -> num_ok (score b) ->
  is_positive (by_score a b) = negb (num_leb (score b) (score a)).
Proof. intros Ha Hb. unfold by_score. now apply sub_positive. Qed.

Lemma entries_ok (rows : list record) (e : entry) :
  In e (map to_entry rows) -> num_ok (score e).
Proof.
  intros H. apply in_map_iff in H as (row & <- & _). apply score_ok.
Qed.

Lemma entries_number (rows : list record) (e : entry) :
  In e (map to_entry rows) -> is_number (score e).
Proof.
  intros H. split; [apply num_ok_not_nan; now apply (entries_ok rows) |].
  apply in_map_iff in H as (row & <- & _). apply score_valid.
Qed.

Lemma transformData_In_iff (rows : list record) (e : entry) :
  In e (transformData rows) <-> In e (map to_entry rows).
Proof. apply js_sort_In. Qed.

(** The scores never increase, as real numbers. *)
Lemma transformData_sorted (rows : list record) :
  StronglySorted (fun a b => num_leb (score b) (score a) = true) (transformData rows).
Proof.
  unfold transformData. apply js_sort_sorted.
  - intros x y z Hxy Hyz. eapply num_leb_trans; eassumption.
  - intros x y Hx Hy H.
    rewrite by_score_positive in H by (eapply entries_ok; eassumption).
    now apply negb_false_iff in H.
  - intros x y Hx Hy H.
    rewrite by_score_positive in H by (eapply entries_ok; eassumption).
    apply negb_true_iff in H.
    apply num_leb_total; [| | exact H]; eapply entries_ok; eassumption.
Qed.

(** Entries that are never asked to swap keep the order of their records. *)
Lemma transformData_keeps (P : entry -> bool) (rows : list record) :
  (forall x y, In x (map to_entry rows) -> In y (map to_entry rows) ->
               P x = true -> P y = true -> num_leb (score y) (score x) = true) ->
  List.filter P (transformData rows) = List.filter P (map to_entry rows).
Proof.
  intros HP. unfold transformData. apply js_sort_filter.
  intros x y Hx Hy Px Py.
  rewrite by_score_positive by (eapply entries_ok; eassumption).
  apply negb_false_iff. now apply HP.
Qed.

(** C1: the scores of the list [transformData] returns are numbers (none is
    NaN), they never increase from an entry to any later one, and for every
    score the entries that have it stand in the order of their records.
    The comparisons are the ones of the language, [<=] and [===]. *)
Theorem transformData_sorted_stable (rows : list record) :
  Forall (fun e => is_number (score e)) (transformData rows)
  /\ StronglySorted (fun a b => SFleb (score b) (score a) = true) (transformData rows)
  /\ forall v : num,
       List.filter (fun e => SFeqb (score e) v) (transformData rows)
       = List.filter (fun e => SFeqb (score e) v) (map to_entry rows).
Proof.
  split; [| split].
  - apply List.Forall_forall. intros e He. apply (entries_number rows).
    now apply transformData_In_iff.
  - apply (StronglySorted_weaken (fun a b => num_leb (score b) (score a) = true));
      [| apply transformData_sorted].
    intros a b Ha Hb H. apply transformData_In_iff in Ha, Hb.
    rewrite <- num_leb_SFleb; [exact H | |]; now apply (entries_number rows).
  - intros v. apply transformData_keeps.
    intros x y Hx Hy Px Py.
    apply (SFeqb_leb (score y) (score x) v); try assumption;
      now apply (entries_ok rows).
Qed.

(** Whatever stable sort the engine runs, it returns what [transformData]
    returns: a list of numbers in non-increasing score order that keeps the
    entries of equal score in the order of the records is that list. *)
Corollary transformData_unique (rows : list record) (out : list entry) :
  (forall e, In e out -> is_number (score e)) ->
  StronglySorted (fun a b => score_geb a b = true) out ->
  (forall v : entry,
     In v out \/ In v (transformData rows) ->
     List.filter (same_class score_geb v) out
     = List.filter (same_class score_geb v) (map to_entry rows)) ->
  out = transformData rows.
Proof.
  intros Hnum Hs Hf.
  assert (Hv : forall v, In v out \/ In v (transformData rows) -> is_number (score v)).
  { intros v [Hv | Hv]; [now apply Hnum |].
    apply (entries_number rows). now apply transformData_In_iff. }
  apply (stable_sorted_unique score_geb).
  - exact Hs.
  - apply (StronglySorted_weaken (fun a b => num_leb (score b) (score a) = true));
      [| apply transformData_sorted].
    intros a b Ha Hb H. apply transformData_In_iff in Ha, Hb. unfold score_geb.
    rewrite <- num_leb_SFleb; [exact H | |]; now apply (entries_number rows).
  - intros x Hx. apply SFleb_refl. now apply Hnum.
  - intros x Hx. apply SFleb_refl. apply (entries_number rows).
    now apply transformData_In_iff.
  - intros v Hin. rewrite (Hf v Hin). symmetry. apply transformData_keeps.
    intros x y Hx Hy Px Py. unfold same_class, score_geb in Px, Py.
    apply andb_true_iff in Px as [_ Px]. apply andb_true_iff in Py as [Py _].
    pose proof (Hv v Hin) as [_ Hvv].
    pose proof (entries_number rows x Hx) as [_ Hxv].
    pose proof (entries_number rows y Hy) as [_ Hyv].
    rewrite <- num_leb_SFleb in Px, Py by assumption.
    eapply num_leb_trans; eassumption.
Qed.

Example transformData_ties :
  map name (transformData (parseCSV
    (lit "First,Score" ++ [LF] ++ lit "a,7" ++ [LF] ++ lit "b,9.5" ++ [LF]
     ++ lit "c,7.0" ++ [LF] ++ lit "d,x" ++ [LF] ++ lit "e,-0" ++ [LF] ++ lit "f,Infinity")))
  = [lit "f"; lit "b"; lit "a"; lit "c"; lit "d"; lit "e"].
Proof. vm_compute. reflexivity. Qed.

(** The end-to-end example: Bo Ray, with 95, is ranked before Ann Lee, with
    88. *)
Example transformData_two_rows :
  transformData (parseCSV csv_two_rows)
  = [ {| name := lit "Bo Ray"; dealership := Str (lit "Acme");
         score := S754_finite false 6685030696878080 (-46) |};
      {| name := lit "Ann Lee"; dealership := Str (lit "Acme");
         score := S754_finite false 6192449487634432 (-46) |} ]
  /\ 6685030696878080 = 95 * 2 ^ 46
  /\ 6192449487634432 = 88 * 2 ^ 46.
Proof. repeat split; vm_compute; reflexivity. Qed.

(* ----------------------------------------------------------------- *)
(** ** Fetcher: the first usable body wins *)

Lemma trim_nil_iff (s : jsstring) : trim s = [] <-> all_ws s = true.
Proof.
  unfold trim. rewrite trim_end_nil_iff, all_ws_trim_start. reflexivity.
Qed.

(** A body is returned exactly when it has a character that is not white
    space. *)
Lemma usable_spec (text : jsstring) : usable text = negb (all_ws text).
Proof.
  unfold usable. destruct text as [| c s]; [reflexivity |].
  cbn [truthy andb].
  destruct (all_ws (c :: s)) eqn:E.
  - apply trim_nil_iff in E. now rewrite E.
  - destruct (trim (c :: s)) as [| d r] eqn:Et; [| reflexivity].
    apply trim_nil_iff in Et. congruence.
Qed.

Section FetcherFacts.
Variable fetch : jsstring -> response.
Variable url : jsstring.

End FetcherFacts.





(* ----------------------------------------------------------------- *)
(** ** Parser: one row per line that is not empty *)

Lemma parseCSV_body (csv h : jsstring) (body tail : list jsstring) :
  split_lines csv = h :: body ++ tail ->
  all_ws h = false ->
  match last body with Some l => all_ws l = false | None => True end ->
  forallb all_ws tail = true ->
  parseCSV csv
  = map (row_of_line (header_names h)) (List.filter (fun l => negb (is_empty l)) body).
Proof.
  intros Hs Hh Hlast Htail.
  rewrite (parseCSV_lines csv h (body ++ tail) Hs Hh).
  now rewrite drop_trailing_ws_app.
Qed.

Example parseCSV_example :
  map (fun r => (r !! lit "Name", r !! lit "Score", r !! lit "Other")) (parseCSV csv_example)
  = [ (Some (lit "Ann"), Some (lit "7"), None);
      (Some (lit ""), Some (lit ""), None);
      (Some (lit "Bo"), Some (lit ""), None) ].
Proof. vm_compute. reflexivity. Qed.

(** A column named [__proto__] is no key of the row. *)
Example parseCSV_proto :
  map (fun r => (r !! lit "a", r !! PROTO))
      (parseCSV (lit "a,__proto__" ++ [LF] ++ lit "1,2"))
  = [ (Some (lit "1"), None) ].
Proof. vm_compute. reflexivity. Qed.

(** C4, as stated, fails: the same line of two spaces counts as a record
    when a data line follows it and as none when it ends the text, so the
    number of records is the number of data lines under neither reading of
    "blank line". *)
Lemma data_line_count_counterexample :
  (split_lines csv_blank_tail = [lit "a"; lit "1"; lit "  "]
   /\ length (parseCSV csv_blank_tail) = 1%nat)
  /\ (split_lines csv_blank_inside = [lit "a"; lit "  "; lit "1"]
      /\ length (parseCSV csv_blank_inside) = 2%nat).
Proof. repeat split; vm_compute; reflexivity. Qed.

(** C4, amended: for a text whose first line is a well-formed header, the
    Parser returns one record per line that is not empty, the white-space
    lines that end the text left out; the record of a line has a key for
    every header name, holding a trimmed value: the empty string at a
    position beyond the line's cells, the trimmed cell at the position of
    the header otherwise. *)
Theorem parseCSV_rows (csv h : jsstring) (body tail : list jsstring) :
  split_lines csv = h :: body ++ tail ->
  well_formed_header h ->
  match last body with Some l => all_ws l = false | None => True end ->
  forallb all_ws tail = true ->
  let data := List.filter (fun l => negb (is_empty l)) body in
  length (parseCSV csv) = length data
  /\ forall (i : nat) (l : jsstring),
       data !! i = Some l ->
       exists r : record,
         parseCSV csv !! i = Some r
         /\ (forall k, In k (header_names h) -> exists v, r !! k = Some v /\ trim v = v)
         /\ (forall idx k,
               header_names h !! idx = Some k ->
               (length (split_on COMMA l) <= idx)%nat ->
               r !! k = Some [])
         /\ (forall idx k c,
               header_names h !! idx = Some k ->
               ~ In k (drop (Datatypes.S idx) (header_names h)) ->
               split_on COMMA l !! idx = Some c ->
               r !! k = Some (trim c)).
Proof.
  intros Hs [Hh Hproto] Hlast Htail data.
  rewrite (parseCSV_body csv h body tail Hs Hh Hlast Htail). fold data.
  split; [apply length_map |].
  intros i l Hl. exists (row_of_line (header_names h) l).
  split; [now rewrite list_lookup_fmap, Hl |].
  assert (Hne : forall idx k, header_names h !! idx = Some k -> k <> PROTO).
  { intros idx k Hk ->. apply Hproto.
    apply list_elem_of_In. eapply list_elem_of_lookup_2. exact Hk. }
  destruct (make_row_spec (header_names h) (split_on COMMA l)) as (Hkey & Hbeyond & Hcell).
  split; [| split].
  - intros k Hk. apply Hkey; [exact Hk |]. intros ->. now apply Hproto.
  - intros idx k Hk Hlen. eapply Hbeyond; eauto.
  - intros idx k c Hk Hlastk Hc. eapply Hcell; eauto.
Qed.

Lemma parseCSV_rows_witness :
  let h := lit "Name, Score" in
  let body := [lit "Ann,7"; lit ""; lit "   "; lit "Bo"] in
  let data := List.filter (fun l => negb (is_empty l)) body in
  length (parseCSV csv_example) = length data
  /\ forall (i : nat) (l : jsstring),
       data !! i = Some l ->
       exists r : record,
         parseCSV csv_example !! i = Some r
         /\ (forall k, In k (header_names h) -> exists v, r !! k = Some v /\ trim v = v)
         /\ (forall idx k,
               header_names h !! idx = Some k ->
               (length (split_on COMMA l) <= idx)%nat ->
               r !! k = Some [])
         /\ (forall idx k c,
               header_names h !! idx = Some k ->
               ~ In k (drop (Datatypes.S idx) (header_names h)) ->
               split_on COMMA l !! idx = Some c ->
               r !! k = Some (trim c)).
Proof.
  apply (parseCSV_rows csv_example (lit "Name, Score")
           [lit "Ann,7"; lit ""; lit "   "; lit "Bo"] [lit ""]).
  - vm_compute. reflexivity.
  - split; [reflexivity |].
    vm_compute. intros [H | [H | []]]; discriminate.
  - reflexivity.
  - reflexivity.
Defined.

(** C9, as stated, fails: the last data line of [csv_blank_tail] is two
    spaces, it is not empty, and it gets no record. *)
Lemma whitespace_line_counterexample :
  split_lines csv_blank_tail = [lit "a"; lit "1"; lit "  "]
  /\ all_ws (lit "  ") = true
  /\ is_empty (lit "  ") = false
  /\ map (fun r => r !! lit "a") (parseCSV csv_blank_tail) = [Some (lit "1")].
Proof. repeat split; vm_compute; reflexivity. Qed.

(** C9, amended: when the header line has a character that is not white
    space, a data line of white space only gets a record unless it belongs
    to the white-space lines that end the text: the records are those of
    the lines that are not empty, up to the last line that has something
    other than white space, and the record of a white-space line holds the
    empty string under every header name other than [__proto__]. *)
Theorem whitespace_line_gets_a_row (csv h : jsstring) (body tail : list jsstring) :
  split_lines csv = h :: body ++ tail ->
  all_ws h = false ->
  match last body with Some l => all_ws l = false | None => True end ->
  forallb all_ws tail = true ->
  let kept := List.filter (fun l => negb (is_empty l)) body in
  length (parseCSV csv) = length kept
  /\ forall (i : nat) (l : jsstring),
       kept !! i = Some l ->
       all_ws l = true ->
       exists r : record,
         parseCSV csv !! i = Some r
         /\ forall k, In k (header_names h) -> k <> PROTO -> r !! k = Some [].
Proof.
  intros Hs Hh Hlast Htail kept.
  rewrite (parseCSV_body csv h body tail Hs Hh Hlast Htail). fold kept.
  split; [apply length_map |].
  intros i l Hl Hws. exists (row_of_line (header_names h) l).
  split; [now rewrite list_lookup_fmap, Hl |].
  intros k Hk Hp. now apply make_row_all_ws.
Qed.

Lemma whitespace_line_gets_a_row_witness :
  let h := lit "Name, Score" in
  let kept := List.filter (fun l => negb (is_empty l))
                [lit "Ann,7"; lit ""; lit "   "; lit "Bo"] in
  length (parseCSV csv_example) = length kept
  /\ forall (i : nat) (l : jsstring),
       kept !! i = Some l ->
       all_ws l = true ->
       exists r : record,
         parseCSV csv_example !! i = Some r
         /\ forall k, In k (header_names h) -> k <> PROTO -> r !! k = Some [].
Proof.
  apply (whitespace_line_gets_a_row csv_example (lit "Name, Score")
           [lit "Ann,7"; lit ""; lit "   "; lit "Bo"] [lit ""]).
  - vm_compute. reflexivity.
  - reflexivity.
  - reflexivity.
  - reflexivity.
Defined.

(* ----------------------------------------------------------------- *)
(** ** Renderer: the rows are replaced *)

Section RendererFacts.
Variable number_to_string : num -> jsstring.

Lemma forEach_rows_from (data : list entry) :
  forall (idx : nat) (kids : list node),
    forEach_from (fun kids e index => kids ++ [row_of number_to_string e index]) idx data kids
    = kids ++ imap (fun i e => row_of number_to_string e (idx + i)) data.
Proof.
  induction data as [| e data IH]; intros idx kids; simpl.
  - now rewrite app_nil_r.
  - rewrite IH, <- app_assoc. simpl. rewrite Nat.add_0_r.
    do 2 f_equal. apply imap_ext. intros i x _. simpl. f_equal. lia.
Qed.

(** On a page that has the display surface, a call leaves one row per
    entry, in order, whatever the surface held before. *)
Lemma renderLeaderboard_rows (data : list entry) (old : list node) :
  renderLeaderboard number_to_string data (Some old)
  = Some (imap (fun i e => row_of number_to_string e i) data).
Proof.
  unfold renderLeaderboard, forEach. now rewrite forEach_rows_from.
Qed.

(** On a page without it, a call does nothing. *)
Lemma renderLeaderboard_absent (data : list entry) :
  renderLeaderboard number_to_string data None = None.
Proof. reflexivity. Qed.
End RendererFacts.

(** The first row of the end-to-end example carries the class [rank-1] and
    the badge text [#1]. *)
Example render_two_rows (number_to_string : num -> jsstring) :
  exists cells second,
    renderLeaderboard number_to_string (transformData (parseCSV csv_two_rows)) (Some [])
    = Some [ Element "tr" "rank-1" []
               (Element "td" "text-center py-2 px-2" []
                  [Element "span" "rank-badge"
                     [("backgroundColor", "#3893B7"); ("borderColor", "#21A4D2");
                      ("color", "#FCF7EF")]
                     [Text (lit "#1")]] :: cells);
             second ].
Proof.
  rewrite renderLeaderboard_rows.
  destruct (transformData (parseCSV csv_two_rows)) as [| e1 [| e2 [| e3 l]]] eqn:E;
    try (vm_compute in E; discriminate).
  cbn [imap]. do 2 eexists. reflexivity.
Qed.

(** C7: after a call with five entries and then a call with two, the display
    surface holds exactly two rows, the rows of the two entries of the
    second call in order; nothing of the first call or of the earlier
    content is left. *)
Theorem render_twice_leaves_second (number_to_string : num -> jsstring)
    (first second : list entry) (old : list node) :
  length first = 5%nat ->
  length second = 2%nat ->
  exists rows : list node,
    renderLeaderboard number_to_string second
      (renderLeaderboard number_to_string first (Some old)) = Some rows
    /\ length rows = 2%nat
    /\ forall (i : nat) (e : entry),
         second !! i = Some e -> rows !! i = Some (row_of number_to_string e i).
Proof.
  intros _ H2. rewrite renderLeaderboard_rows.
  exists (imap (fun i e => row_of number_to_string e i) second).
  split; [apply renderLeaderboard_rows |].
  split; [now rewrite length_imap |].
  intros i e Hi. rewrite list_lookup_imap, Hi. reflexivity.
Qed.

Lemma render_twice_leaves_second_witness :
  exists rows : list node,
    renderLeaderboard show_nothing (map entry_example [54; 55]%N)
      (renderLeaderboard show_nothing (map entry_example [49; 50; 51; 52; 53]%N) (Some []))
    = Some rows
    /\ length rows = 2%nat
    /\ forall (i : nat) (e : entry),
         map entry_example [54; 55]%N !! i = Some e ->
         rows !! i = Some (row_of show_nothing e i).
Proof.
  apply (render_twice_leaves_second show_nothing
           (map entry_example [49; 50; 51; 52; 53]%N) (map entry_example [54; 55]%N) []).
  - reflexivity.
  - reflexivity.
Defined.

(* ----------------------------------------------------------------- *)
(** ** Orchestration: a failed cycle leaves the display alone *)

Section OrchestrationFacts.
Variable fetch : jsstring -> response.
Variable number_to_string : num -> jsstring.

(** The cycle fails exactly when the Fetcher does: the other three stages
    are total functions of their input. *)
Lemma cycle_fails_iff (tbody : option (list node)) (e : error) :
  cycle fetch number_to_string tbody = inl e
  <-> snd (fetchCSV fetch SHEET_CSV_URL) = inl e.
Proof.
  unfold cycle. destruct (snd (fetchCSV fetch SHEET_CSV_URL)) as [e' | csv].
  - split; intros H; inversion H; reflexivity.
  - split; discriminate.
Qed.

(** A cycle that succeeds leaves the complete render of the fetched sheet. *)
Lemma refresh_success (p : page) (csv : jsstring) :
  snd (fetchCSV fetch SHEET_CSV_URL) = inr csv ->
  refreshLeaderboard fetch number_to_string p
  = {| display := renderLeaderboard number_to_string
                    (transformData (parseCSV csv)) (display p);
       console := console p |}.
Proof.
  intros H. unfold refreshLeaderboard, cycle. now rewrite H.
Qed.
End OrchestrationFacts.


(* ----------------------------------------------------------------- *)
(** ** Fetcher: which error is thrown, and what is requested *)

Section FetcherMore.
Variable fetch : jsstring -> response.
Variable url : jsstring.

Lemma fetch_loop_passed (p t : jsstring) (rest : list jsstring)
    (lastError : option error) (requested : list jsstring) :
  target_of p url = Some t ->
  delivers (fetch t) = None ->
  fetch_loop fetch url (p :: rest) lastError requested
  = fetch_loop fetch url rest
      (match raises (fetch t) with Some e => Some e | None => lastError end)
      (requested ++ [t]).
Proof.
  intros Ht Hd. cbn [fetch_loop]. rewrite Ht. unfold delivers, raises in *.
  destruct (fetch t) as [r | status [text | r]]; try reflexivity.
  - destruct (ok status); cbn [negb andb] in *; [| reflexivity].
    destruct (usable text); [discriminate | reflexivity].
  - destruct (ok status); reflexivity.
Qed.

(** When no strategy of a run delivers, every target is requested and the
    error left is the one of the last strategy that threw. *)
Lemma fetch_loop_exhausted (strategies : list jsstring) :
  forall (lastError : option error) (requested : list jsstring),
    Forall (passed_over fetch url) strategies ->
    fetch_loop fetch url strategies lastError requested
    = (requested ++ targets_of url strategies,
       inl (default UnableToFetch
              (last_raised lastError (map fetch (targets_of url strategies))))).
Proof.
  induction strategies as [| p rest IH]; intros lastError requested Hall.
  - cbn. now rewrite app_nil_r.
  - inversion Hall as [| ? ? [t [Ht Hd]] Hrest]; subst.
    rewrite (fetch_loop_passed p t rest lastError requested Ht Hd).
    rewrite (IH _ _ Hrest). cbn [targets_of]. rewrite Ht.
    cbn [map last_raised fold_left]. now rewrite <- app_assoc.
Qed.

(** What a run returns is what its last request delivered. *)
Lemma fetch_loop_returns (strategies : list jsstring) :
  forall (lastError : option error) (requested : list jsstring) (text : jsstring),
    snd (fetch_loop fetch url strategies lastError requested) = inr text ->
    exists t, last (fst (fetch_loop fetch url strategies lastError requested)) = Some t
              /\ delivers (fetch t) = Some text.
Proof.
  induction strategies as [| p rest IH]; intros lastError requested text H.
  - cbn in H. discriminate.
  - cbn [fetch_loop] in *. destruct (target_of p url) as [t |]; [| cbn in H; discriminate].
    unfold delivers.
    destruct (fetch t) as [r | status [body | r]] eqn:Ef; try (now apply IH).
    + destruct (ok status) eqn:Eok; cbn [negb] in *; [| now apply IH].
      destruct (usable body) eqn:Eu; [| now apply IH].
      cbn in H. inversion H; subst. exists t. cbn [fst].
      rewrite last_snoc, Ef, Eok, Eu. split; reflexivity.
    + destruct (ok status); cbn [negb] in *; now apply IH.
Qed.

(** The requests of a run are the targets of its strategies, in order, up
    to some point. *)
Lemma fetch_loop_requests (strategies : list jsstring) :
  forall (lastError : option error) (requested : list jsstring),
    exists done,
      fst (fetch_loop fetch url strategies lastError requested) = requested ++ done
      /\ done `prefix_of` targets_of url strategies.
Proof.
  induction strategies as [| p rest IH]; intros lastError requested.
  - exists []. cbn. split; [now rewrite app_nil_r | apply prefix_nil].
  - cbn [fetch_loop targets_of]. destruct (target_of p url) as [t |].
    + assert (Hgo : forall le,
        exists done,
          fst (fetch_loop fetch url rest le (requested ++ [t])) = requested ++ done
          /\ done `prefix_of` t :: targets_of url rest).
      { intros le. destruct (IH le (requested ++ [t])) as (done & Hd & Hp).
        exists (t :: done). split; [now rewrite Hd, <- app_assoc |].
        now apply prefix_cons. }
      destruct (fetch t) as [r | status [body | r]]; try apply Hgo.
      * destruct (ok status); cbn [negb]; [| apply Hgo].
        destruct (usable body); [| apply Hgo].
        exists [t]. split; [reflexivity |]. apply prefix_cons, prefix_nil.
      * destruct (ok status); cbn [negb]; apply Hgo.
    + exists []. cbn. split; [now rewrite app_nil_r | apply prefix_nil].
Qed.

(** The direct request is always made. *)
Lemma fetchCSV_head : head (fst (fetchCSV fetch url)) = Some url.
Proof.
  unfold fetchCSV, proxies.
  remember [lit "https://corsproxy.io/?"; lit "https://api.allorigins.win/raw?url="] as rest.
  change (lit "") with (@nil N). cbn [fetch_loop target_of app].
  assert (Hgo : forall le, head (fst (fetch_loop fetch url rest le [url])) = Some url).
  { intros le. destruct (fetch_loop_requests rest le [url]) as (done & -> & _). reflexivity. }
  destruct (fetch url) as [r | status [body | r]]; try apply Hgo.
  - destruct (ok status); cbn [negb]; [| apply Hgo].
    destruct (usable body); [reflexivity | apply Hgo].
  - destruct (ok status); cbn [negb]; apply Hgo.
Qed.
End FetcherMore.

Lemma raises_not_unable (r : response) : raises r <> Some UnableToFetch.
Proof.
  unfold raises. destruct r as [reason | status [text | reason]];
    try destruct (ok status); discriminate.
Qed.

Lemma last_raised_none (rs : list response) :
  forall start,
    last_raised start rs = None <-> start = None /\ Forall (fun r => raises r = None) rs.
Proof.
  unfold last_raised. induction rs as [| r rs IH]; intros start; cbn [fold_left].
  - split; [intros ->; split; [reflexivity | constructor] | now intros [-> _]].
  - rewrite IH. destruct (raises r) as [e |] eqn:E.
    + split; [intros [H _]; discriminate | intros [_ H]; inversion H; congruence].
    + split; [intros [-> H]; split; [reflexivity | now constructor]
             | intros [-> H]; inversion H; now split].
Qed.

Lemma last_raised_some (rs : list response) :
  forall start e,
    last_raised start rs = Some e ->
    start = Some e \/ exists r, In r rs /\ raises r = Some e.
Proof.
  unfold last_raised. induction rs as [| r rs IH]; intros start e H; cbn [fold_left] in H.
  - now left.
  - apply IH in H as [H | (r' & Hin & Hr)].
    + destruct (raises r) as [e' |] eqn:E; [| now left].
      right. exists r. split; [now left | congruence].
    + right. exists r'. split; [now right | exact Hr].
Qed.

(** X1: when the URL can be encoded and no strategy delivers a body, the
    call requests the three targets in the declared order and throws the
    error of the last strategy that threw.  A blank body throws nothing, so
    it never replaces an earlier error; the error is the fallback
    ['Unable to fetch CSV'] exactly when no strategy threw, that is when
    all three answered 2xx with a body that could be read and was blank. *)
Theorem fetchCSV_last_error (fetch : jsstring -> response) (url enc : jsstring) :
  encodeURIComponent url = Some enc ->
  let targets := [url; lit "https://corsproxy.io/?" ++ enc;
                  lit "https://api.allorigins.win/raw?url=" ++ enc] in
  Forall (fun t => delivers (fetch t) = None) targets ->
  fetchCSV fetch url
  = (targets, inl (default UnableToFetch (last_raised None (map fetch targets))))
  /\ (snd (fetchCSV fetch url) = inl UnableToFetch
      <-> Forall (fun t => raises (fetch t) = None) targets).
Proof.
  intros Henc targets Hall.
  assert (Ht : targets_of url proxies = targets).
  { unfold proxies, targets. cbn [targets_of target_of lit list_ascii_of_string map].
    rewrite Henc. reflexivity. }
  assert (Hrun : fetchCSV fetch url
    = (targets, inl (default UnableToFetch (last_raised None (map fetch targets))))).
  { unfold fetchCSV. rewrite fetch_loop_exhausted, Ht; [reflexivity |].
    inversion Hall as [| ? ? H1 Hall1]; subst.
    inversion Hall1 as [| ? ? H2 Hall2]; subst.
    inversion Hall2 as [| ? ? H3 _]; subst.
    repeat constructor.
    - exists url. split; [reflexivity | exact H1].
    - eexists. split; [| exact H2]. cbn. now rewrite Henc.
    - eexists. split; [| exact H3]. cbn. now rewrite Henc. }
  split; [exact Hrun |].
  rewrite Hrun. cbn [snd]. rewrite <- (Forall_fmap fetch (fun r => raises r = None) targets).
  change (fetch <$> targets) with (map fetch targets).
  destruct (last_raised None (map fetch targets)) as [e |] eqn:E.
  - cbn [default]. split.
    + intros H. inversion H; subst.
      apply last_raised_some in E as [E | (r & _ & Hr)]; [discriminate |].
      now apply raises_not_unable in Hr.
    + intros H. assert (last_raised None (map fetch targets) = None) as Hn
        by (apply last_raised_none; now split).
      congruence.
  - split; [| reflexivity]. intros _. now apply last_raised_none in E as [_ E].
Qed.

Lemma fetchCSV_last_error_witness :
  fetchCSV fetch_blank_after_error url_example
  = ([url_example;
      lit "https://corsproxy.io/?https%3A%2F%2Fexample.org%2Fsheet.csv";
      lit "https://api.allorigins.win/raw?url=https%3A%2F%2Fexample.org%2Fsheet.csv"],
     inl (HttpError 503)).
Proof.
  apply (proj1 (fetchCSV_last_error fetch_blank_after_error url_example
                  (lit "https%3A%2F%2Fexample.org%2Fsheet.csv") ltac:(vm_compute; reflexivity)
                  ltac:(repeat constructor))).
Defined.

(** X2: when the URL cannot be encoded (a surrogate is not paired) and the
    direct request delivers nothing, the call throws the [URIError] after
    that one request.  The target is computed outside the [try]: no proxy
    is requested and the error of the direct request is lost. *)
Theorem fetchCSV_uri_error (fetch : jsstring -> response) (url : jsstring) :
  encodeURIComponent url = None ->
  delivers (fetch url) = None ->
  fetchCSV fetch url = ([url], inl URIError).
Proof.
  intros Henc Hd. unfold fetchCSV, proxies.
  rewrite (fetch_loop_passed fetch url (lit "") url _ None [] eq_refl Hd).
  cbn [fetch_loop target_of lit list_ascii_of_string map app]. rewrite Henc. reflexivity.
Qed.

Lemma fetchCSV_uri_error_witness :
  fetchCSV fetch_offline url_lone_surrogate = ([url_lone_surrogate], inl URIError).
Proof.
  apply fetchCSV_uri_error.
  - vm_compute. reflexivity.
  - reflexivity.
Defined.

(** X3: a text the call returns has a character that is not white space,
    and it is the body of the response to the last request made, a response
    whose status is in 200..299. *)
Theorem fetchCSV_returns_delivered (fetch : jsstring -> response) (url text : jsstring) :
  snd (fetchCSV fetch url) = inr text ->
  all_ws text = false
  /\ exists t status,
       last (fst (fetchCSV fetch url)) = Some t
       /\ fetch t = Response status (BodyText text)
       /\ ok status = true.
Proof.
  intros H. apply fetch_loop_returns in H as (t & Hlast & Hd).
  unfold delivers in Hd.
  destruct (fetch t) as [r | status [body | r]] eqn:Ef; try discriminate.
  destruct (ok status) eqn:Eok; cbn [andb] in Hd; [| discriminate].
  destruct (usable body) eqn:Eu; [| discriminate].
  inversion Hd; subst. rewrite usable_spec in Eu. apply negb_true_iff in Eu.
  split; [exact Eu |]. exists t, status. repeat split; assumption.
Qed.

Lemma fetchCSV_returns_delivered_witness :
  all_ws (lit "Score,First" ++ [LF] ++ lit "7,Ann") = false
  /\ exists t status,
       last (fst (fetchCSV fetch_second_ok url_example)) = Some t
       /\ fetch_second_ok t = Response status (BodyText (lit "Score,First" ++ [LF] ++ lit "7,Ann"))
       /\ ok status = true.
Proof.
  apply (fetchCSV_returns_delivered fetch_second_ok url_example).
  vm_compute. reflexivity.
Defined.

(** X4: whatever the network answers, the first request goes to the URL
    itself, and the requests made are the targets of the strategies in the
    declared order, up to some point: no strategy is tried twice or out of
    turn, nothing else is requested, and there are three requests at
    most. *)
Theorem fetchCSV_requests (fetch : jsstring -> response) (url : jsstring) :
  head (fst (fetchCSV fetch url)) = Some url
  /\ fst (fetchCSV fetch url) `prefix_of` targets_of url proxies
  /\ (length (fst (fetchCSV fetch url)) <= 3)%nat.
Proof.
  split; [apply fetchCSV_head |].
  destruct (fetch_loop_requests fetch url proxies None []) as (done & Hd & Hp).
  unfold fetchCSV. rewrite Hd. cbn [app].
  split; [exact Hp |].
  apply prefix_length in Hp. etransitivity; [exact Hp |].
  unfold proxies. cbn [targets_of].
  repeat (destruct (target_of _ url); cbn [targets_of length]; try lia).
Qed.

(* ----------------------------------------------------------------- *)
(** ** Fetcher: a URL that can always be encoded *)

Lemma encodeURIComponent_defined (s : jsstring) :
  no_surrogates s = true -> exists enc, encodeURIComponent s = Some enc.
Proof.
  induction s as [| c s IH]; [now exists [] |].
  unfold no_surrogates. cbn [forallb]. intros H. apply andb_true_iff in H as [Hc Hs].
  apply negb_true_iff, orb_false_iff in Hc as [Hl Ht].
  destruct (IH Hs) as [enc Henc]. cbn [encodeURIComponent]. rewrite Henc, Hl, Ht.
  destruct (uri_unreserved c); eexists; reflexivity.
Qed.

Lemma fetch_loop_no_uri_error (fetch : jsstring -> response) (url enc : jsstring)
    (strategies : list jsstring) :
  encodeURIComponent url = Some enc ->
  forall (lastError : option error) (requested : list jsstring),
    lastError <> Some URIError ->
    snd (fetch_loop fetch url strategies lastError requested) <> inl URIError.
Proof.
  intros Henc. induction strategies as [| p rest IH]; intros lastError requested Hle.
  - cbn. destruct lastError as [e |]; [| discriminate]. congruence.
  - cbn [fetch_loop].
    assert (Ht : exists t, target_of p url = Some t).
    { unfold target_of. destruct p; [now eexists |]. rewrite Henc. now eexists. }
    destruct Ht as [t ->].
    destruct (fetch t) as [r | status [body | r]]; try (apply IH; discriminate).
    + destruct (ok status); cbn [negb]; [| apply IH; discriminate].
      destruct (usable body); [discriminate | now apply IH].
    + destruct (ok status); cbn [negb]; apply IH; discriminate.
Qed.

(** X5: for a URL without surrogate code units the call never throws a
    [URIError], whatever the network answers. *)
Theorem fetchCSV_no_uri_error (fetch : jsstring -> response) (url : jsstring) :
  no_surrogates url = true ->
  snd (fetchCSV fetch url) <> inl URIError.
Proof.
  intros H. destruct (encodeURIComponent_defined url H) as [enc Henc].
  unfold fetchCSV. now apply (fetch_loop_no_uri_error fetch url enc).
Qed.

Lemma fetchCSV_no_uri_error_witness :
  snd (fetchCSV fetch_offline SHEET_CSV_URL) <> inl URIError.
Proof.
  apply fetchCSV_no_uri_error. vm_compute. reflexivity.
Defined.

(* ----------------------------------------------------------------- *)
(** ** Fetcher: the targets of the proxy strategies *)

(** [lia] on goals with divisions and remainders by constants. *)
Ltac div_lia := zify; Z.to_euclidean_division_equations; lia.

Lemma hex_digit_is_hex (n : N) : (n < 16)%N -> is_hex (hex_digit n) = true.
Proof.
  intros H. unfold is_hex, hex_digit.
  destruct (N.ltb_spec n 10);
    repeat match goal with
           | |- context [(?a <=? ?b)%N] => destruct (N.leb_spec a b)
           end; try reflexivity; lia.
Qed.

Lemma hex_digit_inj (a b : N) :
  (a < 16)%N -> (b < 16)%N -> hex_digit a = hex_digit b -> a = b.
Proof.
  unfold hex_digit. intros Ha Hb.
  destruct (N.ltb_spec a 10), (N.ltb_spec b 10); lia.
Qed.

Lemma percent_inj (o1 o2 : N) (r1 r2 : jsstring) :
  (o1 < 256)%N -> (o2 < 256)%N ->
  percent o1 ++ r1 = percent o2 ++ r2 -> o1 = o2 /\ r1 = r2.
Proof.
  intros H1 H2 H. unfold percent in H. cbn [app] in H.
  injection H as Hhi Hlo Hr.
  apply hex_digit_inj in Hhi; [| div_lia | div_lia].
  apply hex_digit_inj in Hlo; [| div_lia | div_lia].
  split; [div_lia | exact Hr].
Qed.

Lemma unreserved_not_percent (c : N) : uri_unreserved c = true -> (c =? 37)%N = false.
Proof.
  intros H. destruct (N.eqb_spec c 37) as [-> |]; [discriminate | reflexivity].
Qed.

Lemma escaped_unreserved (c : N) (r : jsstring) :
  uri_unreserved c = true -> escaped (c :: r) = escaped r.
Proof.
  intros H. cbn [escaped]. now rewrite (unreserved_not_percent c H), H.
Qed.

Lemma escaped_percent (o : N) (r : jsstring) :
  (o < 256)%N -> escaped (percent o ++ r) = escaped r.
Proof.
  intros H. unfold percent. cbn [app escaped]. cbn [N.eqb Pos.eqb].
  rewrite !hex_digit_is_hex by div_lia. reflexivity.
Qed.

Lemma escaped_percents (os : list N) (r : jsstring) :
  Forall (fun o => (o < 256)%N) os ->
  escaped (concat (map percent os) ++ r) = escaped r.
Proof.
  induction 1 as [| o os Ho _ IH]; [reflexivity |].
  cbn [map concat]. rewrite <- app_assoc, escaped_percent by exact Ho. exact IH.
Qed.

Lemma utf8_octets (cp : N) :
  (cp < 1114112)%N -> Forall (fun o => (o < 256)%N) (utf8 cp).
Proof.
  intros H. unfold utf8.
  destruct (N.ltb_spec cp 128); [| destruct (N.ltb_spec cp 2048);
    [| destruct (N.ltb_spec cp 65536)]];
    repeat constructor; div_lia.
Qed.

Lemma escaped_emit (cp : N) (r : jsstring) :
  (cp < 1114112)%N -> escaped (emit cp ++ r) = escaped r.
Proof.
  intros H. unfold emit. destruct (uri_unreserved cp) eqn:E.
  - now apply escaped_unreserved.
  - now apply escaped_percents, utf8_octets.
Qed.

Lemma emit_not_nil (cp : N) (r : jsstring) : emit cp ++ r <> [].
Proof.
  unfold emit. destruct (uri_unreserved cp); [discriminate |].
  unfold utf8.
  destruct (cp <? 128)%N; [discriminate |].
  destruct (cp <? 2048)%N; [discriminate |].
  destruct (cp <? 65536)%N; discriminate.
Qed.

(** One step of [encodeURIComponent]. *)
Lemma encodeURIComponent_step (s t : jsstring) :
  s <> [] ->
  encodeURIComponent s = Some t ->
  exists cp rest t',
    next_code_point s = Some (cp, rest)
    /\ encodeURIComponent rest = Some t'
    /\ t = emit cp ++ t'
    /\ (length rest < length s)%nat.
Proof.
  destruct s as [| c s']; [congruence |]. intros _ H.
  cbn [encodeURIComponent next_code_point] in *. unfold emit.
  destruct (uri_unreserved c) eqn:Eu.
  - destruct (encodeURIComponent s') as [t' |] eqn:Et; [| discriminate].
    inversion H; subst. exists c, s', t'. rewrite Eu. cbn. repeat split; [exact Et | lia].
  - destruct (is_trail c); [discriminate |].
    destruct (is_lead c).
    + destruct s' as [| d s'']; [discriminate |].
      destruct (is_trail d); [| discriminate].
      destruct (encodeURIComponent s'') as [t' |] eqn:Et'; [| discriminate].
      inversion H; subst. eexists _, s'', t'.
      split; [reflexivity |]. split; [exact Et' |].
      assert (Hp : uri_unreserved ((c - 55296) * 1024 + (d - 56320) + 65536)%N = false).
      { unfold uri_unreserved.
        repeat match goal with
               | |- context [(?a <=? ?b)%N] => destruct (N.leb_spec a b); try lia
               | |- context [(?a =? ?b)%N] => destruct (N.eqb_spec a b); try lia
               end; reflexivity. }
      rewrite Hp. split; [reflexivity | cbn; lia].
    + destruct (encodeURIComponent s') as [t' |] eqn:Et; [| discriminate].
      inversion H; subst. exists c, s', t'. rewrite Eu. cbn. repeat split; [exact Et | lia].
Qed.

Lemma next_code_point_bound (s rest : jsstring) (cp : N) :
  code_units s = true ->
  next_code_point s = Some (cp, rest) ->
  (cp < 1114112)%N /\ code_units rest = true.
Proof.
  destruct s as [| c s']; [discriminate |].
  unfold code_units. cbn [forallb next_code_point]. intros Hs H.
  apply andb_true_iff in Hs as [Hc Hs]. apply N.ltb_lt in Hc.
  destruct (uri_unreserved c); [inversion H; subst; split; [lia | exact Hs] |].
  destruct (is_trail c); [discriminate |].
  destruct (is_lead c) eqn:El.
  - destruct s' as [| d s'']; [discriminate |].
    destruct (is_trail d) eqn:Et; [| discriminate].
    cbn [forallb] in Hs. apply andb_true_iff in Hs as [Hd Hs]. apply N.ltb_lt in Hd.
    inversion H; subst. split; [| exact Hs].
    unfold is_lead, is_trail in *.
    apply andb_true_iff in El as [El1 El2]. apply andb_true_iff in Et as [Et1 Et2].
    apply N.leb_le in El1, El2, Et1, Et2. lia.
  - inversion H; subst. split; [lia | exact Hs].
Qed.

(** The code units a code point was read from are determined by it. *)
Lemma next_code_point_inj (s1 s2 r1 r2 : jsstring) (cp : N) :
  code_units s1 = true -> code_units s2 = true ->
  next_code_point s1 = Some (cp, r1) ->
  next_code_point s2 = Some (cp, r2) ->
  exists pre, s1 = pre ++ r1 /\ s2 = pre ++ r2.
Proof.
  assert (Hcases : forall s r,
    code_units s = true -> next_code_point s = Some (cp, r) ->
    ((cp < 65536)%N /\ s = cp :: r)
    \/ ((65536 <= cp)%N /\
        s = (55296 + (cp - 65536) / 1024)%N :: (56320 + (cp - 65536) mod 1024)%N :: r)).
  { intros s r Hs H. destruct s as [| c s']; [discriminate |].
    unfold code_units in Hs. cbn [forallb next_code_point] in *.
    apply andb_true_iff in Hs as [Hc Hs]. apply N.ltb_lt in Hc.
    destruct (uri_unreserved c); [inversion H; subst; left; split; [lia | reflexivity] |].
    destruct (is_trail c); [discriminate |].
    destruct (is_lead c) eqn:El.
    - destruct s' as [| d s'']; [discriminate |].
      destruct (is_trail d) eqn:Et; [| discriminate].
      inversion H; subst. right.
      unfold is_lead, is_trail in *.
      apply andb_true_iff in El as [El1 El2]. apply andb_true_iff in Et as [Et1 Et2].
      apply N.leb_le in El1, El2, Et1, Et2.
      split; [lia |]. f_equal; [div_lia | f_equal; div_lia].
    - inversion H; subst. left. split; [lia | reflexivity]. }
  intros Hs1 Hs2 H1 H2.
  destruct (Hcases s1 r1 Hs1 H1) as [[Hlt1 ->] | [Hge1 ->]],
           (Hcases s2 r2 Hs2 H2) as [[Hlt2 ->] | [Hge2 ->]]; try lia.
  - exists [cp]. split; reflexivity.
  - eexists [_; _]. split; reflexivity.
Qed.

(** The octets of a code point, and the code point they denote. *)
Lemma utf8_cases (cp : N) :
  (cp < 1114112)%N ->
  ((cp < 128)%N /\ utf8 cp = [cp])
  \/ (exists a b, utf8 cp = [a; b]
        /\ (192 <= a < 224)%N /\ (128 <= b < 192)%N
        /\ cp = ((a - 192) * 64 + (b - 128))%N)
  \/ (exists a b c, utf8 cp = [a; b; c]
        /\ (224 <= a < 240)%N /\ (128 <= b < 192)%N /\ (128 <= c < 192)%N
        /\ cp = ((a - 224) * 4096 + (b - 128) * 64 + (c - 128))%N)
  \/ (exists a b c d, utf8 cp = [a; b; c; d]
        /\ (240 <= a < 248)%N /\ (128 <= b < 192)%N /\ (128 <= c < 192)%N
        /\ (128 <= d < 192)%N
        /\ cp = ((a - 240) * 262144 + (b - 128) * 4096 + (c - 128) * 64 + (d - 128))%N).
Proof.
  intros H. unfold utf8.
  destruct (N.ltb_spec cp 128); [left; split; [assumption | reflexivity] | right].
  destruct (N.ltb_spec cp 2048).
  { left. do 2 eexists. split; [reflexivity |]. repeat split; div_lia. }
  right. destruct (N.ltb_spec cp 65536).
  { left. do 3 eexists. split; [reflexivity |]. repeat split; div_lia. }
  right. do 4 eexists. split; [reflexivity |]. repeat split; div_lia.
Qed.

Lemma emit_inj (cp1 cp2 : N) (t1 t2 : jsstring) :
  (cp1 < 1114112)%N -> (cp2 < 1114112)%N ->
  emit cp1 ++ t1 = emit cp2 ++ t2 -> cp1 = cp2 /\ t1 = t2.
Proof.
  intros H1 H2. unfold emit.
  assert (Hhead : forall cp t c r,
    concat (map percent (utf8 cp)) ++ t = c :: r -> c = 37%N).
  { intros cp t c r. unfold utf8.
    destruct (cp <? 128)%N; [| destruct (cp <? 2048)%N; [| destruct (cp <? 65536)%N]];
      cbn; intros H; now inversion H. }
  destruct (uri_unreserved cp1) eqn:E1, (uri_unreserved cp2) eqn:E2.
  - cbn. intros H. now inversion H.
  - cbn [app]. intros H. symmetry in H. apply Hhead in H. subst. discriminate.
  - cbn [app]. intros H. apply Hhead in H. subst. discriminate.
  - destruct (utf8_cases cp1 H1)
      as [[B1 ->] | [(a1 & b1 & -> & Ba1 & Bb1 & V1)
         | [(a1 & b1 & c1 & -> & Ba1 & Bb1 & Bc1 & V1)
           | (a1 & b1 & c1 & d1 & -> & Ba1 & Bb1 & Bc1 & Bd1 & V1)]]];
    destruct (utf8_cases cp2 H2)
      as [[B2 ->] | [(a2 & b2 & -> & Ba2 & Bb2 & V2)
         | [(a2 & b2 & c2 & -> & Ba2 & Bb2 & Bc2 & V2)
           | (a2 & b2 & c2 & d2 & -> & Ba2 & Bb2 & Bc2 & Bd2 & V2)]]];
    intros Heq; cbn [map concat] in Heq; rewrite <- ?app_assoc in Heq;
    repeat match goal with
           | H : percent ?a ++ _ = percent ?b ++ _ |- _ =>
               apply percent_inj in H; [| lia | lia];
               let H' := fresh "Hrest" in destruct H as [? H']
           end;
    try (exfalso; lia);
    (split; [lia | assumption]).
Qed.

Lemma encodeURIComponent_nil_iff (s : jsstring) :
  encodeURIComponent s = Some [] -> s = [].
Proof.
  destruct s as [| c s']; [reflexivity |]. intros H.
  apply encodeURIComponent_step in H as (cp & rest & t' & _ & _ & Ht & _); [| discriminate].
  symmetry in Ht. now apply emit_not_nil in Ht.
Qed.

Lemma encodeURIComponent_escaped (n : nat) :
  forall s t,
    (length s <= n)%nat ->
    code_units s = true ->
    encodeURIComponent s = Some t ->
    escaped t = true.
Proof.
  induction n as [| n IH]; intros s t Hlen Hs H.
  - destruct s; [| cbn in Hlen; lia]. cbn in H. now inversion H.
  - destruct s as [| c s']; [cbn in H; now inversion H |].
    apply encodeURIComponent_step in H as (cp & rest & t' & Hn & Hr & -> & Hl);
      [| discriminate].
    destruct (next_code_point_bound _ _ _ Hs Hn) as [Hcp Hrest].
    rewrite escaped_emit by exact Hcp.
    apply (IH rest t'); [lia | exact Hrest | exact Hr].
Qed.

Lemma encodeURIComponent_inj (n : nat) :
  forall s1 s2 t,
    (length s1 <= n)%nat ->
    code_units s1 = true -> code_units s2 = true ->
    encodeURIComponent s1 = Some t ->
    encodeURIComponent s2 = Some t ->
    s1 = s2.
Proof.
  induction n as [| n IH]; intros s1 s2 t Hlen Hs1 Hs2 H1 H2.
  - destruct s1; [| cbn in Hlen; lia]. cbn in H1. inversion H1; subst.
    symmetry. now apply encodeURIComponent_nil_iff.
  - destruct s1 as [| c1 s1'].
    { cbn in H1. inversion H1; subst. symmetry. now apply encodeURIComponent_nil_iff. }
    destruct s2 as [| c2 s2'].
    { cbn in H2. inversion H2; subst. now apply encodeURIComponent_nil_iff in H1. }
    apply encodeURIComponent_step in H1 as (cp1 & r1 & t1 & Hn1 & Hr1 & -> & Hl1);
      [| discriminate].
    apply encodeURIComponent_step in H2 as (cp2 & r2 & t2 & Hn2 & Hr2 & Heq & Hl2);
      [| discriminate].
    destruct (next_code_point_bound _ _ _ Hs1 Hn1) as [Hcp1 Hrest1].
    destruct (next_code_point_bound _ _ _ Hs2 Hn2) as [Hcp2 Hrest2].
    apply emit_inj in Heq as [-> ->]; [| assumption | assumption].
    assert (r1 = r2) as ->.
    { apply (IH r1 r2 t2); try assumption. lia. }
    destruct (next_code_point_inj _ _ _ _ _ Hs1 Hs2 Hn1 Hn2) as (pre & -> & ->).
    reflexivity.
Qed.

(** X6: the target of a proxy strategy is the prefix followed by the
    encoded URL, and the encoded URL is made of unreserved characters and
    of escapes [%XX] with upper-case hexadecimal digits, and of nothing
    else: no [?], [&], [=], [#], [/] or [:] of the URL is left as it is. *)
Theorem proxy_target_escaped (prefix url target : jsstring) :
  prefix <> [] ->
  code_units url = true ->
  target_of prefix url = Some target ->
  exists enc, target = prefix ++ enc /\ escaped enc = true.
Proof.
  intros Hp Hu Ht. unfold target_of in Ht.
  destruct prefix as [| c p]; [congruence |].
  destruct (encodeURIComponent url) as [enc |] eqn:E; [| discriminate].
  inversion Ht; subst. exists enc. split; [reflexivity |].
  now apply (encodeURIComponent_escaped (length url) url enc).
Qed.

Lemma proxy_target_escaped_witness :
  exists enc,
    lit "https://corsproxy.io/?https%3A%2F%2Fexample.org%2Fsheet.csv"
    = lit "https://corsproxy.io/?" ++ enc
    /\ escaped enc = true.
Proof.
  apply (proxy_target_escaped (lit "https://corsproxy.io/?") url_example).
  - discriminate.
  - reflexivity.
  - vm_compute. reflexivity.
Defined.

(** X7: a strategy never maps two different URLs to the same target. *)
Theorem proxy_target_injective (prefix url1 url2 target : jsstring) :
  code_units url1 = true ->
  code_units url2 = true ->
  target_of prefix url1 = Some target ->
  target_of prefix url2 = Some target ->
  url1 = url2.
Proof.
  intros H1 H2 T1 T2. unfold target_of in *.
  destruct prefix as [| c p]; [congruence |].
  destruct (encodeURIComponent url1) as [e1 |] eqn:E1; [| discriminate].
  destruct (encodeURIComponent url2) as [e2 |] eqn:E2; [| discriminate].
  cbn in T1, T2. inversion T1; subst. inversion T2 as [Heq].
  apply app_inv_head in Heq. subst.
  now apply (encodeURIComponent_inj (length url1) url1 url2 e1).
Qed.

Lemma proxy_target_injective_witness :
  url_example = lit "https://example.org/" ++ lit "sheet.csv".
Proof.
  apply (proxy_target_injective (lit "https://api.allorigins.win/raw?url=")
           url_example (lit "https://example.org/" ++ lit "sheet.csv")
           (lit "https://api.allorigins.win/raw?url=https%3A%2F%2Fexample.org%2Fsheet.csv")).
  - reflexivity.
  - reflexivity.
  - vm_compute. reflexivity.
  - vm_compute. reflexivity.
Defined.

(* ----------------------------------------------------------------- *)
(** ** Parser: what the whole text gives *)

(** What [parseCSV] returns, for every text: the rows of the lines after
    the first that are not empty, under the header names of the first. *)
Lemma parseCSV_unfold (csv : jsstring) :
  parseCSV csv
  = map (row_of_line (headers_of csv))
        (List.filter (fun l => negb (is_empty l)) (tail (lines_of csv))).
Proof.
  unfold parseCSV, headers_of, lines_of.
  destruct (split_lines (trim csv)) as [| first rest] eqn:E.
  - now apply split_lines_not_nil in E.
  - cbn [hd tail]. now rewrite parse_lines_fold.
Qed.

Lemma split_lines_no_LF (s : jsstring) : ~ In LF s -> split_lines s = [s].
Proof.
  induction s as [| c s IH]; [reflexivity |]. intros H.
  rewrite split_lines_cons.
  destruct (N.eqb_spec c LF) as [-> | Hc]; [exfalso; apply H; now left |].
  assert (Hs : ~ In LF s) by (intros Hs; apply H; now right).
  assert (starts_with_LF s = false) as ->.
  { destruct s as [| d s']; [reflexivity |]. cbn.
    destruct (N.eqb_spec d LF) as [-> | Hd]; [exfalso; apply Hs; now left | reflexivity]. }
  rewrite andb_false_r, (IH Hs). reflexivity.
Qed.

Lemma tail_cons_first (c : N) (ls : list jsstring) :
  ls <> [] -> tail (cons_first c ls) = tail ls.
Proof. destruct ls; [congruence | reflexivity]. Qed.

Lemma trim_end_fixed_cons (c : N) (s : jsstring) :
  trim_end (c :: s) = c :: s -> all_ws (c :: s) = false /\ trim_end s = s.
Proof.
  rewrite trim_end_cons. destruct (all_ws (c :: s)); [discriminate |].
  intros H. inversion H as [H']. now rewrite H'.
Qed.

Lemma forallb_false_In {A : Type} (f : A -> bool) (l : list A) :
  forallb f l = false -> exists x, In x l /\ f x = false.
Proof.
  induction l as [| a l IH]; [discriminate |]. cbn [forallb].
  destruct (f a) eqn:E; cbn [andb].
  - intros H. destruct (IH H) as (x & Hx & Hf). exists x. split; [now right | exact Hf].
  - intros _. exists a. split; [now left | exact E].
Qed.

(** A text that does not end with white space and has a line feed has a
    line after the first that is not empty. *)
Lemma split_lines_tail_not_empty (s : jsstring) :
  trim_end s = s -> In LF s ->
  exists l, In l (tail (split_lines s)) /\ l <> [].
Proof.
  induction s as [| c s IH]; [intros _ [] |].
  intros Hfix Hin. apply trim_end_fixed_cons in Hfix as [Hws Hfix].
  rewrite split_lines_cons.
  destruct (N.eqb_spec c LF) as [-> | Hc].
  - cbn [tail]. change (all_ws (LF :: s)) with (is_ws LF && all_ws s) in Hws.
    cbn [is_ws andb] in Hws. change (is_ws LF) with true in Hws. cbn [andb] in Hws.
    rewrite <- all_ws_split_lines in Hws.
    apply forallb_false_In in Hws as (l & Hl & Hn). exists l. split; [exact Hl |].
    intros ->. discriminate.
  - assert (Hs : In LF s) by (destruct Hin as [-> | Hin]; [congruence | exact Hin]).
    destruct (IH Hfix Hs) as (l & Hl & Hn).
    destruct ((c =? CR)%N && starts_with_LF s).
    + now exists l.
    + exists l. rewrite tail_cons_first by apply split_lines_not_nil. now split.
Qed.

Lemma trim_end_trim (s : jsstring) : trim_end (trim s) = trim s.
Proof. unfold trim. apply trim_end_idem. Qed.

(** X8: [parseCSV] returns no record exactly when the trimmed text has no
    line feed.  A blank text, a header line alone, and a text whose lines
    end with carriage returns only all give the empty array; every other
    text gives at least one record. *)
Theorem parseCSV_empty_iff (csv : jsstring) :
  parseCSV csv = [] <-> ~ In LF (trim csv).
Proof.
  rewrite parseCSV_unfold. unfold lines_of. split.
  - intros H Hin.
    destruct (split_lines_tail_not_empty (trim csv) (trim_end_trim csv) Hin)
      as (l & Hl & Hn).
    apply map_eq_nil in H.
    assert (Hf : In l (List.filter (fun l => negb (is_empty l))
                          (tail (split_lines (trim csv))))).
    { apply filter_In. split; [exact Hl |]. now destruct l. }
    rewrite H in Hf. destruct Hf.
  - intros H. now rewrite (split_lines_no_LF _ H).
Qed.

Lemma parseCSV_empty_iff_witness :
  parseCSV (lit "  First Name,Total Score " ++ [CR]) = [].
Proof.
  apply (proj2 (parseCSV_empty_iff (lit "  First Name,Total Score " ++ [CR]))).
  vm_compute. intros H. repeat (destruct H as [H | H]; [discriminate |]). exact H.
Defined.

(* ----------------------------------------------------------------- *)
(** ** Parser: white space around the text, and line ends *)

Lemma trim_start_app_ws (pre s : jsstring) :
  all_ws pre = true -> trim_start (pre ++ s) = trim_start s.
Proof.
  induction pre as [| c pre IH]; [reflexivity |].
  intros H. apply andb_true_iff in H as [Hc Hp]. cbn [app trim_start].
  rewrite Hc. now apply IH.
Qed.

Lemma all_ws_app (s t : jsstring) : all_ws (s ++ t) = all_ws s && all_ws t.
Proof. apply forallb_app. Qed.

Lemma trim_end_app_ws (s post : jsstring) :
  all_ws post = true -> trim_end (s ++ post) = trim_end s.
Proof.
  intros H. induction s as [| c s IH].
  - now apply trim_end_all_ws.
  - cbn [app]. rewrite !trim_end_cons, IH.
    change (all_ws (c :: s ++ post)) with (is_ws c && all_ws (s ++ post)).
    change (all_ws (c :: s)) with (is_ws c && all_ws s).
    now rewrite all_ws_app, H, andb_true_r.
Qed.

Lemma trim_padded (pre s post : jsstring) :
  all_ws pre = true -> all_ws post = true -> trim (pre ++ s ++ post) = trim s.
Proof.
  intros Hpre Hpost. unfold trim.
  rewrite trim_start_app_ws by exact Hpre.
  rewrite <- !trim_start_trim_end. now rewrite trim_end_app_ws.
Qed.

(** X9: white space before and after the text, such as a byte order mark
    or blank lines, changes nothing in the records. *)
Theorem parseCSV_padding (pre csv post : jsstring) :
  all_ws pre = true -> all_ws post = true ->
  parseCSV (pre ++ csv ++ post) = parseCSV csv.
Proof.
  intros Hpre Hpost. unfold parseCSV. now rewrite trim_padded.
Qed.

Lemma parseCSV_padding_witness : parseCSV csv_padded = parseCSV csv_two_rows.
Proof.
  apply (parseCSV_padding [65279%N] csv_two_rows [CR; LF]); reflexivity.
Defined.

Lemma crlf_cons (c : N) (s : jsstring) :
  crlf (c :: s) = if (c =? LF)%N then CR :: LF :: crlf s else c :: crlf s.
Proof. unfold crlf. cbn [flat_map]. now destruct (c =? LF)%N. Qed.

Lemma all_ws_crlf (s : jsstring) : all_ws (crlf s) = all_ws s.
Proof.
  induction s as [| c s IH]; [reflexivity |].
  rewrite crlf_cons. destruct (N.eqb_spec c LF) as [-> | Hc].
  - change (all_ws (CR :: LF :: crlf s)) with (is_ws CR && (is_ws LF && all_ws (crlf s))).
    change (all_ws (LF :: s)) with (is_ws LF && all_ws s). now rewrite IH.
  - change (all_ws (c :: crlf s)) with (is_ws c && all_ws (crlf s)).
    change (all_ws (c :: s)) with (is_ws c && all_ws s). now rewrite IH.
Qed.

Lemma trim_start_crlf (s : jsstring) : trim_start (crlf s) = crlf (trim_start s).
Proof.
  induction s as [| c s IH]; [reflexivity |].
  rewrite crlf_cons. destruct (N.eqb_spec c LF) as [-> | Hc].
  - exact IH.
  - cbn [trim_start]. destruct (is_ws c); [exact IH |].
    rewrite crlf_cons. now apply N.eqb_neq in Hc as ->.
Qed.

Lemma trim_end_crlf (s : jsstring) : trim_end (crlf s) = crlf (trim_end s).
Proof.
  induction s as [| c s IH]; [reflexivity |].
  rewrite crlf_cons, (trim_end_cons c s).
  destruct (N.eqb_spec c LF) as [-> | Hc].
  - rewrite !trim_end_cons, IH.
    change (all_ws (CR :: LF :: crlf s)) with (is_ws CR && (is_ws LF && all_ws (crlf s))).
    change (all_ws (LF :: crlf s)) with (is_ws LF && all_ws (crlf s)).
    change (all_ws (LF :: s)) with (is_ws LF && all_ws s).
    rewrite all_ws_crlf. change (is_ws CR) with true. change (is_ws LF) with true.
    cbn [andb]. destruct (all_ws s); [reflexivity |]. now rewrite crlf_cons.
  - rewrite trim_end_cons, IH.
    change (all_ws (c :: crlf s)) with (is_ws c && all_ws (crlf s)).
    change (all_ws (c :: s)) with (is_ws c && all_ws s).
    rewrite all_ws_crlf. destruct (is_ws c && all_ws s); [reflexivity |].
    rewrite crlf_cons. now apply N.eqb_neq in Hc as ->.
Qed.

Lemma split_lines_crlf (s : jsstring) : ~ In CR s -> split_lines (crlf s) = split_lines s.
Proof.
  induction s as [| c s IH]; [reflexivity |]. intros H.
  assert (Hs : ~ In CR s) by (intros Hs; apply H; now right).
  assert (Hc : (c =? CR)%N = false).
  { apply N.eqb_neq. intros ->. apply H. now left. }
  rewrite crlf_cons, (split_lines_cons c s), Hc. cbn [andb].
  destruct (N.eqb_spec c LF) as [-> | Hlf].
  - rewrite split_lines_cons. change (CR =? LF)%N with false. cbv iota.
    change ((CR =? CR)%N && starts_with_LF (LF :: crlf s)) with true. cbv iota.
    rewrite split_lines_cons. change (LF =? LF)%N with true. cbv iota. now rewrite IH.
  - rewrite split_lines_cons, Hc. apply N.eqb_neq in Hlf as ->. cbn [andb].
    now rewrite IH.
Qed.

Lemma In_trim_start (c : N) (s : jsstring) : In c (trim_start s) -> In c s.
Proof.
  induction s as [| d s IH]; [intros [] |]. cbn [trim_start].
  destruct (is_ws d); [intros H; right; now apply IH | auto].
Qed.

Lemma In_trim_end (c : N) (s : jsstring) : In c (trim_end s) -> In c s.
Proof.
  induction s as [| d s IH]; [intros [] |]. rewrite trim_end_cons.
  destruct (all_ws (d :: s)); [intros [] |].
  intros [-> | H]; [now left | right; now apply IH].
Qed.

Lemma In_trim (c : N) (s : jsstring) : In c (trim s) -> In c s.
Proof. intros H. now apply In_trim_start, In_trim_end. Qed.

(** X10: a text without carriage returns gives the same records when each
    of its line feeds is written as carriage return, line feed. *)
Theorem parseCSV_crlf (csv : jsstring) :
  ~ In CR csv -> parseCSV (crlf csv) = parseCSV csv.
Proof.
  intros H. unfold parseCSV, trim.
  rewrite trim_start_crlf, trim_end_crlf, split_lines_crlf; [reflexivity |].
  intros Hin. apply H. now apply In_trim.
Qed.

Lemma parseCSV_crlf_witness : parseCSV (crlf csv_two_rows) = parseCSV csv_two_rows.
Proof.
  apply parseCSV_crlf. vm_compute.
  intros H. repeat (destruct H as [H | H]; [discriminate |]). exact H.
Defined.

(* ----------------------------------------------------------------- *)
(** ** Parser: the keys and the values of a row *)

Lemma fill_proto (cells headers : list jsstring) :
  forall idx st, forEach_from (fill cells) idx headers st !! PROTO = st !! PROTO.
Proof.
  induction headers as [| x headers IH]; intros idx st; cbn [forEach_from]; [reflexivity |].
  rewrite IH. unfold fill, obj_set.
  destruct (decide (x = PROTO)) as [-> | Hx]; [reflexivity |].
  apply lookup_insert_ne. exact Hx.
Qed.

(** The keys of a row are the header names, [__proto__] left out; the
    value under a key is the trimmed cell at the last position of the
    name. *)
Lemma make_row_key (headers cells : list jsstring) (k v : jsstring) :
  make_row headers cells !! k = Some v ->
  In k headers /\ k <> PROTO
  /\ exists idx, v = trim (cell_or_empty cells idx).
Proof.
  intros H.
  assert (Hp : k <> PROTO).
  { intros ->. unfold make_row, forEach in H.
    change (fun row header idx => obj_set row header (trim (cell_or_empty cells idx)))
      with (fill cells) in H.
    rewrite fill_proto in H. discriminate. }
  assert (Hin : In k headers).
  { destruct (decide (k ∈ headers)) as [Hk | Hk]; rewrite list_elem_of_In in Hk;
      [exact Hk |].
    unfold make_row, forEach in H.
    change (fun row header idx => obj_set row header (trim (cell_or_empty cells idx)))
      with (fill cells) in H.
    rewrite fill_other in H by exact Hk. discriminate. }
  split; [exact Hin |]. split; [exact Hp |].
  destruct (in_split_last k headers Hin) as (before & after & -> & Ha).
  rewrite make_row_lookup in H by assumption. inversion H. now eexists.
Qed.

Lemma In_parseCSV (csv : jsstring) (r : record) :
  In r (parseCSV csv) ->
  exists l, In l (lines_of csv) /\ r = make_row (headers_of csv) (split_on COMMA l).
Proof.
  rewrite parseCSV_unfold. intros H.
  apply in_map_iff in H as (l & <- & Hl). apply filter_In in Hl as [Hl _].
  exists l. split; [| reflexivity].
  destruct (lines_of csv); [destruct Hl | now right].
Qed.

(** X11: every record of a parse has the same keys, the header names of
    the first line of the trimmed text, [__proto__] left out, and no other
    key. *)
Theorem parseCSV_keys (csv : jsstring) (r : record) (k : jsstring) :
  In r (parseCSV csv) ->
  (is_Some (r !! k) <-> In k (headers_of csv) /\ k <> PROTO).
Proof.
  intros Hr. apply In_parseCSV in Hr as (l & _ & ->). split.
  - intros [v Hv]. apply make_row_key in Hv as (Hin & Hp & _). now split.
  - intros [Hin Hp].
    destruct (make_row_spec (headers_of csv) (split_on COMMA l)) as (Hkey & _).
    destruct (Hkey k Hin Hp) as (v & Hv & _). now exists v.
Qed.

Lemma parseCSV_keys_witness :
  is_Some (make_row [lit "a"] [lit "1"] !! lit "a")
  <-> In (lit "a") (headers_of csv_blank_inside) /\ lit "a" <> PROTO.
Proof.
  apply (parseCSV_keys csv_blank_inside (make_row [lit "a"] [lit "1"]) (lit "a")).
  vm_compute. right. left. reflexivity.
Defined.

Lemma split_on_pieces (sep c : N) (s cell : jsstring) :
  In cell (split_on sep s) -> In c cell -> In c s /\ c <> sep.
Proof.
  revert cell. induction s as [| d s IH]; intros cell Hcell Hc.
  - destruct Hcell as [<- | []]. destruct Hc.
  - rewrite split_on_cons in Hcell. destruct (N.eqb_spec d sep) as [-> | Hd].
    + destruct Hcell as [<- | Hcell]; [destruct Hc |].
      destruct (IH cell Hcell Hc) as [H1 H2]. split; [now right | exact H2].
    + destruct (split_on sep s) as [| x rest] eqn:E; [now apply split_on_not_nil in E |].
      cbn [cons_first] in Hcell. destruct Hcell as [<- | Hcell].
      * destruct Hc as [<- | Hc]; [split; [now left | exact Hd] |].
        destruct (IH x (or_introl eq_refl) Hc) as [H1 H2]. split; [now right | exact H2].
      * destruct (IH cell (or_intror Hcell) Hc) as [H1 H2]. split; [now right | exact H2].
Qed.

Lemma split_lines_pieces (c : N) (s l : jsstring) :
  In l (split_lines s) -> In c l -> c <> LF.
Proof.
  revert l. induction s as [| d s IH]; intros l Hl Hc.
  - destruct Hl as [<- | []]. destruct Hc.
  - rewrite split_lines_cons in Hl. destruct (N.eqb_spec d LF) as [-> | Hd].
    + destruct Hl as [<- | Hl]; [destruct Hc | now apply (IH l)].
    + destruct ((d =? CR)%N && starts_with_LF s); [now apply (IH l) |].
      destruct (split_lines s) as [| x rest] eqn:E; [now apply split_lines_not_nil in E |].
      cbn [cons_first] in Hl. destruct Hl as [<- | Hl].
      * destruct Hc as [<- | Hc]; [exact Hd | now apply (IH x (or_introl eq_refl))].
      * now apply (IH l (or_intror Hl)).
Qed.

Lemma In_cell_or_empty (c : N) (cells : list jsstring) (idx : nat) :
  In c (cell_or_empty cells idx) -> exists cell, In cell cells /\ In c cell.
Proof.
  rewrite cell_or_empty_default. destruct (cells !! idx) as [cell |] eqn:E; [| intros []].
  intros H. exists cell. split; [| exact H].
  apply list_elem_of_In. eapply list_elem_of_lookup_2. exact E.
Qed.

(** X12: no value of a record has white space at either end, and none
    holds a comma or a line feed. *)
Theorem parseCSV_values (csv : jsstring) (r : record) (k v : jsstring) :
  In r (parseCSV csv) ->
  r !! k = Some v ->
  trim v = v /\ ~ In COMMA v /\ ~ In LF v.
Proof.
  intros Hr Hv. apply In_parseCSV in Hr as (l & Hl & ->).
  apply make_row_key in Hv as (_ & _ & idx & ->).
  split; [apply trim_idem |].
  assert (Hc : forall c, In c (trim (cell_or_empty (split_on COMMA l) idx)) ->
                         c <> COMMA /\ c <> LF).
  { intros c Hc. apply In_trim, In_cell_or_empty in Hc as (cell & Hcell & Hc).
    destruct (split_on_pieces COMMA c l cell Hcell Hc) as [Hin Hne].
    split; [exact Hne |]. now apply (split_lines_pieces c (trim csv) l). }
  split; intros H; apply Hc in H as [H1 H2]; congruence.
Qed.

Lemma parseCSV_values_witness :
  trim (lit "1") = lit "1" /\ ~ In COMMA (lit "1") /\ ~ In LF (lit "1").
Proof.
  apply (parseCSV_values csv_blank_inside (make_row [lit "a"] [lit "1"]) (lit "a")).
  - vm_compute. right. left. reflexivity.
  - vm_compute. reflexivity.
Defined.

(* ----------------------------------------------------------------- *)
(** ** Parser: cells beyond the header *)

Lemma split_on_app_sep (sep : N) (l extra : jsstring) :
  split_on sep (l ++ sep :: extra) = split_on sep l ++ split_on sep extra.
Proof.
  induction l as [| c l IH].
  - cbn [app]. rewrite split_on_cons, N.eqb_refl. reflexivity.
  - cbn [app]. rewrite !split_on_cons, IH. destruct (c =? sep)%N; [reflexivity |].
    destruct (split_on sep l) eqn:E; [now apply split_on_not_nil in E | reflexivity].
Qed.

Lemma forEach_from_ext_range {A S : Type} (f g : S -> A -> nat -> S) (l : list A) :
  forall idx st,
    (forall st x i, (idx <= i < idx + length l)%nat -> f st x i = g st x i) ->
    forEach_from f idx l st = forEach_from g idx l st.
Proof.
  induction l as [| x l IH]; intros idx st H; cbn [forEach_from]; [reflexivity |].
  rewrite H by (cbn [length]; lia). apply IH.
  intros st' y i Hi. apply H. cbn [length]. lia.
Qed.

Lemma make_row_extra_cells (headers cells more : list jsstring) :
  (length headers <= length cells)%nat ->
  make_row headers (cells ++ more) = make_row headers cells.
Proof.
  intros H. unfold make_row, forEach. apply forEach_from_ext_range.
  intros st x i Hi. rewrite !cell_or_empty_default, lookup_app_l by lia. reflexivity.
Qed.

(** X13: cells beyond the last header are dropped.  A line that is not
    empty and has a cell for every header gives the same row whatever
    stands behind a further comma. *)
Theorem parse_line_extra_cells (headers : list jsstring) (rows : list record)
    (line extra : jsstring) :
  line <> [] ->
  (length headers <= length (split_on COMMA line))%nat ->
  parse_line headers rows (line ++ COMMA :: extra) = parse_line headers rows line.
Proof.
  intros Hne Hlen. unfold parse_line. rewrite split_on_app_sep.
  assert (Hrow : forall cells, cells <> [[]] ->
            match cells with [[]] => rows | _ => rows ++ [make_row headers cells] end
            = rows ++ [make_row headers cells]).
  { intros [| [| c s] [| y r]] H; try reflexivity. congruence. }
  rewrite !Hrow.
  - now rewrite make_row_extra_cells.
  - intros H. apply split_on_empty_cell in H. contradiction.
  - intros H. apply (f_equal (@length _)) in H. rewrite length_app in H. cbn in H.
    pose proof (split_on_not_nil COMMA line). pose proof (split_on_not_nil COMMA extra).
    destruct (split_on COMMA line), (split_on COMMA extra); cbn in H; try congruence; lia.
Qed.

Lemma parse_line_extra_cells_witness :
  parse_line [lit "Name"; lit "Score"] [] (lit "Ann,7" ++ COMMA :: lit "x,y")
  = parse_line [lit "Name"; lit "Score"] [] (lit "Ann,7").
Proof.
  apply parse_line_extra_cells.
  - discriminate.
  - vm_compute. lia.
Defined.

(* ----------------------------------------------------------------- *)
(** ** Transformer: the ranked list against the rows *)

(** X14: the list [transformData] returns is a rearrangement of the
    entries of the rows: no entry is dropped, repeated or made up. *)
Theorem transformData_permutation (rows : list record) :
  Permutation (map to_entry rows) (transformData rows).
Proof. unfold transformData. apply js_sort_perm. Qed.

Lemma transformData_ranked (rows : list record) :
  StronglySorted (fun a b => score_geb a b = true) (transformData rows).
Proof.
  apply (StronglySorted_weaken (fun a b => num_leb (score b) (score a) = true));
    [| apply transformData_sorted].
  intros a b Ha Hb H. apply transformData_In_iff in Ha, Hb. unfold score_geb.
  rewrite <- num_leb_SFleb; [exact H | |]; now apply (entries_number rows).
Qed.

(** X15: rows whose scores already stand in non-increasing order are
    returned in the order they came in. *)
Theorem transformData_sorted_input (rows : list record) :
  StronglySorted (fun a b => SFleb (score b) (score a) = true) (map to_entry rows) ->
  transformData rows = map to_entry rows.
Proof.
  intros Hs. symmetry. apply transformData_unique.
  - intros e He. now apply (entries_number rows).
  - exact Hs.
  - reflexivity.
Qed.

Lemma transformData_sorted_input_witness :
  transformData [row_bo; row_ann; row_bad_score] = map to_entry [row_bo; row_ann; row_bad_score].
Proof.
  apply transformData_sorted_input.
  repeat constructor; vm_compute; reflexivity.
Defined.

Lemma all_equal_permutation {A : Type} (l2 : list A) :
  forall l1,
    (forall x y, In x l2 -> In y l2 -> x = y) ->
    Permutation l1 l2 -> l1 = l2.
Proof.
  induction l2 as [| b l2 IH]; intros l1 Heq Hp.
  - symmetry in Hp. now apply Permutation_nil in Hp.
  - destruct l1 as [| a l1]; [now apply Permutation_nil in Hp |].
    assert (a = b) as ->.
    { apply Heq; [| now left]. apply (Permutation_in a Hp). now left. }
    f_equal. apply IH.
    + intros x y Hx Hy. apply Heq; now right.
    + now apply Permutation_cons_inv in Hp.
Qed.

Lemma filter_permutation {A : Type} (f : A -> bool) (l1 l2 : list A) :
  Permutation l1 l2 -> Permutation (List.filter f l1) (List.filter f l2).
Proof.
  induction 1 as [| x l1 l2 _ IH | x y l | l1 l2 l3 _ IH1 _ IH2]; cbn [List.filter].
  - constructor.
  - destruct (f x); [now constructor | exact IH].
  - destruct (f x), (f y); try reflexivity. constructor.
  - now transitivity (List.filter f l2).
Qed.

(** Entries in the class of a third one are in each other's class. *)
Lemma same_class_trans (rows : list record) (v x y : entry) :
  is_number (score v) ->
  In x (map to_entry rows) -> In y (map to_entry rows) ->
  same_class score_geb v x = true -> same_class score_geb v y = true ->
  same_class score_geb x y = true.
Proof.
  intros [_ Hv] Hx Hy Px Py.
  pose proof (entries_number rows x Hx) as [_ Hxv].
  pose proof (entries_number rows y Hy) as [_ Hyv].
  unfold same_class, score_geb in *.
  apply andb_true_iff in Px as [Px1 Px2]. apply andb_true_iff in Py as [Py1 Py2].
  rewrite <- num_leb_SFleb in Px1, Px2, Py1, Py2 by assumption.
  rewrite <- !num_leb_SFleb by assumption.
  apply andb_true_iff. split; eapply num_leb_trans; eassumption.
Qed.

(** X16: when no two different entries have equal scores, the ranked list
    does not depend on the order of the rows. *)
Theorem transformData_row_order (rows rows' : list record) :
  Permutation rows rows' ->
  no_ties (map to_entry rows) ->
  transformData rows' = transformData rows.
Proof.
  intros Hp Hties.
  assert (Hpe : Permutation (map to_entry rows') (map to_entry rows)).
  { symmetry. now apply Permutation_map. }
  apply transformData_unique.
  - intros e He. apply (entries_number rows'). now apply transformData_In_iff.
  - apply transformData_ranked.
  - intros v Hv.
    assert (Hnum : is_number (score v)).
    { destruct Hv as [Hv | Hv]; apply transformData_In_iff in Hv.
      - now apply (entries_number rows').
      - now apply (entries_number rows). }
    apply all_equal_permutation.
    + intros x y Hx Hy. apply filter_In in Hx as [Hx Px], Hy as [Hy Py].
      apply Hties; try assumption. now apply (same_class_trans rows v).
    + apply filter_permutation.
      transitivity (map to_entry rows'); [| exact Hpe].
      symmetry. unfold transformData. apply js_sort_perm.
Qed.

Lemma transformData_row_order_witness :
  transformData [row_bo; row_ann] = transformData [row_ann; row_bo].
Proof.
  apply transformData_row_order.
  - apply perm_swap.
  - intros x y [<- | [<- | []]] [<- | [<- | []]] H;
      try reflexivity; vm_compute in H; discriminate.
Defined.

(* ----------------------------------------------------------------- *)
(** ** Transformer: scores that are whole numbers *)

Lemma digit_of_digit (c : N) : is_digit c = true -> digit_of c = Some (Z.of_N c - 48).
Proof. unfold is_digit, digit_of. now intros ->. Qed.

Lemma digit_of_not_digit (c : N) : is_digit c = false -> digit_of c = None.
Proof. unfold is_digit, digit_of. now intros ->. Qed.

Lemma read_digits_numeral (digits : jsstring) :
  forall acc n rest,
    forallb is_digit digits = true ->
    match rest with c :: _ => is_digit c = false | [] => True end ->
    read_digits acc n (digits ++ rest)
    = (decimal_from acc digits, n + Z.of_nat (length digits), rest).
Proof.
  induction digits as [| c digits IH]; intros acc n rest Hd Hr.
  - cbn [app decimal_from fold_left length]. rewrite Z.add_0_r.
    destruct rest as [| c r]; [reflexivity |].
    cbn [read_digits]. now rewrite (digit_of_not_digit c Hr).
  - cbn [forallb] in Hd. apply andb_true_iff in Hd as [Hc Hd].
    cbn [app read_digits]. rewrite (digit_of_digit c Hc), (IH _ _ rest Hd Hr).
    cbn [length decimal_from fold_left]. do 2 f_equal. lia.
Qed.

Lemma decimal_from_nonneg (digits : jsstring) :
  forall acc, forallb is_digit digits = true -> 0 <= acc -> 0 <= decimal_from acc digits.
Proof.
  induction digits as [| c digits IH]; intros acc Hd Hacc; [exact Hacc |].
  cbn [forallb] in Hd. apply andb_true_iff in Hd as [Hc Hd].
  cbn [decimal_from fold_left]. apply IH; [exact Hd |].
  unfold is_digit in Hc. apply andb_true_iff in Hc as [Hc _]. apply N.leb_le in Hc. lia.
Qed.

Lemma ends_number_cases (rest : jsstring) :
  ends_number rest = true ->
  match rest with
  | c :: _ => is_digit c = false /\ (c =? 46)%N = false
              /\ (c =? 101)%N = false /\ (c =? 69)%N = false
  | [] => True
  end.
Proof.
  destruct rest as [| c r]; [trivial |]. unfold ends_number, continues_number.
  intros H. apply negb_true_iff in H.
  repeat (apply orb_false_iff in H as [H ?]). auto.
Qed.

(** A numeral is read as the whole number it denotes, whatever text that
    cannot continue it stands behind. *)
Lemma read_unsigned_numeral (digits rest : jsstring) :
  is_numeral digits = true -> ends_number rest = true ->
  read_unsigned (digits ++ rest) = LitDecimal (decimal_value digits) 0.
Proof.
  unfold is_numeral. intros Hn Hr. apply andb_true_iff in Hn as [Hne Hd].
  apply ends_number_cases in Hr.
  destruct digits as [| c digits]; [discriminate |]. clear Hne.
  unfold read_unsigned.
  assert (Hinf : is_prefix (lit "Infinity") ((c :: digits) ++ rest) = false).
  { change (lit "Infinity") with (73%N :: lit "nfinity"). cbn [app is_prefix].
    cbn [forallb] in Hd. apply andb_true_iff in Hd as [Hc _].
    destruct (N.eqb_spec 73 c) as [<- |]; [discriminate | reflexivity]. }
  rewrite Hinf.
  rewrite (read_digits_numeral (c :: digits) 0 0 rest Hd)
    by (destruct rest; [exact I | apply Hr]).
  assert (Hlen : (0 + Z.of_nat (length (c :: digits)) =? 0) = false).
  { apply Z.eqb_neq. cbn [length]. lia. }
  destruct rest as [| d r]; rewrite ?Hlen; [reflexivity |].
  destruct Hr as (_ & H46 & H101 & H69). rewrite H46.
  cbn [read_exponent]. now rewrite H101, H69.
Qed.

Lemma parseFloat_numeral (digits rest : jsstring) :
  is_numeral digits = true -> ends_number rest = true ->
  parseFloat (Str (digits ++ rest)) = of_decimal false (decimal_value digits) 0.
Proof.
  intros Hn Hr. unfold parseFloat. cbn [to_string].
  pose proof (read_unsigned_numeral digits rest Hn Hr) as Hread.
  unfold is_numeral in Hn. apply andb_true_iff in Hn as [Hne Hd].
  destruct digits as [| c digits]; [discriminate |].
  cbn [forallb] in Hd. apply andb_true_iff in Hd as [Hc _].
  assert (Hws : is_ws c = false).
  { unfold is_digit in Hc. apply andb_true_iff in Hc as [H1 H2].
    apply N.leb_le in H1, H2. unfold is_ws.
    repeat match goal with
           | |- context [(?a <=? ?b)%N] => destruct (N.leb_spec a b); try lia
           | |- context [(?a =? ?b)%N] => destruct (N.eqb_spec a b); try lia
           end; reflexivity. }
  cbn [app]. rewrite (trim_start_head c _ Hws).
  assert ((c =? 45)%N = false) as ->.
  { destruct (N.eqb_spec c 45) as [-> |]; [discriminate | reflexivity]. }
  assert ((c =? 43)%N = false) as ->.
  { destruct (N.eqb_spec c 43) as [-> |]; [discriminate | reflexivity]. }
  cbn [app] in Hread. now rewrite Hread.
Qed.

Lemma to_entry_score (row : record) :
  isNaN (parseFloat (scoreStr row)) = false ->
  score (to_entry row) = parseFloat (scoreStr row).
Proof. intros H. unfold to_entry. cbn [score]. now rewrite H. Qed.

Lemma of_decimal_not_nan (m : Z) : 0 <= m -> isNaN (of_decimal false m 0) = false.
Proof. intros H. apply num_ok_not_nan. now apply of_decimal_ok. Qed.

Lemma numeral_value_nonneg (digits : jsstring) :
  is_numeral digits = true -> 0 <= decimal_value digits.
Proof.
  unfold is_numeral. intros H. apply andb_true_iff in H as [_ H].
  now apply decimal_from_nonneg.
Qed.

Lemma score_numeral (row : record) (digits rest : jsstring) :
  scoreStr row = Str (digits ++ rest) ->
  is_numeral digits = true -> ends_number rest = true ->
  score (to_entry row) = of_decimal false (decimal_value digits) 0.
Proof.
  intros Hs Hn Hr. rewrite to_entry_score; rewrite Hs, (parseFloat_numeral _ _ Hn Hr).
  - reflexivity.
  - apply of_decimal_not_nan. now apply numeral_value_nonneg.
Qed.

(** X17: text behind a whole number that cannot continue it, such as a
    percent sign or a unit, does not change the score: the row scores what
    a row with the digits alone scores. *)
Theorem score_ignores_suffix (row row' : record) (digits rest : jsstring) :
  is_numeral digits = true ->
  ends_number rest = true ->
  scoreStr row = Str (digits ++ rest) ->
  scoreStr row' = Str digits ->
  score (to_entry row) = score (to_entry row').
Proof.
  intros Hn Hr Hs Hs'.
  rewrite (score_numeral row digits rest Hs Hn Hr).
  rewrite (score_numeral row' digits [] ltac:(now rewrite app_nil_r) Hn eq_refl).
  reflexivity.
Qed.

Lemma score_ignores_suffix_witness :
  score (to_entry row_percent) = score (to_entry row_plain).
Proof.
  apply (score_ignores_suffix row_percent row_plain (lit "95") (lit "%"));
    vm_compute; reflexivity.
Defined.

(** A mantissa that fills the precision at its exponent is kept as it is. *)
Lemma binary_round_aux_exact (s : bool) (m : positive) (e : Z) :
  fexp prec emax (Zdigits2 (Zpos m) + e) = e ->
  e <= emax - prec ->
  binary_round_aux prec emax s (Zpos m) e loc_Exact = S754_finite s m e.
Proof.
  intros Hf He. unfold binary_round_aux, shr_fexp. rewrite Hf, Z.sub_diag.
  cbn [shr shr_record_of_loc shr_m loc_of_shr_record shr_r shr_s round_nearest_even].
  rewrite Hf, Z.sub_diag.
  cbn [shr shr_record_of_loc shr_m].
  apply Z.leb_le in He. now rewrite He.
Qed.

(** A whole number below [2 ^ 53] is a value of the format. *)
Lemma binary_round_whole (p : positive) :
  Zpos p < 2 ^ 53 ->
  exists m e,
    binary_round prec emax false p 0 = S754_finite false m e
    /\ -52 <= e <= 0 /\ Zpos m = Zpos p * 2 ^ (- e).
Proof.
  intros Hp. unfold binary_round.
  pose proof (digits2_pos_lower p) as Hlo.
  assert (Hd : Zpos (digits2_pos p) <= 53).
  { destruct (Z.le_gt_cases (Zpos (digits2_pos p)) 53) as [H | H]; [exact H |].
    assert (2 ^ 53 <= 2 ^ (Zpos (digits2_pos p) - 1)) by (apply Z.pow_le_mono_r; lia).
    lia. }
  set (d := Zpos (digits2_pos p)) in *.
  assert (Hfexp : fexp prec emax (d + 0) = d - 53) by (unfold d; fexp_lia).
  pose proof (shl_align_fst p 0 (d - 53) ltac:(lia)) as Hfst.
  pose proof (shl_align_snd p 0 (d - 53)) as Hsnd.
  fold d. rewrite Hfexp.
  destruct (shl_align p 0 (d - 53)) as [mz ez]. cbn [fst snd] in Hfst, Hsnd.
  rewrite Z.min_r in Hsnd by lia. subst ez.
  exists mz, (d - 53).
  split; [| split; [unfold d; lia | rewrite Hfst; f_equal; f_equal; lia]].
  apply binary_round_aux_exact; [| unfold emax, prec; lia].
  assert (Hdig : Zdigits2 (Zpos mz) = 53).
  { rewrite Zdigits2_log2 by lia. rewrite Hfst.
    rewrite Z.log2_mul_pow2 by lia.
    pose proof (Zdigits2_log2 (Zpos p) ltac:(lia)) as Hl. cbn [Zdigits2] in Hl.
    fold d in Hl. lia. }
  rewrite Hdig. unfold d. fexp_lia.
Qed.

Lemma of_decimal_whole (n : Z) :
  0 < n < 2 ^ 53 ->
  exists m e,
    of_decimal false n 0 = S754_finite false m e
    /\ -52 <= e <= 0 /\ Zpos m = n * 2 ^ (- e).
Proof.
  intros Hn. destruct n as [| p | p]; try lia.
  unfold of_decimal. cbn [Z.leb Z.compare].
  change (10 ^ 0) with 1. rewrite Z.mul_1_r. cbn [cond_Zopp binary_normalize].
  apply binary_round_whole. lia.
Qed.

(** X18: a score written as a whole number [n] with [0 < n < 2 ^ 53] is
    read exactly: the score is the finite value [m * 2 ^ e] with [e <= 0]
    and [m = n * 2 ^ (- e)]. *)
Theorem whole_score_exact (row : record) (digits rest : jsstring) :
  scoreStr row = Str (digits ++ rest) ->
  is_numeral digits = true ->
  ends_number rest = true ->
  0 < decimal_value digits < 2 ^ 53 ->
  exists m e,
    score (to_entry row) = S754_finite false m e
    /\ e <= 0 /\ Zpos m = decimal_value digits * 2 ^ (- e).
Proof.
  intros Hs Hn Hr Hv. rewrite (score_numeral row digits rest Hs Hn Hr).
  destruct (of_decimal_whole _ Hv) as (m & e & H & He & Hm).
  exists m, e. repeat split; [exact H | lia | exact Hm].
Qed.

Lemma whole_score_exact_witness :
  exists m e,
    score (to_entry row_hundred) = S754_finite false m e
    /\ e <= 0 /\ Zpos m = 100 * 2 ^ (- e).
Proof.
  apply (whole_score_exact row_hundred (lit "100") []).
  - vm_compute. reflexivity.
  - reflexivity.
  - reflexivity.
  - vm_compute. split; reflexivity.
Defined.

Lemma units_whole (n : Z) :
  0 <= n < 2 ^ 53 ->
  num_ok (of_decimal false n 0) /\ isNaN (of_decimal false n 0) = false
  /\ (match of_decimal false n 0 with S754_infinity _ => False | _ => True end)
  /\ units (of_decimal false n 0) = n * 2 ^ (- EMIN).
Proof.
  intros Hn. split; [apply of_decimal_ok; lia |].
  split; [apply of_decimal_not_nan; lia |].
  destruct (Z.eq_dec n 0) as [-> | Hz]; [cbn; split; [exact I | reflexivity] |].
  destruct (of_decimal_whole n ltac:(lia)) as (m & e & -> & He & Hm).
  split; [exact I |]. cbn [units cond_Zopp]. rewrite Hm, <- Z.mul_assoc. f_equal.
  rewrite <- Z.pow_add_r by (unfold EMIN, emin, prec, emax; lia). f_equal. lia.
Qed.

Lemma num_leb_whole (a b : Z) :
  0 <= a < 2 ^ 53 -> 0 <= b < 2 ^ 53 ->
  num_leb (of_decimal false a 0) (of_decimal false b 0) = (a <=? b).
Proof.
  intros Ha Hb.
  destruct (units_whole a Ha) as (_ & Hna & Hia & Hua).
  destruct (units_whole b Hb) as (_ & Hnb & Hib & Hub).
  assert (Hleb : num_leb (of_decimal false a 0) (of_decimal false b 0)
                 = (units (of_decimal false a 0) <=? units (of_decimal false b 0))).
  { destruct (of_decimal false a 0), (of_decimal false b 0);
      try discriminate; try contradiction; reflexivity. }
  rewrite Hleb, Hua, Hub.
  assert (0 < 2 ^ (- EMIN)) by (apply Z.pow_pos_nonneg; unfold EMIN, emin, prec, emax; lia).
  destruct (Z.leb_spec a b); [apply Z.leb_le | apply Z.leb_gt]; nia.
Qed.

(** X19: scores written as whole numbers below [2 ^ 53] compare, with the
    [<=] of the language, as the whole numbers do. *)
Theorem whole_scores_compare (ra rb : record) (da db resta restb : jsstring) :
  scoreStr ra = Str (da ++ resta) -> scoreStr rb = Str (db ++ restb) ->
  is_numeral da = true -> is_numeral db = true ->
  ends_number resta = true -> ends_number restb = true ->
  decimal_value da < 2 ^ 53 -> decimal_value db < 2 ^ 53 ->
  SFleb (score (to_entry ra)) (score (to_entry rb))
  = (decimal_value da <=? decimal_value db).
Proof.
  intros Hsa Hsb Hna Hnb Hra Hrb Hva Hvb.
  rewrite <- num_leb_SFleb by apply score_valid.
  rewrite (score_numeral ra da resta Hsa Hna Hra), (score_numeral rb db restb Hsb Hnb Hrb).
  apply num_leb_whole; split; try assumption; now apply numeral_value_nonneg.
Qed.

Lemma whole_scores_compare_witness :
  SFleb (score (to_entry row_percent)) (score (to_entry row_hundred)) = (95 <=? 100).
Proof.
  apply (whole_scores_compare row_percent row_hundred (lit "95") (lit "100") (lit "%") []);
    vm_compute; reflexivity.
Defined.

(* ----------------------------------------------------------------- *)
(** ** Renderer: the elements do not depend on the data *)

Lemma skeleton_text_kids (v : value) : flat_map skeleton (text_kids v) = [].
Proof. now destruct v as [| [| c s]]. Qed.

Lemma skeleton_row_of (nts nts' : num -> jsstring) (e e' : entry) (index : nat) :
  skeleton (row_of nts e index) = skeleton (row_of nts' e' index).
Proof.
  unfold row_of. destruct (badge_colours (index + 1)) as [[bg border] colour].
  cbn [skeleton flat_map app]. now rewrite !skeleton_text_kids.
Qed.

Lemma skeleton_rows (nts nts' : num -> jsstring) (data : list entry) :
  forall (data' : list entry) (f g : nat -> nat),
    (forall i, f i = g i) ->
    length data = length data' ->
    flat_map skeleton (imap (fun i e => row_of nts e (f i)) data)
    = flat_map skeleton (imap (fun i e => row_of nts' e (g i)) data').
Proof.
  induction data as [| e data IH]; intros [| e' data'] f g Hfg Hlen;
    try discriminate; [reflexivity |].
  cbn [imap flat_map]. rewrite Hfg, (skeleton_row_of nts nts' e e'). f_equal.
  apply (IH data' (f ∘ S) (g ∘ S)); [intros i; apply Hfg | now inversion Hlen].
Qed.

(** X20: on a page that has the display surface, the elements the call
    leaves, with their tags, classes and styles, depend on the number of
    entries only.  Names, dealerships and scores go into text nodes; no
    text of the data creates or changes an element. *)
Theorem render_skeleton (nts nts' : num -> jsstring) (data data' : list entry)
    (old old' : list node) :
  length data = length data' ->
  flat_map skeleton <$> renderLeaderboard nts data (Some old)
  = flat_map skeleton <$> renderLeaderboard nts' data' (Some old').
Proof.
  intros Hlen. rewrite !renderLeaderboard_rows. cbn [fmap option_fmap option_map].
  f_equal. now apply (skeleton_rows nts nts' data data' id id).
Qed.

Lemma render_skeleton_witness :
  flat_map skeleton
    <$> renderLeaderboard show_nothing (transformData (parseCSV csv_two_rows)) (Some [])
  = flat_map skeleton
    <$> renderLeaderboard show_nothing (map entry_example [54; 55]%N) (Some []).
Proof.
  apply render_skeleton. vm_compute. reflexivity.
Defined.

(* ----------------------------------------------------------------- *)
(** ** Orchestration: what a cycle and a run of cycles leave *)

(** X21: on a page that has the display surface, a cycle whose fetch
    returns a sheet leaves one table row per record of the sheet, the row
    at each position being the row of the entry ranked at that position,
    and logs nothing. *)
Theorem refresh_shows_every_record (fetch : jsstring -> response)
    (number_to_string : num -> jsstring) (p : page) (csv : jsstring) (old : list node) :
  snd (fetchCSV fetch SHEET_CSV_URL) = inr csv ->
  display p = Some old ->
  exists rows : list node,
    display (refreshLeaderboard fetch number_to_string p) = Some rows
    /\ length rows = length (parseCSV csv)
    /\ (forall i e, transformData (parseCSV csv) !! i = Some e ->
                    rows !! i = Some (row_of number_to_string e i))
    /\ console (refreshLeaderboard fetch number_to_string p) = console p.
Proof.
  intros Hf Hd. rewrite (refresh_success fetch number_to_string p csv Hf), Hd.
  cbn [display console]. rewrite renderLeaderboard_rows.
  eexists. split; [reflexivity |]. split; [| split; [| reflexivity]].
  - rewrite length_imap. unfold transformData. now rewrite js_sort_length, length_map.
  - intros i e Hi. now rewrite list_lookup_imap, Hi.
Qed.

Lemma refresh_shows_every_record_witness :
  exists rows : list node,
    display (refreshLeaderboard fetch_sheet show_nothing page_example) = Some rows
    /\ length rows = length (parseCSV csv_two_rows)
    /\ (forall i e, transformData (parseCSV csv_two_rows) !! i = Some e ->
                    rows !! i = Some (row_of show_nothing e i))
    /\ console (refreshLeaderboard fetch_sheet show_nothing page_example)
       = console page_example.
Proof.
  apply (refresh_shows_every_record fetch_sheet show_nothing page_example csv_two_rows
           [row_of show_nothing (entry_example 49%N) 0]).
  - vm_compute. reflexivity.
  - reflexivity.
Defined.

Section CyclesFacts.
Variable number_to_string : num -> jsstring.

Lemma refresh_cases (fetch : jsstring -> response) (p : page) :
  match sheet_of fetch with
  | Some csv =>
      refreshLeaderboard fetch number_to_string p
      = {| display := renderLeaderboard number_to_string
                        (transformData (parseCSV csv)) (display p);
           console := console p |}
  | None =>
      exists e, refreshLeaderboard fetch number_to_string p
                = {| display := display p; console := console p ++ [e] |}
  end.
Proof.
  unfold sheet_of, refreshLeaderboard, cycle.
  destruct (snd (fetchCSV fetch SHEET_CSV_URL)) as [e | csv]; [now exists e | reflexivity].
Qed.

End CyclesFacts.

(** X22: over any run of cycles, one after the other, on a page that has
    the display surface: the surface shows the complete render of the
    sheet of the last cycle that fetched one, or what it showed at the
    start when none did, and the console has grown by one error per cycle
    that failed. *)
Theorem display_follows_last_sheet (number_to_string : num -> jsstring)
    (nets : list (jsstring -> response)) (p : page) (old : list node) :
  display p = Some old ->
  display (refreshes number_to_string nets p)
  = match last_delivered nets with
    | Some csv =>
        renderLeaderboard number_to_string (transformData (parseCSV csv)) (Some [])
    | None => Some old
    end
  /\ length (console (refreshes number_to_string nets p))
     = (length (console p) + failures nets)%nat.
Proof.
  revert p old. induction nets as [| fetch nets IH]; intros p old Hd.
  - cbn. split; [exact Hd | lia].
  - change (refreshes number_to_string (fetch :: nets) p)
      with (refreshes number_to_string nets (refreshLeaderboard fetch number_to_string p)).
    unfold failures in *. cbn [List.filter last_delivered].
    pose proof (refresh_cases number_to_string fetch p) as Hc.
    destruct (sheet_of fetch) as [csv |].
    + rewrite Hc, Hd, renderLeaderboard_rows.
      match goal with
      | |- context [refreshes _ _ ?q] => destruct (IH q _ eq_refl) as [H1 H2]
      end.
      rewrite H1, H2. cbn [console]. split; [| reflexivity].
      destruct (last_delivered nets); [reflexivity |].
      now rewrite renderLeaderboard_rows.
    + destruct Hc as [e ->].
      match goal with
      | |- context [refreshes _ _ ?q] => destruct (IH q old Hd) as [H1 H2]
      end.
      rewrite H1, H2. cbn [console length].
      split; [now destruct (last_delivered nets) |].
      rewrite length_app. cbn [length]. lia.
Qed.

Lemma display_follows_last_sheet_witness :
  display (refreshes show_nothing [fetch_offline; fetch_sheet; fetch_offline] page_example)
  = renderLeaderboard show_nothing (transformData (parseCSV csv_two_rows)) (Some [])
  /\ length (console (refreshes show_nothing [fetch_offline; fetch_sheet; fetch_offline]
                        page_example))
     = (length (console page_example) + 2)%nat.
Proof.
  apply (display_follows_last_sheet show_nothing [fetch_offline; fetch_sheet; fetch_offline]
           page_example [row_of show_nothing (entry_example 49%N) 0]).
  reflexivity.
Defined.

(* ----------------------------------------------------------------- *)
(** ** Parser and Transformer: the texts of an entry *)

Lemma trim_fixed_start (s : jsstring) : trim s = s -> trim_start s = s.
Proof.
  intros H. rewrite <- H. unfold trim.
  now rewrite <- trim_start_trim_end, trim_start_idem.
Qed.

Lemma trim_fixed_end (s : jsstring) : trim s = s -> trim_end s = s.
Proof. intros H. rewrite <- H. apply trim_end_trim. Qed.

Lemma trim_end_app_kept (x b : jsstring) :
  all_ws b = false -> trim_end (x ++ b) = x ++ trim_end b.
Proof.
  intros H. induction x as [| c x IH]; [reflexivity |].
  cbn [app]. rewrite trim_end_cons, IH.
  change (all_ws (c :: x ++ b)) with (is_ws c && all_ws (x ++ b)).
  now rewrite all_ws_app, H, !andb_false_r.
Qed.

(** Two trimmed texts that are not empty stay trimmed with anything between
    them. *)
Lemma trim_fixed_app (a mid b : jsstring) :
  trim a = a -> a <> [] -> trim b = b -> b <> [] ->
  trim (a ++ mid ++ b) = a ++ mid ++ b.
Proof.
  intros Ha Hna Hb Hnb.
  apply trim_fixed_start in Ha. apply trim_fixed_end in Hb.
  destruct a as [| c a']; [congruence |].
  assert (Hc : is_ws c = false).
  { cbn [trim_start] in Ha. destruct (is_ws c) eqn:E; [| reflexivity].
    exfalso. assert (Hl : (length (trim_start a') <= length a')%nat).
    { clear. induction a' as [| d a' IH]; cbn [trim_start]; [lia |].
      destruct (is_ws d); cbn [length]; lia. }
    rewrite Ha in Hl. cbn [length] in Hl. lia. }
  assert (Hwb : all_ws b = false).
  { destruct (all_ws b) eqn:E; [| reflexivity].
    apply trim_end_all_ws in E. congruence. }
  unfold trim. cbn [app]. rewrite (trim_start_head c _ Hc).
  change (c :: a' ++ mid ++ b) with ((c :: a') ++ mid ++ b).
  rewrite !app_assoc, trim_end_app_kept by exact Hwb. now rewrite Hb.
Qed.

Lemma js_or_trimmed (a b : value) : trimmed a -> trimmed b -> trimmed (js_or a b).
Proof. unfold js_or. now destruct (truthy a). Qed.

Lemma obj_get_trimmed (row : record) (k : jsstring) :
  (forall k v, row !! k = Some v -> trim v = v) -> trimmed (obj_get row k).
Proof.
  intros H. unfold obj_get. destruct (row !! k) as [v |] eqn:E; [| exact I].
  exact (H k v E).
Qed.

Lemma truthy_text (v : value) : truthy v = true -> exists s, v = Str s /\ s <> [].
Proof. destruct v as [| [| c s]]; try discriminate. intros _. now eexists. Qed.

(** X23: every entry made from a parsed text has a name without white
    space at either end, whether it joins two names, holds one or is empty,
    and a dealership that is [undefined] or has none either. *)
Theorem entry_texts_trimmed (csv : jsstring) (e : entry) :
  In e (transformData (parseCSV csv)) ->
  trim (name e) = name e /\ trimmed (dealership e).
Proof.
  intros He. apply transformData_In_iff, in_map_iff in He as (row & <- & Hrow).
  assert (Hv : forall k v, row !! k = Some v -> trim v = v).
  { intros k v Hk. apply In_parseCSV in Hrow as (l & _ & ->).
    apply make_row_key in Hk as (_ & _ & idx & ->). apply trim_idem. }
  assert (Hf : trimmed (firstName row))
    by (unfold firstName; repeat apply js_or_trimmed; now apply obj_get_trimmed).
  assert (Hl : trimmed (lastName row))
    by (unfold lastName; repeat apply js_or_trimmed; now apply obj_get_trimmed).
  split.
  - unfold to_entry. cbn [name List.filter].
    destruct (truthy (firstName row)) eqn:Ef, (truthy (lastName row)) eqn:El.
    + apply truthy_text in Ef as (a & Ea & Hna), El as (b & Eb & Hnb).
      rewrite Ea, Eb in *. cbn [join join_item]. now apply trim_fixed_app.
    + apply truthy_text in Ef as (a & Ea & Hna). rewrite Ea in *. exact Hf.
    + apply truthy_text in El as (b & Eb & Hnb). rewrite Eb in *. exact Hl.
    + reflexivity.
  - unfold to_entry. cbn [dealership]. unfold dealershipOf.
    repeat apply js_or_trimmed; now apply obj_get_trimmed.
Qed.

Lemma entry_texts_trimmed_witness :
  trim (lit "Bo Ray") = lit "Bo Ray" /\ trimmed (Str (lit "Acme")).
Proof.
  apply (entry_texts_trimmed csv_two_rows
           {| name := lit "Bo Ray"; dealership := Str (lit "Acme");
              score := S754_finite false 6685030696878080 (-46) |}).
  vm_compute. left. reflexivity.
Defined.

(* ----------------------------------------------------------------- *)
(** ** Transformer and Renderer: a whole score on the display *)

Lemma show_whole_prints : prints_whole_numbers show_whole.
Proof.
  intros n m e Hn He Hm. unfold show_whole.
  assert (Hnz : 2 ^ (- e) <> 0) by (apply Z.pow_nonzero; lia).
  apply Z.leb_le in He as ->. now rewrite Hm, Z.div_mul.
Qed.

Lemma text_kids_text (s : jsstring) : s <> [] -> text_kids (Str s) = [Text s].
Proof. destruct s; [congruence | reflexivity]. Qed.

(** The last text of a row is the text of the score cell. *)
Lemma texts_row_last (number_to_string : num -> jsstring) (e : entry) (index : nat) :
  last (texts (row_of number_to_string e index))
  = Some (number_to_string (score e) ++ lit "%").
Proof.
  unfold row_of. destruct (badge_colours (index + 1)) as [[bg border] colour].
  cbn [texts flat_map]. rewrite !app_nil_r.
  rewrite (text_kids_text (number_to_string (score e) ++ lit "%"))
    by (destruct (number_to_string (score e)); discriminate).
  cbn [flat_map texts]. rewrite !app_nil_r, !app_assoc. apply last_snoc.
Qed.

(** X24: with a [Number::toString] that writes the positive whole numbers
    below [2 ^ 53] in decimal, as the one of the language does, the score
    cell of the row of a record whose score text is such a whole number,
    with or without text behind it that cannot continue it, shows the
    decimal digits of the number followed by [%]. *)
Theorem whole_score_shown (number_to_string : num -> jsstring) (row : record)
    (digits rest : jsstring) (index : nat) :
  prints_whole_numbers number_to_string ->
  scoreStr row = Str (digits ++ rest) ->
  is_numeral digits = true ->
  ends_number rest = true ->
  0 < decimal_value digits < 2 ^ 53 ->
  last (texts (row_of number_to_string (to_entry row) index))
  = Some (decimal (decimal_value digits) ++ lit "%").
Proof.
  intros Hp Hs Hn Hr Hv. rewrite texts_row_last.
  rewrite (score_numeral row digits rest Hs Hn Hr).
  destruct (of_decimal_whole _ Hv) as (m & e & -> & He & Hm).
  rewrite (Hp (decimal_value digits) m e Hv); [reflexivity | lia | exact Hm].
Qed.

Lemma whole_score_shown_witness :
  last (texts (row_of show_whole (to_entry row_percent) 0)) = Some (lit "95%").
Proof.
  apply (whole_score_shown show_whole row_percent (lit "95") (lit "%") 0).
  - exact show_whole_prints.
  - vm_compute. reflexivity.
  - reflexivity.
  - reflexivity.
  - vm_compute. split; reflexivity.
Defined.

(* ----------------------------------------------------------------- *)
(** ** Parser: reading back a table *)

Lemma join_with_cons (sep : N) (p : jsstring) (rest : list jsstring) :
  rest <> [] -> join_with sep (p :: rest) = p ++ sep :: join_with sep rest.
Proof. destruct rest; [congruence | reflexivity]. Qed.

Lemma split_on_no_sep (sep : N) (s : jsstring) : ~ In sep s -> split_on sep s = [s].
Proof.
  induction s as [| c s IH]; [reflexivity |]. intros H.
  rewrite split_on_cons.
  destruct (N.eqb_spec c sep) as [-> | Hc]; [exfalso; apply H; now left |].
  rewrite IH by (intros Hs; apply H; now right). reflexivity.
Qed.

Lemma split_on_join (sep : N) (cells : list jsstring) :
  cells <> [] -> Forall (fun c => ~ In sep c) cells ->
  split_on sep (join_with sep cells) = cells.
Proof.
  induction cells as [| c rest IH]; [congruence |]. intros _ H.
  inversion H as [| ? ? Hc Hrest]; subst.
  destruct rest as [| d rest'].
  - now apply split_on_no_sep.
  - rewrite join_with_cons by discriminate.
    rewrite split_on_app_sep, (split_on_no_sep sep c Hc), IH by (discriminate || assumption).
    reflexivity.
Qed.

(** A line that does not end with white space, before a line feed. *)
Lemma split_lines_line (l s : jsstring) :
  ~ In LF l -> trim_end l = l ->
  split_lines (l ++ LF :: s) = l :: split_lines s.
Proof.
  induction l as [| c l IH]; intros Hlf Hfix.
  - cbn [app]. rewrite split_lines_cons. now rewrite N.eqb_refl.
  - apply trim_end_fixed_cons in Hfix as [Hws Hfix].
    assert (Hc : (c =? LF)%N = false).
    { apply N.eqb_neq. intros ->. apply Hlf. now left. }
    assert (Hl : ~ In LF l) by (intros H; apply Hlf; now right).
    cbn [app]. rewrite split_lines_cons, Hc.
    assert (Hcr : (c =? CR)%N && starts_with_LF (l ++ LF :: s) = false).
    { destruct (N.eqb_spec c CR) as [-> | Hn]; [| reflexivity]. cbn [andb].
      destruct l as [| d l']; [discriminate |]. cbn.
      apply N.eqb_neq. intros ->. apply Hl. now left. }
    rewrite Hcr, (IH Hl Hfix). reflexivity.
Qed.

Lemma split_lines_join (lines : list jsstring) :
  lines <> [] ->
  Forall (fun l => ~ In LF l /\ trim_end l = l) lines ->
  split_lines (join_with LF lines) = lines.
Proof.
  induction lines as [| l rest IH]; [congruence |]. intros _ H.
  inversion H as [| ? ? [Hlf Hfix] Hrest]; subst.
  destruct rest as [| l' rest'].
  - now apply split_lines_no_LF.
  - rewrite join_with_cons by discriminate.
    rewrite (split_lines_line l _ Hlf Hfix), IH by (discriminate || assumption).
    reflexivity.
Qed.

Lemma trim_fixed_iff (s : jsstring) : trim s = s <-> trim_start s = s /\ trim_end s = s.
Proof.
  split.
  - intros H. split; [now apply trim_fixed_start | now apply trim_fixed_end].
  - intros [H1 H2]. unfold trim. now rewrite H1.
Qed.

Lemma trim_start_fixed_head (c : N) (s : jsstring) :
  trim_start (c :: s) = c :: s -> is_ws c = false.
Proof.
  cbn [trim_start]. destruct (is_ws c) eqn:E; [| reflexivity]. intros H. exfalso.
  assert (Hl : (length (trim_start s) <= length s)%nat).
  { clear. induction s as [| d s IH]; cbn [trim_start]; [lia |].
    destruct (is_ws d); cbn [length]; lia. }
  rewrite H in Hl. cbn [length] in Hl. lia.
Qed.

(** Plain cells with commas between them make a line without white space
    at either end. *)
Lemma trim_join_plain (cells : list jsstring) :
  Forall plain cells -> trim (join_with COMMA cells) = join_with COMMA cells.
Proof.
  induction 1 as [| c rest [Hc _] _ IH]; [reflexivity |].
  destruct rest as [| d rest']; [exact Hc |].
  rewrite join_with_cons by discriminate.
  set (b := join_with COMMA (d :: rest')) in *.
  apply trim_fixed_iff in Hc as [Hc1 Hc2]. apply trim_fixed_iff in IH as [Hb1 Hb2].
  apply trim_fixed_iff. split.
  - destruct c as [| x c']; [reflexivity |].
    cbn [app]. apply trim_start_head. now apply trim_start_fixed_head in Hc1.
  - destruct (all_ws b) eqn:Eb.
    + assert (b = []) as -> by (rewrite <- Hb2; now apply trim_end_all_ws).
      now apply (trim_end_app_kept c [COMMA]).
    + change (c ++ COMMA :: b) with (c ++ [COMMA] ++ b).
      rewrite app_assoc, trim_end_app_kept by exact Eb. now rewrite Hb2.
Qed.

Lemma fixed_not_ws (s : jsstring) : trim s = s -> s <> [] -> all_ws s = false.
Proof.
  intros H Hn. destruct (all_ws s) eqn:E; [| reflexivity].
  apply trim_all_ws in E. congruence.
Qed.

Lemma In_join_with (sep c : N) (cells : list jsstring) :
  In c (join_with sep cells) -> c = sep \/ exists cell, In cell cells /\ In c cell.
Proof.
  induction cells as [| x rest IH]; [intros [] |].
  destruct rest as [| y rest'].
  - intros H. right. exists x. split; [now left | exact H].
  - rewrite join_with_cons by discriminate. intros H.
    apply in_app_or in H as [H | [H | H]].
    + right. exists x. split; [now left | exact H].
    + now left.
    + destruct (IH H) as [-> | (cell & Hcell & Hc)]; [now left |].
      right. exists cell. split; [now right | exact Hc].
Qed.

(** The line of a row of plain cells. *)
Lemma plain_line (cells : list jsstring) :
  Forall plain cells ->
  ~ In LF (join_with COMMA cells) /\ trim_end (join_with COMMA cells) = join_with COMMA cells.
Proof.
  intros H. split.
  - intros Hin. apply In_join_with in Hin as [Heq | (cell & Hcell & Hc)]; [discriminate |].
    rewrite List.Forall_forall in H. destruct (H cell Hcell) as (_ & _ & Hlf). contradiction.
  - apply trim_fixed_end. now apply trim_join_plain.
Qed.

Lemma drop_trailing_ws_none (ls : list jsstring) :
  Forall (fun l => all_ws l = false) ls -> drop_trailing_ws ls = ls.
Proof.
  induction 1 as [| l rest Hl Hrest IH]; [reflexivity |].
  rewrite drop_trailing_ws_cons, IH, Hl.
  destruct rest as [| x rest']; [reflexivity |].
  inversion Hrest as [| ? ? Hx _]; subst. cbn [forallb]. now rewrite Hx.
Qed.

Lemma filter_all {A : Type} (f : A -> bool) (l : list A) :
  Forall (fun x => f x = true) l -> List.filter f l = l.
Proof.
  induction 1 as [| x l Hx _ IH]; [reflexivity |]. cbn [List.filter]. now rewrite Hx, IH.
Qed.

Lemma lookup_zip_Some (headers cells : list jsstring) (idx : nat) (k c : jsstring) :
  headers !! idx = Some k -> cells !! idx = Some c -> zip headers cells !! idx = Some (k, c).
Proof.
  revert cells idx. induction headers as [| h headers IH]; intros [| d cells] [| idx] Hk Hc;
    try discriminate; cbn in *; [congruence | now apply IH].
Qed.

(** The row of plain cells under distinct headers holds each cell under its
    header, and nothing else. *)
Lemma make_row_record (headers cells : list jsstring) :
  NoDup headers -> ~ In PROTO headers ->
  length cells = length headers -> Forall plain cells ->
  make_row headers cells = record_of headers cells.
Proof.
  intros Hnd Hp Hlen Hcells. apply map_eq. intros k. unfold record_of.
  destruct (decide (k ∈ headers)) as [Hk | Hk].
  - apply list_elem_of_lookup_1 in Hk as [idx Hidx].
    assert (Hc : exists c, cells !! idx = Some c).
    { apply lookup_lt_is_Some. rewrite Hlen. now apply lookup_lt_Some in Hidx. }
    destruct Hc as [c Hc].
    destruct (make_row_spec headers cells) as (_ & _ & Hcell).
    rewrite (Hcell idx k c Hidx).
    + symmetry. apply elem_of_list_to_map_1.
      * rewrite fst_zip by lia. exact Hnd.
      * apply list_elem_of_lookup_2 with idx.
        rewrite (lookup_zip_Some headers cells idx k c Hidx Hc). f_equal. f_equal.
        rewrite List.Forall_forall in Hcells.
        assert (In c cells) as Hin
          by (apply list_elem_of_In; eapply list_elem_of_lookup_2; exact Hc).
        now destruct (Hcells c Hin) as [-> _].
    + intros ->. apply Hp. apply list_elem_of_In. eapply list_elem_of_lookup_2. exact Hidx.
    + intros Hin. apply list_elem_of_In, list_elem_of_lookup_1 in Hin as [j Hj].
      rewrite lookup_drop in Hj.
      pose proof (NoDup_lookup headers idx (S idx + j)%nat k Hnd Hidx Hj). lia.
    + exact Hc.
  - rewrite list_elem_of_In in Hk.
    unfold make_row, forEach.
    change (fun row header idx => obj_set row header (trim (cell_or_empty cells idx)))
      with (fill cells).
    rewrite fill_other by exact Hk. rewrite lookup_empty. symmetry.
    apply not_elem_of_list_to_map_1. rewrite fst_zip by lia.
    now rewrite list_elem_of_In.
Qed.

(** X25: the Parser reads back a table written as plain text.  For
    distinct header names, none of them [__proto__], and rows that have one
    cell per header, all cells and names being plain (no white space at
    either end, no comma, no line feed) and no line being empty, the
    records of the text that has the header line and the row lines, cells
    separated by commas and lines by line feeds, are the rows in order,
    each holding every cell under its header and nothing else. *)
Theorem parseCSV_reads_back (headers : list jsstring) (rows : list (list jsstring)) :
  Forall plain headers -> NoDup headers -> ~ In PROTO headers ->
  join_with COMMA headers <> [] ->
  Forall (table_row headers) rows ->
  parseCSV (write_csv headers rows) = map (record_of headers) rows.
Proof.
  intros Hh Hnd Hp Hne Hrows.
  assert (Hhs : headers <> []) by (intros ->; now apply Hne).
  set (h := join_with COMMA headers).
  set (ls := map (join_with COMMA) rows).
  assert (Hls : Forall (fun l => all_ws l = false) ls).
  { unfold ls. apply Forall_fmap. eapply List.Forall_impl; [| exact Hrows].
    intros cells (_ & Hc & Hn). cbn. apply fixed_not_ws; [now apply trim_join_plain | exact Hn]. }
  assert (Hsplit : split_lines (write_csv headers rows) = h :: ls).
  { unfold write_csv. cbn [map]. apply split_lines_join; [discriminate |].
    constructor; [now apply plain_line |].
    unfold ls. apply Forall_fmap. eapply List.Forall_impl; [| exact Hrows].
    intros cells (_ & Hc & _). cbn. now apply plain_line. }
  rewrite (parseCSV_lines _ h ls Hsplit)
    by (apply fixed_not_ws; [now apply trim_join_plain | exact Hne]).
  rewrite drop_trailing_ws_none by exact Hls.
  rewrite filter_all
    by (eapply List.Forall_impl; [| exact Hls]; intros [| c l] H; [discriminate | reflexivity]).
  assert (Hnames : header_names h = headers).
  { unfold header_names, h. rewrite split_on_join.
    - clear -Hh. induction Hh as [| x l [Hx _] _ IH]; [reflexivity |]. cbn [map].
      now rewrite Hx, IH.
    - exact Hhs.
    - eapply List.Forall_impl; [| exact Hh]. now intros c (_ & Hc & _). }
  rewrite Hnames. unfold ls. rewrite map_map. apply map_ext_in.
  intros cells Hin. rewrite List.Forall_forall in Hrows.
  destruct (Hrows cells Hin) as (Hlen & Hc & Hn).
  unfold row_of_line. rewrite split_on_join.
  - now apply make_row_record.
  - intros ->. now apply Hn.
  - eapply List.Forall_impl; [| exact Hc]. now intros c (_ & Hcc & _).
Qed.

Lemma parseCSV_reads_back_witness :
  parseCSV (write_csv [lit "Name"; lit "Score"] [[lit "Ann"; lit "7"]; [lit "Bo"; lit ""]])
  = map (record_of [lit "Name"; lit "Score"]) [[lit "Ann"; lit "7"]; [lit "Bo"; lit ""]].
Proof.
  assert (Hplain : forall cell,
            In cell [lit "Name"; lit "Score"; lit "Ann"; lit "7"; lit "Bo"; lit ""] ->
            plain cell).
  { intros cell H.
    repeat (destruct H as [<- | H];
            [split; [reflexivity |];
             split; vm_compute; intros H;
             repeat (destruct H as [H | H]; [discriminate |]); exact H |]).
    destruct H. }
  apply parseCSV_reads_back.
  - repeat constructor; apply Hplain; vm_compute; tauto.
  - repeat constructor; intros H; apply list_elem_of_In in H; vm_compute in H;
      repeat (destruct H as [H | H]; [discriminate |]); exact H.
  - vm_compute. intros H. repeat (destruct H as [H | H]; [discriminate |]). exact H.
  - discriminate.
  - repeat constructor; try (apply Hplain; vm_compute; tauto); discriminate.
Defined.
